(** * Night-mode: the rope simulation and its interaction controller

    A shallow embedding of [utils/physics] ([createRope], [updatePhysics],
    [resolveStick]) and of the physics half of the [BulbScene] component
    (snag, winch, pointer handlers).

    - A JavaScript [number] is kept abstract behind the interface
      [JSNumber]; every function of the program is written once against
      that interface.  Two instances are given: [FloatNumber] (IEEE 754
      binary64, the arithmetic the program really runs on) and
      [RealNumber] (exact real arithmetic, the arithmetic the comments of
      the program reason in).
    - Point objects are shared between [points] and the sticks, and are
      mutated in place, so they live in an explicit object store
      ([Heap]); [points], [p1] and [p2] hold references ([loc]).
    - Reading a field of [undefined] (an array index out of range) throws
      in JavaScript; such a run is [None] here. *)

From Stdlib Require Import QArith Floats Reals Lra Ring.
From stdpp Require Import base option list.

Local Open Scope nat_scope.

(** ** Numbers *)

Class JSNumber := {
  num : Type;
  nadd : num → num → num;
  nsub : num → num → num;
  nmul : num → num → num;
  ndiv : num → num → num;
  nsqrt : num → num;              (* Math.sqrt *)
  hypot : num → num → num;        (* Math.hypot, two arguments *)
  nlt : num → num → bool;         (* a < b *)
  neq : num → num → bool;         (* a === b *)
  lit : Q → num;                  (* a numeric literal, or an integer used as a number *)
}.

Declare Scope num_scope.
Delimit Scope num_scope with num.
Notation "a + b" := (nadd a b) : num_scope.
Notation "a - b" := (nsub a b) : num_scope.
Notation "a * b" := (nmul a b) : num_scope.
Notation "a / b" := (ndiv a b) : num_scope.
Notation "a <? b" := (nlt a b) : num_scope.
Notation "a >? b" := (nlt b a) : num_scope.
Notation "a =? b" := (neq a b) : num_scope.

(** An integer loop counter used in arithmetic ([i * segmentLength],
    [i / activeSegments]). *)
Definition of_nat `{JSNumber} (i : nat) : num := lit (inject_Z (Z.of_nat i)).

(** ** Data model ([types.ts]) *)

(** A reference to a point object: its address in the store. *)
Abbreviation loc := nat.

Record Point `{JSNumber} := mkPoint {
  x : num;
  y : num;
  oldx : num;
  oldy : num;
  pinned : bool;
}.

Record Stick `{JSNumber} := mkStick {
  p1 : loc;
  p2 : loc;
  stick_length : num;      (* the field [length] *)
}.

Record RopeSystem `{JSNumber} := mkRope {
  points : list loc;
  sticks : list Stick;
  iterations : nat;
}.

Record Coordinates `{JSNumber} := mkCoord {
  cx : num;
  cy : num;
}.

(** The object store: [h !! l] is the point object at reference [l]. *)
Abbreviation Heap := (list Point).

Section Physics.
Context {N : JSNumber}.
Local Open Scope num_scope.

Implicit Types (h : Heap) (p q : Point) (s : Stick) (l : loc).

Definition GRAVITY : num := lit 0.5.
Definition FRICTION : num := lit 0.99.
Definition GROUND_FRICTION : num := lit 0.5.
Definition WALL_BOUNCE : num := lit 0.5.

(** ** Loops over an index range, threading the store *)

(** [for (i = start; i < start + count; i++) body(i)] *)
Fixpoint forUp (start count : nat) (body : nat → Heap → option Heap) h
  : option Heap :=
  match count with
  | O => Some h
  | S c => h' ← body start h; forUp (S start) c body h'
  end.

(** [for (i = count - 1; i >= 0; i--) body(i)] *)
Fixpoint forDown (count : nat) (body : nat → Heap → option Heap) h
  : option Heap :=
  match count with
  | O => Some h
  | S c => h' ← body c h; forDown c body h'
  end.

(** [for (j = 0; j < count; j++) body()] *)
Fixpoint repeatM (count : nat) (body : Heap → option Heap) h : option Heap :=
  match count with
  | O => Some h
  | S c => h' ← body h; repeatM c body h'
  end.

(** ** createRope *)

Definition newPoint (startX startY segmentLength : num) (i : nat) : Point :=
  {| x := startX;
     y := startY + of_nat i * segmentLength;
     oldx := startX;
     oldy := startY + of_nat i * segmentLength;
     pinned := Nat.eqb i 0 |}.

(** The new point objects are allocated at the end of the store, so the
    reference of [points[i]] is [length h + i]. *)
Definition createRope h (startX startY : num) (segments : nat)
    (segmentLength : num) : Heap * RopeSystem :=
  let base := length h in
  let pts := seq base segments in
  (h ++ (newPoint startX startY segmentLength <$> seq 0 segments),
   {| points := pts;
      sticks := (fun i => {| p1 := pts !!! i; p2 := pts !!! (i + 1)%nat;
                                 stick_length := segmentLength |})
                  <$> seq 0 (segments - 1)%nat;
      iterations := 600 |}).

(** ** updatePhysics *)

Definition verlet p : Point :=
  let vx := (x p - oldx p) * FRICTION in
  let vy := (y p - oldy p) * FRICTION in
  {| x := x p + vx;
     y := (y p + vy) + GRAVITY;
     oldx := x p;
     oldy := y p;
     pinned := pinned p |}.

Definition collideFloor (height r : num) p : Point :=
  let floorY := height - r in
  if y p >? floorY then
    let currentVx := x p - oldx p in
    {| x := x p;
       y := floorY;
       oldx := x p - currentVx * GROUND_FRICTION;
       oldy := floorY;
       pinned := pinned p |}
  else p.

Definition bounce (wall : num) p : Point :=
  let currentVx := wall - oldx p in
  {| x := wall;
     y := y p;
     oldx := wall + currentVx * WALL_BOUNCE;
     oldy := oldy p;
     pinned := pinned p |}.

Definition collideWalls (width r : num) p : Point :=
  let leftWall := r in
  let rightWall := width - r in
  if x p <? leftWall then bounce leftWall p
  else if x p >? rightWall then bounce rightWall p
  else p.

(** The collision radius of [points[i]] in a rope of [n] points. *)
Definition radiusAt (bulbRadius : num) (n i : nat) : num :=
  if Nat.eqb i (n - 1)%nat then bulbRadius else lit 0.

Definition movePoint (width height r : num) p : Point :=
  collideWalls width r (collideFloor height r (verlet p)).

Definition integrateAt (pts : list loc) (width height bulbRadius : num)
    (i : nat) h : option Heap :=
  l ← pts !! i;
  p ← h !! l;
  if pinned p then Some h
  else Some (<[l := movePoint width height
                      (radiusAt bulbRadius (length pts) i) p]> h).

Definition integrate (sys : RopeSystem) (width height bulbRadius : num) h
  : option Heap :=
  forUp 0 (length (points sys))
        (integrateAt (points sys) width height bulbRadius) h.

Definition moveBy (ddx ddy : num) p : Point :=
  {| x := x p + ddx; y := y p + ddy;
     oldx := oldx p; oldy := oldy p; pinned := pinned p |}.

Definition moveBack (ddx ddy : num) p : Point :=
  {| x := x p - ddx; y := y p - ddy;
     oldx := oldx p; oldy := oldy p; pinned := pinned p |}.

Definition distance p q : num :=
  let dx := x q - x p in
  let dy := y q - y p in
  nsqrt (dx * dx + dy * dy).

Definition resolveStick s h : option Heap :=
  a ← h !! p1 s;
  b ← h !! p2 s;
  let dx := x b - x a in
  let dy := y b - y a in
  let distance := nsqrt (dx * dx + dy * dy) in
  if distance =? lit 0 then Some h
  else
    let difference := stick_length s - distance in
    let percent := difference / distance / lit 2 in
    let offsetX := dx * percent in
    let offsetY := dy * percent in
    let p1Pinned := pinned a in
    let p2Pinned := pinned b in
    if p1Pinned && negb p2Pinned then
      Some (<[p2 s := moveBy (offsetX * lit 2) (offsetY * lit 2) b]> h)
    else if negb p1Pinned && p2Pinned then
      Some (<[p1 s := moveBack (offsetX * lit 2) (offsetY * lit 2) a]> h)
    else if negb p1Pinned && negb p2Pinned then
      let h1 := <[p1 s := moveBack offsetX offsetY a]> h in
      b' ← h1 !! p2 s;
      Some (<[p2 s := moveBy offsetX offsetY b']> h1)
    else Some h.

Definition resolveAt (sts : list Stick) (i : nat) h : option Heap :=
  s ← sts !! i; resolveStick s h.

Definition relax (sts : list Stick) h : option Heap :=
  h' ← forUp 0 (length sts) (resolveAt sts) h;
  forDown (length sts) (resolveAt sts) h'.

Definition constrain (sys : RopeSystem) h : option Heap :=
  repeatM (iterations sys) (relax (sticks sys)) h.

Definition updatePhysics (sys : RopeSystem) (width height bulbRadius : num) h
  : option Heap :=
  h' ← integrate sys width height bulbRadius h;
  constrain sys h'.

End Physics.

(** ** The interaction controller ([BulbScene]) *)

Record Drag := mkDrag {
  isDragging : bool;
  pointIndex : option nat;      (* [number | null] *)
}.

(** The refs of the component that the physics reads and writes:
    [ropeRef], [dragRef], [mouseRef], [mountRef], and the store holding
    the rope's point objects. *)
Record Scene `{JSNumber} := mkScene {
  heap : Heap;
  rope : option RopeSystem;
  drag : Drag;
  mouse : Coordinates;
  mount : option Coordinates;
}.

Definition INITIAL_SEGMENT_COUNT : nat := 40.

Section Controller.
Context {N : JSNumber}.
Local Open Scope num_scope.

Implicit Types (h : Heap) (p q : Point) (l : loc) (sc : Scene).

Definition BULB_RADIUS : num := lit 30.
(** The three distance thresholds are literals in the component. *)
Definition SNAG_THRESHOLD : num := lit 25.
Definition SECURE_THRESHOLD : num := lit 40.
Definition GRAB_RADIUS : num := lit 60.

Definition idle : Drag := {| isDragging := false; pointIndex := None |}.

Definition withHeap sc h : Scene :=
  {| heap := h; rope := rope sc; drag := drag sc;
     mouse := mouse sc; mount := mount sc |}.

(** *** Initialize Physics *)

Definition setOldx (v : num) p : Point :=
  {| x := x p; y := y p; oldx := v; oldy := oldy p; pinned := pinned p |}.

(** Initial swing impulse on the last point. *)
Definition swing (sys : RopeSystem) h : option Heap :=
  if Nat.ltb 0 (length (points sys)) then
    l ← points sys !! (length (points sys) - 1)%nat;
    lastPoint ← h !! l;
    Some (<[l := setOldx (x lastPoint - lit 50) lastPoint]> h)
  else Some h.

Definition initPhysics (width height : num) sc : option Scene :=
  let startX := width * lit 0.7 in
  let startY := lit 0 in
  let targetLength := height * lit 0.6 in
  let segmentLen := targetLength / of_nat INITIAL_SEGMENT_COUNT in
  let '(h, sys) := createRope (heap sc) startX startY INITIAL_SEGMENT_COUNT
                              segmentLen in
  h' ← swing sys h;
  Some {| heap := h'; rope := Some sys; drag := drag sc;
          mouse := mouse sc; mount := mount sc |}.

(** *** render, step 1: rope-peg collision (snagging) *)

Definition snagged (snagX snagY : num) : Point :=
  {| x := snagX; y := snagY; oldx := snagX; oldy := snagY; pinned := true |}.

Definition snagAt (pts : list loc) (snagX snagY : num) (i : nat) h
  : option Heap :=
  l ← pts !! i;
  p ← h !! l;
  if pinned p then Some h
  else
    let dist := hypot (x p - snagX) (y p - snagY) in
    if dist <? SNAG_THRESHOLD then Some (<[l := snagged snagX snagY]> h)
    else Some h.

Definition snagPoints (pts : list loc) (snagX snagY : num) h : option Heap :=
  forUp 0 (length pts - 1)%nat (snagAt pts snagX snagY) h.

Definition snag sc : option Scene :=
  match rope sc, mount sc with
  | Some sys, Some mnt =>
      if isDragging (drag sc) then
        h' ← snagPoints (points sys) (cx mnt) (cy mnt) (heap sc);
        Some (withHeap sc h')
      else Some sc
  | _, _ => Some sc
  end.

(** *** render, step 2: winch *)

(** [for (i = k - 1; i >= 0; i--) if (points[i].pinned) { anchorIndex = i; break; }]
    with [anchorIndex] initially 0. *)
Fixpoint lastPinnedBelow (pts : list loc) h (k : nat) : option nat :=
  match k with
  | O => Some O
  | S i =>
      l ← pts !! i;
      p ← h !! l;
      if pinned p then Some i else lastPinnedBelow pts h i
  end.

Definition findAnchor (pts : list loc) h : option nat :=
  lastPinnedBelow pts h (length pts - 1)%nat.

Definition setLength (v : num) (s : Stick) : Stick :=
  {| p1 := p1 s; p2 := p2 s; stick_length := v |}.

(** [for (i = anchorIndex; i < sticks.length; i++) sticks[i].length = v] *)
Definition setLengthFrom (anchorIndex : nat) (v : num) (sts : list Stick)
  : list Stick :=
  take anchorIndex sts ++ (setLength v <$> drop anchorIndex sts).

Definition winchAt (pts : list loc) (anchor : loc) (dx dy : num)
    (anchorIndex activeSegments dragIndex : nat) (i : nat) h : option Heap :=
  let pointIndex := (anchorIndex + i)%nat in
  l ← pts !! pointIndex;
  p ← h !! l;
  a ← h !! anchor;
  let t := of_nat i / of_nat activeSegments in
  let targetX := x a + dx * t in
  let targetY := y a + dy * t in
  Some (<[l := {| x := targetX; y := targetY;
                  oldx := targetX; oldy := targetY;
                  pinned := if Nat.eqb pointIndex dragIndex then true
                            else pinned p |}]> h).

Definition winchRope (sys : RopeSystem) (mouse : Coordinates)
    (dragIndex : nat) h : option (Heap * RopeSystem) :=
  let pts := points sys in
  anchorIndex ← findAnchor pts h;
  anchor ← pts !! anchorIndex;
  a ← h !! anchor;
  let dx := cx mouse - x a in
  let dy := cy mouse - y a in
  let distToAnchor := nsqrt (dx * dx + dy * dy) in
  let activeSegments := ((length pts - 1) - anchorIndex)%nat in
  if Nat.ltb 0 activeSegments then
    let newSegmentLength := distToAnchor / of_nat activeSegments in
    let sts := setLengthFrom anchorIndex newSegmentLength (sticks sys) in
    h' ← forUp 1 activeSegments
               (winchAt pts anchor dx dy anchorIndex activeSegments dragIndex)
               h;
    Some (h', {| points := pts; sticks := sts;
                 iterations := iterations sys |})
  else Some (h, sys).

Definition winch sc : option Scene :=
  match rope sc, pointIndex (drag sc) with
  | Some sys, Some dragIndex =>
      if isDragging (drag sc) then
        '(h', sys') ← winchRope sys (mouse sc) dragIndex (heap sc);
        Some {| heap := h'; rope := Some sys'; drag := drag sc;
                mouse := mouse sc; mount := mount sc |}
      else Some sc
  | _, _ => Some sc
  end.

(** *** render: the physics update of one animation frame *)

Definition physics (width height bulbRadius : num) sc : option Scene :=
  match rope sc with
  | Some sys =>
      h' ← updatePhysics sys width height bulbRadius (heap sc);
      Some (withHeap sc h')
  | None => Some sc
  end.

Definition render (width height : num) sc : option Scene :=
  match rope sc with
  | None => Some sc
  | Some _ =>
      sc1 ← snag sc;
      sc2 ← winch sc1;
      sc3 ← physics width height BULB_RADIUS sc2;
      (* [lastPoint.pinned] is read after the update *)
      sys ← rope sc3;
      l ← points sys !! (length (points sys) - 1)%nat;
      _ ← heap sc3 !! l;
      Some sc3
  end.

(** *** Input handlers *)

Definition setPinned (b : bool) p : Point :=
  {| x := x p; y := y p; oldx := oldx p; oldy := oldy p; pinned := b |}.

Definition secure (snagX snagY : num) p : Point :=
  {| x := snagX; y := snagY; oldx := oldx p; oldy := oldy p; pinned := true |}.

Definition handlePointerDown (px py : num) (isHammerMode : bool) sc
  : option Scene :=
  match rope sc with
  | None => Some sc
  | Some sys =>
      let m := {| cx := px; cy := py |} in
      if isHammerMode then
        Some {| heap := heap sc; rope := rope sc; drag := drag sc;
                mouse := m; mount := Some m |}
      else
        l ← points sys !! (length (points sys) - 1)%nat;
        endPoint ← heap sc !! l;
        let dist := hypot (px - x endPoint) (py - y endPoint) in
        if dist <? GRAB_RADIUS then
          Some {| heap := <[l := setPinned true endPoint]> (heap sc);
                  rope := rope sc;
                  drag := {| isDragging := true;
                             pointIndex :=
                               Some (length (points sys) - 1)%nat |};
                  mouse := m; mount := mount sc |}
        else
          Some {| heap := heap sc; rope := rope sc; drag := drag sc;
                  mouse := m; mount := mount sc |}
  end.

Definition handlePointerMove (px py : num) sc : Scene :=
  {| heap := heap sc; rope := rope sc; drag := drag sc;
     mouse := {| cx := px; cy := py |}; mount := mount sc |}.

(** What [handlePointerUp] does to the end point. *)
Definition release (mnt : option Coordinates) (lastPt : Point) : Point :=
  match mnt with
  | Some m =>
      let dist := hypot (x lastPt - cx m) (y lastPt - cy m) in
      if dist <? SECURE_THRESHOLD then secure (cx m) (cy m) lastPt
      else setPinned false lastPt
  | None => setPinned false lastPt
  end.

Definition handlePointerUp sc : option Scene :=
  h' ← (match rope sc, pointIndex (drag sc) with
        | Some sys, Some _ =>
            if isDragging (drag sc) then
              l ← points sys !! (length (points sys) - 1)%nat;
              lastPt ← heap sc !! l;
              Some (<[l := release (mount sc) lastPt]> (heap sc))
            else Some (heap sc)
        | _, _ => Some (heap sc)
        end);
  Some {| heap := h'; rope := rope sc; drag := idle;
          mouse := mouse sc; mount := mount sc |}.

(** *** Events and reachable scenes *)

Inductive Event :=
  | Frame (width height : num)                   (* one [render] *)
  | PointerDown (px py : num) (isHammerMode : bool)
  | PointerMove (px py : num)
  | PointerUp
  | Swing                                         (* the initial impulse alone *)
  | SnagOnly                                      (* the phases of [render] alone *)
  | WinchOnly
  | PhysicsOnly (width height bulbRadius : num).

Definition step (e : Event) sc : option Scene :=
  match e with
  | Frame w ht => render w ht sc
  | PointerDown px py hm => handlePointerDown px py hm sc
  | PointerMove px py => Some (handlePointerMove px py sc)
  | PointerUp => handlePointerUp sc
  | Swing =>
      match rope sc with
      | Some sys => h' ← swing sys (heap sc); Some (withHeap sc h')
      | None => Some sc
      end
  | SnagOnly => snag sc
  | WinchOnly => winch sc
  | PhysicsOnly w ht r => physics w ht r sc
  end.

Fixpoint run (es : list Event) sc : option Scene :=
  match es with
  | [] => Some sc
  | e :: es' => sc' ← step e sc; run es' sc'
  end.

(** A scene right after [ropeRef.current = createRope(...)]: nothing is
    dragged, no peg is mounted. *)
Definition newScene h (startX startY : num) (segments : nat)
    (segmentLength : num) (m : Coordinates) : Scene :=
  let '(h', sys) := createRope h startX startY segments segmentLength in
  {| heap := h'; rope := Some sys; drag := idle; mouse := m; mount := None |}.

(** The refs of a freshly mounted component: [ropeRef] and [mountRef] are
    [null], nothing is dragged, the pointer is at the origin. *)
Definition initialRefs : Scene :=
  {| heap := []; rope := None; drag := idle;
     mouse := {| cx := lit 0; cy := lit 0 |}; mount := None |}.

End Controller.

(** ** The rest of the component: click handler, tied-loop visual, hammer mode *)

Section Component.
Context {N : JSNumber}.
Local Open Scope num_scope.

Implicit Types (h : Heap) (p q : Point) (l : loc) (sc : Scene).

(** [handleCanvasClick]: the value of [isBulbOn] after a click at
    [(px, py)]. *)
Definition handleCanvasClick (px py : num) (isHammerMode : bool) sc
    (isBulbOn : bool) : option bool :=
  if isHammerMode then Some isBulbOn
  else
    match rope sc with
    | None => Some isBulbOn
    | Some sys =>
        l ← points sys !! (length (points sys) - 1)%nat;
        endPoint ← heap sc !! l;
        let dist := hypot (px - x endPoint) (py - y endPoint) in
        if dist <? lit 60 then Some (negb isBulbOn) else Some isBulbOn
    end.

(** [points.some(f)], reading each point object from the store. *)
Fixpoint somePoint (f : Point → bool) (pts : list loc) h : option bool :=
  match pts with
  | [] => Some false
  | l :: rest =>
      p ← h !! l;
      if f p then Some true else somePoint f rest h
  end.

(** The test of step 4 of [render] on one point; [nabs] is [Math.abs]. *)
Definition atPeg (nabs : num → num) (snagX snagY : num) p : bool :=
  pinned p && (nabs (x p - snagX) <? lit 1) && (nabs (y p - snagY) <? lit 1).

(** Whether [render] draws the tied loop on the peg: [isSnagged], and
    [false] when no peg is mounted. *)
Definition isSnagged (nabs : num → num) sc : option bool :=
  match rope sc, mount sc with
  | Some sys, Some mnt =>
      somePoint (atPeg nabs (cx mnt) (cy mnt)) (points sys) (heap sc)
  | _, _ => Some false
  end.

(** [App]: [toggleHammer], passed to the scene as [onToggleHammer]. *)
Definition toggleHammer (prev : bool) : bool := negb prev.

(** A pointer-down seen from [App]: the handler of the scene, and the
    hammer mode after it ([onToggleHammer] is called when a peg is
    placed). *)
Definition appPointerDown (px py : num) (app : bool * Scene)
  : option (bool * Scene) :=
  let '(isHammerMode, sc) := app in
  sc' ← handlePointerDown px py isHammerMode sc;
  Some (match rope sc with
        | Some _ => if isHammerMode then toggleHammer isHammerMode
                    else isHammerMode
        | None => isHammerMode
        end, sc').

End Component.

(** ** The two number models *)

Definition float_of_Z (z : Z) : float :=
  match z with
  | Z0 => 0%float
  | Zpos n => PrimFloat.of_uint63 (Uint63.of_pos n)
  | Zneg n => PrimFloat.opp (PrimFloat.of_uint63 (Uint63.of_pos n))
  end.

(** [Math.hypot] is implementation-approximated in ECMAScript.  This is
    the function as the V8 engine computes it, for two arguments: the
    largest absolute value [max] is found, skipping [NaN]; an infinite
    argument gives [Infinity], else a [NaN] argument gives [NaN], else
    [max = 0] gives [0]; otherwise the squares of [|v| / max] are added
    with Kahan summation and the result is [sqrt sum * max].  It differs
    from [sqrt (a * a + b * b)] in the last bits. *)
Definition hypotMax (absValues : list float) : float :=
  fold_left (fun max absValue =>
               if PrimFloat.ltb max absValue then absValue else max)
            absValues 0%float.

Definition kahanStep (max : float) (acc : float * float) (absValue : float)
  : float * float :=
  let '(sum, compensation) := acc in
  let n := PrimFloat.div absValue max in
  let summand := PrimFloat.sub (PrimFloat.mul n n) compensation in
  let preliminary := PrimFloat.add sum summand in
  (preliminary, PrimFloat.sub (PrimFloat.sub preliminary sum) summand).

Definition mathHypot (a b : float) : float :=
  let absValues := [PrimFloat.abs a; PrimFloat.abs b] in
  let oneArgIsNaN := PrimFloat.is_nan a || PrimFloat.is_nan b in
  let max := hypotMax absValues in
  if PrimFloat.eqb max PrimFloat.infinity then PrimFloat.infinity
  else if oneArgIsNaN then PrimFloat.nan
  else if PrimFloat.eqb max 0%float then 0%float
  else
    PrimFloat.mul
      (PrimFloat.sqrt (fold_left (kahanStep max) absValues
                                 (0%float, 0%float)).1)
      max.

(** IEEE 754 binary64 with round-to-nearest-even, as in ECMAScript.  A
    decimal literal [n/d] is the correctly rounded quotient of two exactly
    represented integers, which is the double the literal denotes.  The
    general theorems below hold for every [hypot]; [mathHypot] is used
    where a scenario is run. *)
Definition FloatNumber : JSNumber := {|
  num := float;
  nadd := PrimFloat.add;
  nsub := PrimFloat.sub;
  nmul := PrimFloat.mul;
  ndiv := PrimFloat.div;
  nsqrt := PrimFloat.sqrt;
  hypot := mathHypot;
  nlt := PrimFloat.ltb;
  neq := PrimFloat.eqb;
  lit := fun q =>
    PrimFloat.div (float_of_Z (Qnum q)) (float_of_Z (Zpos (Qden q)));
|}.

Definition Rltb (a b : R) : bool := if Rlt_dec a b then true else false.
Definition Reqb (a b : R) : bool := if Req_dec_T a b then true else false.

(** Exact real arithmetic. *)
Definition RealNumber : JSNumber := {|
  num := R;
  nadd := Rplus;
  nsub := Rminus;
  nmul := Rmult;
  ndiv := Rdiv;
  nsqrt := R_sqrt.sqrt;
  hypot := fun a b => R_sqrt.sqrt (a * a + b * b)%R;
  nlt := Rltb;
  neq := Reqb;
  lit := Q2R;
|}.

(** The laws of exact arithmetic that the program's comments rely on:
    the numbers form a commutative ring. *)
Definition ExactArith (N : JSNumber) : Prop :=
  ring_theory (R := num) (lit 0) (lit 1) nadd nmul nsub
              (fun a => nsub (lit 0) a) eq.

(** * Specification vocabulary *)

Section StoreRelations.
Context {N : JSNumber}.
Implicit Types (h g : Heap) (p q : Point) (s : Stick) (l : loc)
               (pts : list loc).

(** [g] has the objects of [h], and every pinned object of [h] is
    unchanged in [g]. *)
Definition pins_kept h g : Prop :=
  length g = length h ∧
  ∀ l p, h !! l = Some p → pinned p = true → g !! l = Some p.

Definition wf_points h (pts : list loc) : Prop :=
  ∀ i l, pts !! i = Some l → l < length h.

Definition wf_sticks h (sts : list Stick) : Prop :=
  ∀ i s, sts !! i = Some s → p1 s < length h ∧ p2 s < length h.

(** Every reference held by the rope is a live object. *)
Definition wf_sys h (sys : RopeSystem) : Prop :=
  wf_points h (points sys) ∧ wf_sticks h (sticks sys).

(** [p = points[off + i]; p := F(i, p)] *)
Definition updAt pts (off : nat) (F : nat → Point → Point) (i : nat) h
  : option Heap :=
  l ← pts !! (off + i);
  p ← h !! l;
  Some (<[l := F i p]> h).

Definition integrateF (n : nat) (width height bulbRadius : num)
    (i : nat) p : Point :=
  if pinned p then p
  else movePoint width height (radiusAt bulbRadius n i) p.

Definition snagF (snagX snagY : num) (i : nat) p : Point :=
  if pinned p then p
  else if nlt (hypot (nsub (x p) snagX) (nsub (y p) snagY)) SNAG_THRESHOLD
       then snagged snagX snagY
       else p.

End StoreRelations.

Section RopeShape.
Context {N : JSNumber}.
Local Open Scope num_scope.
Implicit Types (h g : Heap) (p q a : Point) (l : loc) (pts : list loc)
               (sc : Scene) (sys : RopeSystem).

(** [points[i]] exists and its [pinned] flag is [b]. *)
Definition pinnedAt pts h (i : nat) (b : bool) : Prop :=
  ∃ l p, pts !! i = Some l ∧ h !! l = Some p ∧ pinned p = b.

(** [ai] is the index of the last pinned point among indices
    [0 .. length - 2], or 0 when there is none. *)
Definition isAnchor pts h (ai : nat) : Prop :=
  ((ai + 2 ≤ length pts)%nat ∧ pinnedAt pts h ai true ∧
   ∀ j, (ai < j)%nat → (j + 2 ≤ length pts)%nat → pinnedAt pts h j false)
  ∨ (ai = O ∧ ∀ j, (j + 2 ≤ length pts)%nat → pinnedAt pts h j false).

(** The object that [winchAt] writes at step [i], [a] being the anchor. *)
Definition winchF a (dx dy : num) (anchorIndex activeSegments dragIndex : nat)
    (i : nat) p : Point :=
  let t := of_nat i / of_nat activeSegments in
  {| x := x a + dx * t;
     y := y a + dy * t;
     oldx := x a + dx * t;
     oldy := y a + dy * t;
     pinned := if Nat.eqb (anchorIndex + i) dragIndex then true
               else pinned p |}.

(** The structural invariant of the data model: stick [i] joins the
    objects [points[i]] and [points[i + 1]]. *)
Definition chain sys : Prop :=
  length (sticks sys) = (length (points sys) - 1)%nat ∧
  ∀ i st, sticks sys !! i = Some st →
          points sys !! i = Some (p1 st) ∧
          points sys !! (i + 1)%nat = Some (p2 st).

Definition endpoints (st : Stick) : loc * loc := (p1 st, p2 st).

(** [g] has the objects of [h], and a pinned object is still pinned. *)
Definition pins_stay h g : Prop :=
  length g = length h ∧
  ∀ l p, h !! l = Some p → pinned p = true →
         ∃ q, g !! l = Some q ∧ pinned q = true.

(** The invariant of a scene whose rope was created with [n] segments at
    address [base] of the store. *)
Record SceneInv (base n : nat) sc : Prop := {
  inv_rope : ∃ sys, rope sc = Some sys ∧ points sys = seq base n ∧
                    chain sys ∧ iterations sys = 600%nat;
  inv_heap : length (heap sc) = (base + n)%nat;
  inv_drag : isDragging (drag sc) = true →
             pointIndex (drag sc) = Some (n - 1)%nat ∧
             pinnedAt (seq base n) (heap sc) (n - 1) true;
}.

End RopeShape.

(** A scene of the running component: some rope was created with at
    least one segment, and events were handled since. *)
Definition reachable `{JSNumber} (sc : Scene) : Prop :=
  ∃ h startX startY n segmentLength m es,
    1 ≤ n ∧
    run es (newScene h startX startY n segmentLength m) = Some sc.

(** [v] lies strictly within [eps] of [target]. *)
Definition within `{JSNumber} (eps target v : num) : bool :=
  nlt (nsub target eps) v && nlt v (nadd target eps).

(** The current distance between the endpoints of each stick. *)
Definition stickDistances `{JSNumber} (sys : RopeSystem) (h : Heap)
  : list (option num) :=
  (fun st => a ← h !! p1 st; b ← h !! p2 st; Some (distance a b))
    <$> sticks sys.

Definition relaxed `{JSNumber} (eps target : num) (sys : RopeSystem)
    (h : Heap) : bool :=
  forallb (fun od => match od with
                     | Some d => within eps target d
                     | None => false
                     end)
          (stickDistances sys h).

(** The rope of the end-to-end scenario, [createRope(0, 0, 4, 10)], in
    binary64 arithmetic and an empty store. *)
Definition demoRope : list (@Point FloatNumber) * @RopeSystem FloatNumber :=
  createRope (N := FloatNumber) [] (lit 0) (lit 0) 4 (lit 10).

(** A rope of five points hanging from [(700, 0)] in binary64
    arithmetic, a peg hammered in at [(700, 15)], and the end point
    grabbed at [(700, 45)]. *)
Definition demoScene : @Scene FloatNumber :=
  newScene (N := FloatNumber) [] (lit 700) (lit 0) 5 (lit 10)
           {| cx := lit 0; cy := lit 0 |}.

Definition demoGrab : list (@Event FloatNumber) :=
  [ PointerDown (lit 700) (lit 15) true;
    PointerDown (lit 700) (lit 45) false ].

Definition demoDrag : list (@Event FloatNumber) :=
  demoGrab ++ [ PointerMove (lit 720) (lit 30); Frame (lit 1000) (lit 600) ].

(** The scene after the events [es], or the initial scene if a handler
    threw. *)
Definition demoAfter (es : list (@Event FloatNumber)) : @Scene FloatNumber :=
  default demoScene (run es demoScene).

(** Relations between a store and a later store, object by object. *)
Section StoreFrames.
Context {N : JSNumber}.
Implicit Types (h g : Heap) (p q : Point) (l : loc).

(** [g] has the objects of [h], each related by [R] to what it was. *)
Definition keeps (R : Point → Point → Prop) h g : Prop :=
  length g = length h ∧
  ∀ l p, h !! l = Some p → ∃ q, g !! l = Some q ∧ R p q.

(** Same previous position and same pin flag. *)
Definition same_old p q : Prop :=
  oldx q = oldx p ∧ oldy q = oldy p ∧ pinned q = pinned p.

Definition same_pinned p q : Prop := pinned q = pinned p.

(** Events that neither press nor release the pointer. *)
Definition passive (e : Event) : bool :=
  match e with
  | Frame _ _ | PointerMove _ _ | SnagOnly | WinchOnly
  | PhysicsOnly _ _ _ => true
  | _ => false
  end.

(** The pointer-downs in hammer mode. *)
Definition placesPeg (e : Event) : bool :=
  match e with
  | PointerDown _ _ true => true
  | _ => false
  end.

End StoreFrames.

(** * Properties *)

(** ** Loop rules *)

Section LoopRules.
Context {N : JSNumber}.
Implicit Types (h : Heap) (I : Heap → Prop).

Lemma forUp_inv I body count : ∀ start h,
  I h →
  (∀ i g, start ≤ i < start + count → I g → ∃ g', body i g = Some g' ∧ I g') →
  ∃ h', forUp start count body h = Some h' ∧ I h'.
Proof.
  induction count as [|c IH]; intros start h Hh Hbody; simpl.
  - eauto.
  - destruct (Hbody start h) as (g & -> & Hg); [lia | done |]. simpl.
    apply IH; [done |]. intros i g' Hi. apply Hbody. lia.
Qed.

Lemma forDown_inv I body count : ∀ h,
  I h →
  (∀ i g, i < count → I g → ∃ g', body i g = Some g' ∧ I g') →
  ∃ h', forDown count body h = Some h' ∧ I h'.
Proof.
  induction count as [|c IH]; intros h Hh Hbody; simpl.
  - eauto.
  - destruct (Hbody c h) as (g & -> & Hg); [lia | done |]. simpl.
    apply IH; [done |]. intros i g' Hi. apply Hbody. lia.
Qed.

Lemma repeatM_inv I body count : ∀ h,
  I h →
  (∀ g, I g → ∃ g', body g = Some g' ∧ I g') →
  ∃ h', repeatM count body h = Some h' ∧ I h'.
Proof.
  induction count as [|c IH]; intros h Hh Hbody; simpl.
  - eauto.
  - destruct (Hbody h) as (g & -> & Hg); [done |]. simpl. by apply IH.
Qed.

End LoopRules.

(** ** Pinned points are never written by the physics *)

Section Frame.
Context {N : JSNumber}.
Implicit Types (h g : Heap) (p q : Point) (s : Stick) (l : loc).

Lemma pins_kept_refl h : pins_kept h h.
Proof. by split. Qed.

Lemma pins_kept_trans h1 h2 h3 :
  pins_kept h1 h2 → pins_kept h2 h3 → pins_kept h1 h3.
Proof.
  intros [L12 K12] [L23 K23]. split; [congruence |]. eauto.
Qed.

(** Overwriting an unpinned object keeps the pinned ones. *)
Lemma pins_kept_insert h l p q :
  h !! l = Some p → pinned p = false → pins_kept h (<[l := q]> h).
Proof.
  intros Hl Hp. split; [apply length_insert |].
  intros l' p' Hl' Hp'. destruct (decide (l = l')) as [<- | Hne].
  - congruence.
  - by rewrite list_lookup_insert_ne.
Qed.

Lemma integrateAt_kept pts width height bulbRadius i h :
  wf_points h pts → i < length pts →
  ∃ g, integrateAt pts width height bulbRadius i h = Some g ∧ pins_kept h g.
Proof.
  intros Hwf Hi. unfold integrateAt.
  destruct (lookup_lt_is_Some_2 pts i Hi) as [l Hl]. rewrite Hl. simpl.
  destruct (lookup_lt_is_Some_2 h l (Hwf _ _ Hl)) as [p Hp]. rewrite Hp. simpl.
  destruct (pinned p) eqn:Hpin.
  - eexists; split; [done | apply pins_kept_refl].
  - eexists; split; [done | by eapply pins_kept_insert].
Qed.

Lemma moveBack_pinned ddx ddy p : pinned (moveBack ddx ddy p) = pinned p.
Proof. done. Qed.

Lemma moveBy_pinned ddx ddy p : pinned (moveBy ddx ddy p) = pinned p.
Proof. done. Qed.

Lemma resolveStick_kept s h :
  p1 s < length h → p2 s < length h →
  ∃ g, resolveStick s h = Some g ∧ pins_kept h g.
Proof.
  intros H1 H2. unfold resolveStick.
  destruct (lookup_lt_is_Some_2 h _ H1) as [a Ha]. rewrite Ha. simpl.
  destruct (lookup_lt_is_Some_2 h _ H2) as [b Hb]. rewrite Hb. simpl.
  destruct (neq _ _); [eexists; split; [done | apply pins_kept_refl] |].
  destruct (pinned a) eqn:Pa, (pinned b) eqn:Pb; simpl.
  - eexists; split; [done | apply pins_kept_refl].
  - eexists; split; [done | by eapply pins_kept_insert].
  - eexists; split; [done | by eapply pins_kept_insert].
  - set (h1 := <[p1 s := _]> h).
    assert (K1 : pins_kept h h1) by by eapply pins_kept_insert.
    assert (H2' : p2 s < length h1) by (destruct K1 as [-> _]; done).
    destruct (lookup_lt_is_Some_2 h1 _ H2') as [b' Hb']. rewrite Hb'. simpl.
    eexists; split; [done |].
    eapply pins_kept_trans; [exact K1 |].
    eapply pins_kept_insert; [exact Hb' |].
    subst h1. destruct (decide (p1 s = p2 s)) as [E | E].
    + rewrite <- E in Hb'.
      rewrite list_lookup_insert_eq in Hb' by done.
      injection Hb' as <-. by rewrite moveBack_pinned.
    + rewrite list_lookup_insert_ne in Hb' by done. congruence.
Qed.

Lemma wf_sticks_length h g sts :
  length g = length h → wf_sticks h sts → wf_sticks g sts.
Proof. intros E Hwf i s Hs. rewrite E. eauto. Qed.

Lemma wf_points_length h g pts :
  length g = length h → wf_points h pts → wf_points g pts.
Proof. intros E Hwf i l Hl. rewrite E. eauto. Qed.

Lemma resolveAt_kept sts h0 i h :
  wf_sticks h0 sts → i < length sts → pins_kept h0 h →
  ∃ g, resolveAt sts i h = Some g ∧ pins_kept h0 g.
Proof.
  intros Hwf Hi K. unfold resolveAt.
  destruct (lookup_lt_is_Some_2 sts i Hi) as [s Hs]. rewrite Hs. simpl.
  destruct (Hwf _ _ Hs) as [H1 H2]. destruct K as [L K].
  destruct (resolveStick_kept s h) as (g & -> & Kg); [lia | lia |].
  eexists; split; [done |]. by eapply pins_kept_trans.
Qed.

Lemma relax_kept sts h0 h :
  wf_sticks h0 sts → pins_kept h0 h →
  ∃ g, relax sts h = Some g ∧ pins_kept h0 g.
Proof.
  intros Hwf K. unfold relax.
  destruct (forUp_inv (pins_kept h0) (resolveAt sts) (length sts) 0 h)
    as (h1 & -> & K1); [done | |].
  { intros i g Hi Kg. apply resolveAt_kept; [done | lia | done]. }
  simpl. apply forDown_inv; [done |].
  intros i g Hi Kg. by apply resolveAt_kept.
Qed.

Lemma constrain_kept sys h0 h :
  wf_sticks h0 (sticks sys) → pins_kept h0 h →
  ∃ g, constrain sys h = Some g ∧ pins_kept h0 g.
Proof.
  intros Hwf K. unfold constrain. apply repeatM_inv; [done |].
  intros g Kg. by apply relax_kept.
Qed.

Lemma integrate_kept sys width height bulbRadius h :
  wf_points h (points sys) →
  ∃ g, integrate sys width height bulbRadius h = Some g ∧ pins_kept h g.
Proof.
  intros Hwf. unfold integrate. apply forUp_inv; [apply pins_kept_refl |].
  intros i g Hi Kg.
  destruct (integrateAt_kept (points sys) width height bulbRadius i g)
    as (g' & -> & Kg').
  - eapply wf_points_length; [apply Kg | done].
  - lia.
  - eexists; split; [done |]. by eapply pins_kept_trans.
Qed.

Lemma updatePhysics_kept sys width height bulbRadius h :
  wf_sys h sys →
  ∃ g, updatePhysics sys width height bulbRadius h = Some g ∧ pins_kept h g.
Proof.
  intros [Hp Hs]. unfold updatePhysics.
  destruct (integrate_kept sys width height bulbRadius h Hp) as (h1 & -> & K1).
  simpl. by apply constrain_kept.
Qed.

End Frame.

(** ** Loops that rewrite one point per index *)

Section Pointwise.
Context {N : JSNumber}.
Implicit Types (h g : Heap) (p q : Point) (l : loc) (pts : list loc).

Lemma updAt_eq pts off F i h l p :
  pts !! (off + i) = Some l → h !! l = Some p →
  updAt pts off F i h = Some (<[l := F i p]> h).
Proof. intros Hl Hp. unfold updAt. rewrite Hl. simpl. by rewrite Hp. Qed.

Lemma forUp_ext_inv (J : Heap → Prop) body body' count : ∀ start h,
  J h →
  (∀ i g, start ≤ i < start + count → J g →
     body i g = body' i g ∧ ∀ g', body' i g = Some g' → J g') →
  forUp start count body h = forUp start count body' h.
Proof.
  induction count as [|c IH]; intros start h Hh Hb; simpl; [done |].
  destruct (Hb start h) as [-> Hj]; [lia | done |].
  destruct (body' start h) as [g|] eqn:E; simpl; [| done].
  apply IH; [by apply Hj |]. intros i g' Hi. apply Hb. lia.
Qed.

Lemma forUp_ext body body' count start h :
  (∀ i g, body i g = body' i g) →
  forUp start count body h = forUp start count body' h.
Proof.
  intros E. apply (forUp_ext_inv (fun _ => True)); [done |].
  intros i g _ _. split; [apply E | done].
Qed.

Lemma forUp_updAt pts off F count : ∀ start h,
  NoDup pts → wf_points h pts → off + (start + count) ≤ length pts →
  ∃ g, forUp start count (updAt pts off F) h = Some g ∧
       length g = length h ∧
       (∀ i l p, start ≤ i < start + count → pts !! (off + i) = Some l →
                 h !! l = Some p → g !! l = Some (F i p)) ∧
       (∀ l, (∀ i, start ≤ i < start + count → pts !! (off + i) ≠ Some l) →
             g !! l = h !! l).
Proof.
  induction count as [|c IH]; intros start h Hnd Hwf Hle; simpl.
  - exists h. split; [done |]. split; [done |]. split; [intros; lia | done].
  - assert (Hs : off + start < length pts) by lia.
    destruct (lookup_lt_is_Some_2 pts _ Hs) as [l0 Hl0].
    destruct (lookup_lt_is_Some_2 h l0 (Hwf _ _ Hl0)) as [p0 Hp0].
    rewrite (updAt_eq _ _ _ _ _ _ _ Hl0 Hp0). simpl.
    set (h1 := <[l0 := F start p0]> h).
    assert (L1 : length h1 = length h) by apply length_insert.
    destruct (IH (S start) h1) as (g & -> & Lg & Hin & Hout);
      [done | by eapply wf_points_length | lia |].
    exists g. split; [done |]. split; [congruence |]. split.
    + intros i l p Hi Hl Hp.
      destruct (decide (i = start)) as [-> | Hne].
      * assert (l = l0) as -> by congruence.
        assert (p = p0) as -> by congruence.
        rewrite Hout.
        -- subst h1. apply list_lookup_insert_eq. by eapply lookup_lt_Some.
        -- intros j Hj Hlj.
           pose proof (NoDup_lookup _ _ _ _ Hnd Hlj Hl0). lia.
      * apply Hin; [lia | done |]. subst h1.
        rewrite list_lookup_insert_ne; [done |].
        intros ->. pose proof (NoDup_lookup _ _ _ _ Hnd Hl Hl0). lia.
    + intros l Hl. rewrite Hout.
      * subst h1. apply list_lookup_insert_ne.
        intros ->. by apply (Hl start); [lia |].
      * intros i Hi. apply Hl. lia.
Qed.

Lemma integrateAt_updAt pts width height bulbRadius i h :
  integrateAt pts width height bulbRadius i h
  = updAt pts 0 (integrateF (length pts) width height bulbRadius) i h.
Proof.
  unfold integrateAt, updAt, integrateF. simpl.
  destruct (pts !! i) as [l|]; simpl; [| done].
  destruct (h !! l) as [p|] eqn:Hp; simpl; [| done].
  destruct (pinned p); [| done]. by rewrite list_insert_id.
Qed.

Lemma snagAt_updAt pts snagX snagY i h :
  snagAt pts snagX snagY i h = updAt pts 0 (snagF snagX snagY) i h.
Proof.
  unfold snagAt, updAt, snagF. simpl.
  destruct (pts !! i) as [l|]; simpl; [| done].
  destruct (h !! l) as [p|] eqn:Hp; simpl; [| done].
  destruct (pinned p); [by rewrite list_insert_id |].
  destruct (nlt _ _); [done |]. by rewrite list_insert_id.
Qed.

(** What the integration loop leaves in an object of the rope. *)
Lemma integrate_lookup sys width height bulbRadius h i l p :
  NoDup (points sys) → wf_points h (points sys) →
  points sys !! i = Some l → h !! l = Some p →
  ∃ g, integrate sys width height bulbRadius h = Some g ∧
       g !! l = Some (integrateF (length (points sys)) width height
                                 bulbRadius i p).
Proof.
  intros Hnd Hwf Hl Hp. unfold integrate.
  rewrite (forUp_ext _ _ _ _ _ (integrateAt_updAt _ _ _ _)).
  destruct (forUp_updAt (points sys) 0
              (integrateF (length (points sys)) width height bulbRadius)
              (length (points sys)) 0 h) as (g & -> & _ & Hin & _);
    [done | done | simpl; lia |].
  exists g. split; [done |]. eapply Hin; [| done | done].
  apply lookup_lt_Some in Hl. lia.
Qed.

End Pointwise.

(** ** The winch *)

Section Winch.
Context {N : JSNumber}.
Local Open Scope num_scope.
Implicit Types (h g : Heap) (p q a : Point) (l : loc) (pts : list loc).

Lemma lastPinnedBelow_spec pts h k :
  wf_points h pts → (k ≤ length pts)%nat →
  ∃ ai, lastPinnedBelow pts h k = Some ai ∧
    (((ai < k)%nat ∧ pinnedAt pts h ai true ∧
      ∀ j, (ai < j < k)%nat → pinnedAt pts h j false)
     ∨ (ai = O ∧ ∀ j, (j < k)%nat → pinnedAt pts h j false)).
Proof.
  intros Hwf. induction k as [|k IH]; intros Hk; simpl.
  - exists O. split; [done |]. right. split; [done |]. intros; lia.
  - assert (Hlt : (k < length pts)%nat) by lia.
    destruct (lookup_lt_is_Some_2 pts k Hlt) as [l Hl]. rewrite Hl. simpl.
    destruct (lookup_lt_is_Some_2 h l (Hwf _ _ Hl)) as [p Hp]. rewrite Hp.
    simpl. destruct (pinned p) eqn:Hpin.
    + exists k. split; [done |]. left. split; [lia |].
      split; [by exists l, p |]. intros; lia.
    + destruct IH as (ai & -> & Hai); [lia |]. exists ai. split; [done |].
      assert (Hk' : pinnedAt pts h k false) by by exists l, p.
      destruct Hai as [(Hlt' & Hpa & Hbetween) | (-> & Hnone)].
      * left. split; [lia |]. split; [done |]. intros j Hj.
        destruct (decide (j = k)) as [-> | Hne]; [done |].
        apply Hbetween. lia.
      * right. split; [done |]. intros j Hj.
        destruct (decide (j = k)) as [-> | Hne]; [done |].
        apply Hnone. lia.
Qed.

Lemma findAnchor_spec pts h :
  wf_points h pts →
  ∃ ai, findAnchor pts h = Some ai ∧ isAnchor pts h ai ∧
        (ai ≤ length pts - 1)%nat.
Proof.
  intros Hwf. unfold findAnchor.
  destruct (lastPinnedBelow_spec pts h (length pts - 1) Hwf) as (ai & E & H);
    [lia |].
  exists ai. split; [done |].
  destruct H as [(Hlt & Hpa & Hb) | (-> & Hnone)].
  - split; [| lia]. left. split; [lia |]. split; [done |].
    intros j ? ?. apply Hb. lia.
  - split; [| lia]. right. split; [done |]. intros j ?. apply Hnone. lia.
Qed.

Lemma winchAt_updAt pts anchor a dx dy ai n k i h :
  h !! anchor = Some a →
  winchAt pts anchor dx dy ai n k i h
  = updAt pts ai (winchF a dx dy ai n k) i h.
Proof.
  intros Ha. unfold winchAt, updAt, winchF.
  destruct (pts !! (ai + i)%nat) as [l|]; simpl; [| done].
  destruct (h !! l) as [p|]; simpl; [| done]. by rewrite Ha.
Qed.

Lemma winchLoop_spec pts anchor a dx dy ai n k h :
  NoDup pts → wf_points h pts →
  pts !! ai = Some anchor → h !! anchor = Some a →
  (ai + n < length pts)%nat →
  ∃ g, forUp 1 n (winchAt pts anchor dx dy ai n k) h = Some g ∧
       length g = length h ∧
       (∀ i l p, (1 ≤ i ≤ n)%nat → pts !! (ai + i)%nat = Some l →
                 h !! l = Some p →
                 g !! l = Some (winchF a dx dy ai n k i p)) ∧
       (∀ l, (∀ i, (1 ≤ i ≤ n)%nat → pts !! (ai + i)%nat ≠ Some l) →
             g !! l = h !! l).
Proof.
  intros Hnd Hwf Hanchor Ha Hn.
  rewrite (forUp_ext_inv (fun g => g !! anchor = Some a)
             _ (updAt pts ai (winchF a dx dy ai n k))); [| done |].
  - destruct (forUp_updAt pts ai (winchF a dx dy ai n k) n 1 h)
      as (g & -> & Lg & Hin & Hout); [done | done | lia |].
    exists g. split; [done |]. split; [done |]. split.
    + intros i l p Hi. apply Hin. lia.
    + intros l Hl. apply Hout. intros i Hi. apply Hl. lia.
  - intros i g Hi Hg. split; [by apply winchAt_updAt |].
    intros g' Hg'. unfold updAt in Hg'.
    destruct (pts !! (ai + i)%nat) as [l|] eqn:Hl; simpl in Hg'; [| done].
    destruct (g !! l) as [p|]; simpl in Hg'; [| done].
    injection Hg' as <-. rewrite list_lookup_insert_ne; [done |].
    intros ->. pose proof (NoDup_lookup _ _ _ _ Hnd Hl Hanchor). lia.
Qed.

Lemma setLengthFrom_length ai v (sts : list Stick) :
  length (setLengthFrom ai v sts) = length sts.
Proof.
  unfold setLengthFrom.
  rewrite length_app, length_fmap, length_take, length_drop. lia.
Qed.

Lemma setLengthFrom_lookup ai v (sts : list Stick) i st :
  sts !! i = Some st →
  setLengthFrom ai v sts !! i
  = Some (if Nat.leb ai i then setLength v st else st).
Proof.
  intros Hi. unfold setLengthFrom.
  pose proof (lookup_lt_Some _ _ _ Hi) as Hlt.
  destruct (Nat.leb_spec ai i) as [Hle | Hgt].
  - rewrite lookup_app_r by (rewrite length_take; lia).
    rewrite length_take, list_lookup_fmap, lookup_drop.
    replace (ai + (i - ai `min` length sts))%nat with i by lia.
    by rewrite Hi.
  - rewrite lookup_app_l by (rewrite length_take; lia).
    by rewrite lookup_take_lt.
Qed.

End Winch.

(** ** Invariants of the scene *)

Section Invariants.
Context {N : JSNumber}.
Local Open Scope num_scope.
Implicit Types (h g : Heap) (p q a : Point) (l : loc) (pts : list loc)
               (sc : Scene) (sys : RopeSystem).

Lemma pins_stay_refl h : pins_stay h h.
Proof. split; [done |]. eauto. Qed.

Lemma pins_stay_trans h1 h2 h3 :
  pins_stay h1 h2 → pins_stay h2 h3 → pins_stay h1 h3.
Proof.
  intros [L12 K12] [L23 K23]. split; [congruence |].
  intros l p Hl Hp. destruct (K12 l p Hl Hp) as (q & Hq & Hqp). eauto.
Qed.

Lemma pins_kept_stay h g : pins_kept h g → pins_stay h g.
Proof. intros [L K]. split; [done |]. eauto. Qed.

(** Overwriting an object by one that is pinned if the old one was. *)
Lemma pins_stay_insert h l p q :
  h !! l = Some p → (pinned p = true → pinned q = true) →
  pins_stay h (<[l := q]> h).
Proof.
  intros Hl Hpq. split; [apply length_insert |].
  intros l' p' Hl' Hp'. destruct (decide (l = l')) as [<- | Hne].
  - exists q. split.
    + apply list_lookup_insert_eq. by eapply lookup_lt_Some.
    + apply Hpq. congruence.
  - exists p'. by rewrite list_lookup_insert_ne.
Qed.

Lemma forUp_inv_some (I : Heap → Prop) body count : ∀ start h h',
  I h →
  (∀ i g g', (start ≤ i < start + count)%nat → I g →
             body i g = Some g' → I g') →
  forUp start count body h = Some h' → I h'.
Proof.
  induction count as [|c IH]; intros start h h' Hh Hb; simpl.
  - by intros [= <-].
  - destruct (body start h) as [g|] eqn:E; simpl; [| done].
    apply IH.
    + eapply (Hb start h g); [lia | done | done].
    + intros i g1 g2 Hi. apply Hb. lia.
Qed.

Lemma snagAt_kept pts snagX snagY i h :
  wf_points h pts → (i < length pts)%nat →
  ∃ g, snagAt pts snagX snagY i h = Some g ∧ pins_kept h g.
Proof.
  intros Hwf Hi. unfold snagAt.
  destruct (lookup_lt_is_Some_2 pts i Hi) as [l Hl]. rewrite Hl. simpl.
  destruct (lookup_lt_is_Some_2 h l (Hwf _ _ Hl)) as [p Hp]. rewrite Hp. simpl.
  destruct (pinned p) eqn:Hpin.
  - eexists; split; [done | apply pins_kept_refl].
  - destruct (nlt _ _).
    + eexists; split; [done | by eapply pins_kept_insert].
    + eexists; split; [done | apply pins_kept_refl].
Qed.

Lemma snagPoints_kept pts snagX snagY h :
  wf_points h pts →
  ∃ g, snagPoints pts snagX snagY h = Some g ∧ pins_kept h g.
Proof.
  intros Hwf. unfold snagPoints. apply forUp_inv; [apply pins_kept_refl |].
  intros i g Hi Kg.
  destruct (snagAt_kept pts snagX snagY i g) as (g' & -> & Kg').
  - eapply wf_points_length; [apply Kg | done].
  - lia.
  - eexists; split; [done |]. by eapply pins_kept_trans.
Qed.

Lemma winchAt_stay pts anchor dx dy ai n k i h g :
  winchAt pts anchor dx dy ai n k i h = Some g → pins_stay h g.
Proof.
  unfold winchAt. intros E.
  destruct (pts !! (ai + i)%nat) as [l|]; simpl in E; [| done].
  destruct (h !! l) as [p|] eqn:Hp; simpl in E; [| done].
  destruct (h !! anchor) as [a|]; simpl in E; [| done].
  injection E as <-. eapply pins_stay_insert; [done |].
  simpl. intros ->. by destruct (Nat.eqb _ _).
Qed.

Lemma winchRope_shape sys m k h g sys' :
  winchRope sys m k h = Some (g, sys') →
  pins_stay h g ∧ points sys' = points sys ∧
  iterations sys' = iterations sys ∧
  endpoints <$> sticks sys' = endpoints <$> sticks sys.
Proof.
  unfold winchRope. intros E.
  destruct (findAnchor _ _) as [ai|]; simpl in E; [| done].
  destruct (points sys !! ai) as [anchor|]; simpl in E; [| done].
  destruct (h !! anchor) as [a|]; simpl in E; [| done].
  destruct (Nat.ltb _ _).
  - match type of E with (?loop ≫= _) = _ =>
      destruct loop as [g'|] eqn:Eloop end; simpl in E; [| done].
    injection E as <- <-. simpl. split; [| split; [done | split; [done |]]].
    + eapply (forUp_inv_some (pins_stay h)); [apply pins_stay_refl | | done].
      intros i g1 g2 _ K1 E2. eapply pins_stay_trans; [done |].
      by eapply winchAt_stay.
    + unfold setLengthFrom. rewrite fmap_app, <- list_fmap_compose.
      rewrite <- (take_drop ai (sticks sys)) at 3. by rewrite fmap_app.
  - injection E as <- <-. split; [apply pins_stay_refl | done].
Qed.

Lemma chain_endpoints sys sts :
  length sts = length (sticks sys) →
  endpoints <$> sts = endpoints <$> sticks sys →
  chain sys →
  chain {| points := points sys; sticks := sts;
           iterations := iterations sys |}.
Proof.
  intros L E [Hlen Hst]. split; simpl; [congruence |].
  intros i st Hi.
  assert (Hi' : (endpoints <$> sts) !! i = Some (endpoints st))
    by by rewrite list_lookup_fmap, Hi.
  rewrite E, list_lookup_fmap in Hi'.
  destruct (sticks sys !! i) as [st0|] eqn:E0; simpl in Hi'; [| done].
  injection Hi' as E1 E2. rewrite <- E1, <- E2. by apply Hst.
Qed.

Lemma SceneInv_wf_points base n sc :
  SceneInv base n sc → wf_points (heap sc) (seq base n).
Proof.
  intros [_ Hh _] i l Hl. apply lookup_seq in Hl as [-> ?]. lia.
Qed.

Lemma SceneInv_wf base n sc sys :
  SceneInv base n sc → rope sc = Some sys → wf_sys (heap sc) sys.
Proof.
  intros Hinv Hr. pose proof (SceneInv_wf_points _ _ _ Hinv) as Hwf.
  destruct Hinv as [(sys' & Hr' & Hpts & [Hlen Hst] & _) Hh _].
  assert (sys' = sys) as -> by congruence.
  split; [by rewrite Hpts |].
  intros i st Hi. destruct (Hst i st Hi) as [H1 H2].
  rewrite Hpts in H1, H2. split; eapply Hwf; eauto.
Qed.

(** A scene with the same rope structure and drag state, whose store
    keeps pinned points pinned, satisfies the invariant again. *)
Lemma SceneInv_heap base n sc sc' :
  SceneInv base n sc →
  rope sc' = rope sc → drag sc' = drag sc →
  pins_stay (heap sc) (heap sc') →
  SceneInv base n sc'.
Proof.
  intros [Hr Hh Hd] Er Ed [L K]. split.
  - by rewrite Er.
  - congruence.
  - rewrite Ed. intros Hdrag. destruct (Hd Hdrag) as [Hpi (l & p & Hl & Hp & Hpin)].
    split; [done |]. destruct (K l p Hp Hpin) as (q & Hq & Hqp).
    by exists l, q.
Qed.

End Invariants.

Section Preservation.
Context {N : JSNumber}.
Local Open Scope num_scope.
Implicit Types (h g : Heap) (p q a : Point) (l : loc) (pts : list loc)
               (sc : Scene) (sys : RopeSystem).

Variables base n : nat.
Hypothesis Hn : (1 ≤ n)%nat.

Lemma snag_inv sc sc' :
  SceneInv base n sc → snag sc = Some sc' → SceneInv base n sc'.
Proof.
  intros Hinv. pose proof (SceneInv_wf_points _ _ _ Hinv) as Hwf.
  unfold snag.
  destruct (rope sc) as [sys|] eqn:Hr; [| by intros [= <-]].
  destruct (mount sc) as [mnt|]; [| by intros [= <-]].
  destruct (isDragging (drag sc)); [| by intros [= <-]].
  assert (Hpts : points sys = seq base n).
  { destruct Hinv as [(sys' & Hr' & Hpts & _) _ _]. congruence. }
  destruct (snagPoints_kept (points sys) (cx mnt) (cy mnt) (heap sc))
    as (g & -> & K); [by rewrite Hpts |].
  simpl. intros [= <-].
  eapply (SceneInv_heap _ _ sc); [done | done | done |].
  by apply pins_kept_stay.
Qed.

Lemma winch_inv sc sc' :
  SceneInv base n sc → winch sc = Some sc' → SceneInv base n sc'.
Proof.
  intros Hinv. unfold winch.
  destruct (rope sc) as [sys|] eqn:Hr; [| by intros [= <-]].
  destruct (pointIndex (drag sc)) as [k|] eqn:Hk; [| by intros [= <-]].
  destruct (isDragging (drag sc)) eqn:Hdr; [| by intros [= <-]].
  destruct (winchRope sys (mouse sc) k (heap sc)) as [[g sys']|] eqn:E;
    simpl; [| done].
  intros [= <-].
  destruct (winchRope_shape _ _ _ _ _ _ E) as ([L K] & Epts & Eit & Eends).
  destruct Hinv as [(sys0 & Hr' & Hpts & Hc & Hit) Hh Hd].
  assert (sys0 = sys) as -> by congruence.
  split; simpl.
  - exists sys'. split; [done |]. split; [congruence |]. split; [| congruence].
    destruct sys' as [pts' sts' it']. simpl in *. subst pts' it'.
    apply chain_endpoints; [| done | done].
    by rewrite <- (length_fmap endpoints), Eends, length_fmap.
  - congruence.
  - intros _. destruct (Hd Hdr) as [Hpi (l & p & Hl & Hp & Hpin)].
    split; [done |]. destruct (K l p Hp Hpin) as (q & Hq & Hqp).
    by exists l, q.
Qed.

Lemma physics_inv width height r sc sc' :
  SceneInv base n sc → physics width height r sc = Some sc' →
  SceneInv base n sc'.
Proof.
  intros Hinv. unfold physics.
  destruct (rope sc) as [sys|] eqn:Hr; [| by intros [= <-]].
  destruct (updatePhysics_kept sys width height r (heap sc))
    as (g & -> & K); [by eapply SceneInv_wf |].
  simpl. intros [= <-].
  eapply (SceneInv_heap _ _ sc); [done | done | done |].
  by apply pins_kept_stay.
Qed.

Lemma render_inv width height sc sc' :
  SceneInv base n sc → render width height sc = Some sc' →
  SceneInv base n sc'.
Proof.
  intros Hinv. unfold render.
  destruct (rope sc) as [sys|] eqn:Hr; [| by intros [= <-]].
  destruct (snag sc) as [sc1|] eqn:E1; simpl; [| done].
  destruct (winch sc1) as [sc2|] eqn:E2; simpl; [| done].
  destruct (physics width height BULB_RADIUS sc2) as [sc3|] eqn:E3;
    simpl; [| done].
  destruct (rope sc3) as [sys3|]; simpl; [| done].
  destruct (points sys3 !! _) as [l|]; simpl; [| done].
  destruct (heap sc3 !! l); simpl; [| done].
  intros [= <-].
  eapply physics_inv; [| done]. eapply winch_inv; [| done].
  by eapply snag_inv.
Qed.

Lemma handlePointerDown_inv px py hm sc sc' :
  SceneInv base n sc → handlePointerDown px py hm sc = Some sc' →
  SceneInv base n sc'.
Proof.
  intros Hinv. unfold handlePointerDown.
  destruct (rope sc) as [sys|] eqn:Hr; [| by intros [= <-]].
  destruct hm.
  { intros [= <-].
    eapply (SceneInv_heap _ _ sc); [done | done | done | apply pins_stay_refl]. }
  pose proof Hinv as [(sys0 & Hr' & Hpts & Hc & Hit) Hh Hd].
  assert (sys0 = sys) as -> by congruence.
  rewrite Hpts, length_seq.
  destruct (seq base n !! (n - 1)%nat) as [l|] eqn:Hl; simpl; [| done].
  destruct (heap sc !! l) as [endPoint|] eqn:Hp; simpl; [| done].
  destruct (nlt _ _).
  - intros [= <-]. split; simpl.
    + exists sys. auto.
    + by rewrite length_insert.
    + intros _. split; [done |].
      exists l, (setPinned true endPoint). split; [done |]. split; [| done].
      apply list_lookup_insert_eq. by eapply lookup_lt_Some.
  - intros [= <-].
    eapply (SceneInv_heap _ _ sc); [done | done | done | apply pins_stay_refl].
Qed.

Lemma handlePointerUp_inv sc sc' :
  SceneInv base n sc → handlePointerUp sc = Some sc' → SceneInv base n sc'.
Proof.
  intros [Hr Hh Hd]. unfold handlePointerUp.
  match goal with |- (?m ≫= _) = _ → _ => destruct m as [g|] eqn:E end;
    simpl; [| done].
  intros [= <-]. split; simpl; [done | | done].
  destruct (rope sc) as [sys|]; [| by injection E as <-].
  destruct (pointIndex (drag sc)); [| by injection E as <-].
  destruct (isDragging (drag sc)); [| by injection E as <-].
  destruct (points sys !! _) as [l|]; simpl in E; [| done].
  destruct (heap sc !! l); simpl in E; [| done].
  injection E as <-. by rewrite length_insert.
Qed.

Lemma swing_stay sys h g : swing sys h = Some g → pins_stay h g.
Proof.
  unfold swing. destruct (Nat.ltb _ _).
  - destruct (points sys !! _) as [l|]; simpl; [| done].
    destruct (h !! l) as [p|] eqn:Hp; simpl; [| done].
    intros [= <-]. by eapply pins_stay_insert.
  - intros [= <-]. apply pins_stay_refl.
Qed.

Lemma step_inv e sc sc' :
  SceneInv base n sc → step e sc = Some sc' → SceneInv base n sc'.
Proof.
  intros Hinv. destruct e; simpl.
  - by apply render_inv.
  - by apply handlePointerDown_inv.
  - intros [= <-].
    eapply (SceneInv_heap _ _ sc); [done | done | done | apply pins_stay_refl].
  - by apply handlePointerUp_inv.
  - destruct (rope sc) as [sys|] eqn:Hr; [| by intros [= <-]].
    destruct (swing sys (heap sc)) as [g|] eqn:E; simpl; [| done].
    intros [= <-].
    eapply (SceneInv_heap _ _ sc); [done | done | done |].
    by eapply swing_stay.
  - by apply snag_inv.
  - by apply winch_inv.
  - by apply physics_inv.
Qed.

Lemma run_inv es : ∀ sc sc',
  SceneInv base n sc → run es sc = Some sc' → SceneInv base n sc'.
Proof.
  induction es as [|e es IH]; intros sc sc' Hinv; simpl.
  - by intros [= <-].
  - destruct (step e sc) as [sc1|] eqn:E; simpl; [| done].
    apply IH. by eapply step_inv.
Qed.

End Preservation.

(** ** Exact arithmetic *)

Section Exact.
Context {N : JSNumber}.
Hypothesis Hexact : ExactArith N.
Local Open Scope num_scope.

Let num_rt : ring_theory (R := num) (lit 0) (lit 1) nadd nmul nsub
                         (fun a => nsub (lit 0) a) eq := Hexact.

Add Ring num_ring : num_rt.

Lemma exact_sub_diag (a : num) : a - a = lit 0.
Proof. ring. Qed.

Lemma exact_add_sub (a d : num) : (a + d) - a = d.
Proof. ring. Qed.

Lemma exact_sub_sub (a d : num) : (a - d) - a = lit 0 - d.
Proof. ring. Qed.

Lemma exact_zero_norm : lit 0 * lit 0 + lit 0 * lit 0 = lit 0 :> num.
Proof. ring. Qed.



(** A point [a + t * d] is on the line through [a] with direction [d]. *)
Lemma exact_collinear (ax ay dx dy t : num) :
  ((ax + dx * t) - ax) * dy = ((ay + dy * t) - ay) * dx.
Proof. ring. Qed.

End Exact.

Lemma Q2R_0 : Q2R 0 = 0%R.
Proof. unfold Q2R. simpl. lra. Qed.

Lemma Q2R_1 : Q2R 1 = 1%R.
Proof. unfold Q2R. simpl. lra. Qed.

Lemma RealNumber_exact : ExactArith RealNumber.
Proof.
  unfold ExactArith. simpl. rewrite Q2R_0, Q2R_1.
  constructor; intros; ring.
Qed.

Lemma Reqb_refl (a : R) : Reqb a a = true.
Proof. unfold Reqb. by destruct (Req_dec_T a a). Qed.

Lemma Rltb_true (a b : R) : (a < b)%R → Rltb a b = true.
Proof. intros H. unfold Rltb. by destruct (Rlt_dec a b). Qed.

Lemma Rltb_false (a b : R) : ¬ (a < b)%R → Rltb a b = false.
Proof. intros H. unfold Rltb. by destruct (Rlt_dec a b). Qed.

(** ** Binary64 arithmetic *)

(** A finite double minus itself is [+0]. *)
Lemma float_sub_diag (v : float) :
  is_finite v = true → @nsub FloatNumber v v = 0%float.
Proof.
  intros Hfin. change (PrimFloat.sub v v = 0%float).
  apply FloatAxioms.Prim2SF_inj. rewrite FloatAxioms.sub_spec.
  change (Prim2SF 0) with (S754_zero false).
  unfold is_finite, is_nan, is_infinity in Hfin.
  rewrite !FloatAxioms.eqb_spec, FloatAxioms.abs_spec in Hfin.
  change (Prim2SF infinity) with (S754_infinity false) in Hfin.
  destruct (Prim2SF v) as [sg | sg | | sg m e].
  - by destruct sg.
  - destruct sg; cbv in Hfin; discriminate.
  - cbv in Hfin; discriminate.
  - clear Hfin. unfold SF64sub, SFsub. cbv zeta.
    rewrite Z.min_id. unfold shl_align. rewrite Z.sub_diag. reflexivity.
Qed.

(** ** createRope *)

Section Create.
Context {N : JSNumber}.
Local Open Scope num_scope.
Implicit Types (h g : Heap) (sc : Scene) (sys : RopeSystem).

Variables (h0 : Heap) (startX startY segmentLength : num) (n : nat).

Let created := createRope h0 startX startY n segmentLength.

Lemma createRope_points : points created.2 = seq (length h0) n.
Proof. done. Qed.

Lemma createRope_heap_length : length created.1 = (length h0 + n)%nat.
Proof.
  unfold created, createRope. simpl.
  by rewrite length_app, length_fmap, length_seq.
Qed.

Lemma createRope_old l : (l < length h0)%nat → created.1 !! l = h0 !! l.
Proof. intros Hl. unfold created, createRope. simpl. by apply lookup_app_l. Qed.

Lemma createRope_new i :
  (i < n)%nat →
  created.1 !! (length h0 + i)%nat
  = Some (newPoint startX startY segmentLength i).
Proof.
  intros Hi. unfold created, createRope. simpl.
  rewrite lookup_app_r by lia.
  replace (length h0 + i - length h0)%nat with i by lia.
  rewrite list_lookup_fmap, lookup_seq_lt by done. done.
Qed.

Lemma createRope_sticks_length : length (sticks created.2) = (n - 1)%nat.
Proof.
  unfold created, createRope. simpl. by rewrite length_fmap, length_seq.
Qed.

Lemma createRope_stick i :
  (i < n - 1)%nat →
  sticks created.2 !! i
  = Some {| p1 := length h0 + i; p2 := length h0 + (i + 1);
            stick_length := segmentLength |}.
Proof.
  intros Hi. unfold created, createRope. simpl.
  rewrite list_lookup_fmap, lookup_seq_lt by done. simpl.
  by rewrite !lookup_total_seq_lt by lia.
Qed.

Lemma createRope_chain : chain created.2.
Proof.
  split.
  - by rewrite createRope_sticks_length, createRope_points, length_seq.
  - intros i st Hi.
    assert (Hlt : (i < n - 1)%nat).
    { apply lookup_lt_Some in Hi. by rewrite createRope_sticks_length in Hi. }
    rewrite createRope_stick in Hi by done. injection Hi as <-. simpl.
    split; apply lookup_seq_lt; lia.
Qed.

Lemma newScene_inv m :
  SceneInv (length h0) n (newScene h0 startX startY n segmentLength m).
Proof.
  unfold newScene.
  pose proof createRope_points as Hp. pose proof createRope_heap_length as Hl.
  pose proof createRope_chain as Hc. fold created.
  destruct created as [h sys] eqn:E. simpl in *. split; simpl.
  - exists sys. split; [done |]. split; [done |]. split; [done |].
    unfold created, createRope in E. by injection E as <- <-.
  - done.
  - done.
Qed.

End Create.

(** Two ropes over the same points that both satisfy the structural
    invariant join the same objects, stick by stick. *)
Lemma chain_endpoints_eq `{JSNumber} (s1 s2 : RopeSystem) :
  points s1 = points s2 → chain s1 → chain s2 →
  endpoints <$> sticks s1 = endpoints <$> sticks s2.
Proof.
  intros Ep [L1 C1] [L2 C2]. apply list_eq. intros i.
  rewrite !list_lookup_fmap.
  destruct (sticks s1 !! i) as [a|] eqn:E1, (sticks s2 !! i) as [b|] eqn:E2;
    simpl.
  - destruct (C1 _ _ E1) as [A1 A2], (C2 _ _ E2) as [B1 B2].
    unfold endpoints. rewrite Ep in A1, A2. congruence.
  - apply lookup_lt_Some in E1. apply lookup_ge_None in E2.
    rewrite Ep in L1. lia.
  - apply lookup_lt_Some in E2. apply lookup_ge_None in E1.
    rewrite Ep in L1. lia.
  - done.
Qed.

Lemma reachable_inv `{JSNumber} (sc : Scene) :
  reachable sc → ∃ base n, 1 ≤ n ∧ SceneInv base n sc.
Proof.
  intros (h & sx & sy & n & L & m & es & Hn & Hrun).
  exists (length h), n. split; [done |].
  eapply run_inv; [| done]. apply newScene_inv.
Qed.

(** The scene the component starts from is reachable. *)
Lemma initPhysics_reachable `{JSNumber} (width height : num) (sc : Scene) :
  initPhysics width height initialRefs = Some sc → reachable sc.
Proof.
  unfold initPhysics. intros E.
  exists [], (nmul width (lit 0.7)), (lit 0), INITIAL_SEGMENT_COUNT,
         (ndiv (nmul height (lit 0.6)) (of_nat INITIAL_SEGMENT_COUNT)),
         {| cx := lit 0; cy := lit 0 |}, [Swing].
  split; [unfold INITIAL_SEGMENT_COUNT; lia |].
  unfold newScene. change (heap initialRefs) with (@nil Point) in E.
  destruct (createRope [] _ _ _ _) as [h sys].
  cbn [run step rope heap withHeap drag mouse mount].
  destruct (swing sys h) as [g|]; [| done]. exact E.
Qed.

Lemma createRope_wf `{JSNumber} (h : Heap) (startX startY : num) (n : nat)
    (segmentLength : num) :
  wf_sys (createRope h startX startY n segmentLength).1
         (createRope h startX startY n segmentLength).2.
Proof.
  pose proof (newScene_inv h startX startY segmentLength n
                {| cx := startX; cy := startY |}) as Hinv.
  unfold newScene in Hinv.
  destruct (createRope h startX startY n segmentLength) as [g sys] eqn:E.
  by apply (SceneInv_wf _ _ _ sys Hinv).
Qed.

(** * The claims *)

(** C1. One call to [updatePhysics], for any bounds and any end radius,
    returns and leaves every pinned point object exactly as it was ([x],
    [y], [oldx], [oldy] and [pinned]); so does the integration loop alone,
    and so does every single call of [resolveStick] on any store. *)
Theorem updatePhysics_fixes_pinned_points (N : JSNumber) (sys : RopeSystem)
    (width height bulbRadius : num) (h : Heap) :
  wf_sys h sys →
  (∃ g, updatePhysics sys width height bulbRadius h = Some g ∧
        length g = length h ∧
        ∀ l p, h !! l = Some p → pinned p = true → g !! l = Some p) ∧
  (∃ g, integrate sys width height bulbRadius h = Some g ∧
        ∀ l p, h !! l = Some p → pinned p = true → g !! l = Some p) ∧
  (∀ s h1 g, resolveStick s h1 = Some g →
             ∀ l p, h1 !! l = Some p → pinned p = true → g !! l = Some p).
Proof.
  intros Hwf. split; [| split].
  - destruct (updatePhysics_kept sys width height bulbRadius h Hwf)
      as (g & E & L & K).
    by exists g.
  - destruct (integrate_kept sys width height bulbRadius h (proj1 Hwf))
      as (g & E & L & K).
    by exists g.
  - intros s h1 g E.
    assert (H1 : p1 s < length h1 ∧ p2 s < length h1).
    { unfold resolveStick in E.
      destruct (h1 !! p1 s) as [a|] eqn:Ea; simpl in E; [| done].
      destruct (h1 !! p2 s) as [b|] eqn:Eb; simpl in E; [| done].
      split; by eapply lookup_lt_Some. }
    destruct (resolveStick_kept s h1) as (g' & E' & L & K); [tauto | tauto |].
    assert (g' = g) as -> by congruence. exact K.
Qed.

Lemma updatePhysics_fixes_pinned_points_witness :
  wf_sys demoRope.1 demoRope.2 ∧
  ∃ g, updatePhysics (N := FloatNumber) demoRope.2
                     (lit 1000) (lit 1000) (lit 0) demoRope.1 = Some g ∧
       g !! 0 = demoRope.1 !! 0.
Proof.
  assert (Hwf : wf_sys demoRope.1 demoRope.2) by apply createRope_wf.
  split; [exact Hwf |].
  destruct (updatePhysics_fixes_pinned_points FloatNumber demoRope.2
              (lit 1000) (lit 1000) (lit 0) demoRope.1 Hwf)
    as [(g & E & _ & K) _].
  exists g. split; [exact E |]. by apply K.
Defined.

(** C7. [resolveStick] on a stick whose computed endpoint distance is
    exactly zero returns, and returns the store unchanged: no field of
    either point is written and nothing is divided, whatever the division
    of the number model does at zero.  The computed distance is zero
    whenever the two endpoints have the same coordinates, in exact
    arithmetic (with [sqrt 0 = 0]) and in binary64 arithmetic for finite
    coordinates. *)
Theorem resolveStick_zero_distance_noop :
  (∀ (N : JSNumber) (s : Stick) (h : Heap) (a b : Point),
     h !! p1 s = Some a → h !! p2 s = Some b →
     neq (distance a b) (lit 0) = true →
     resolveStick s h = Some h) ∧
  (∀ (N : JSNumber) (s : Stick) (h : Heap) (a b : Point),
     ExactArith N → nsqrt (lit 0) = lit 0 → neq (lit 0) (lit 0) = true →
     h !! p1 s = Some a → h !! p2 s = Some b →
     x a = x b → y a = y b →
     resolveStick s h = Some h) ∧
  (∀ (s : @Stick FloatNumber) (h : list (@Point FloatNumber))
     (a b : @Point FloatNumber),
     h !! p1 s = Some a → h !! p2 s = Some b →
     is_finite (x a) = true → is_finite (y a) = true →
     x a = x b → y a = y b →
     resolveStick s h = Some h).
Proof.
  assert (Hzero : ∀ (N : JSNumber) (s : Stick) (h : Heap) (a b : Point),
            h !! p1 s = Some a → h !! p2 s = Some b →
            neq (distance a b) (lit 0) = true → resolveStick s h = Some h).
  { intros N s h a b Ha Hb Hd. unfold resolveStick.
    rewrite Ha. simpl. rewrite Hb. simpl.
    unfold distance in Hd. by rewrite Hd. }
  split; [exact Hzero |]. split.
  - intros N s h a b Hex Hsqrt Heq Ha Hb Ex Ey.
    apply (Hzero N s h a b Ha Hb). unfold distance. simpl.
    by rewrite Ex, Ey, !(exact_sub_diag Hex), (exact_zero_norm Hex), Hsqrt.
  - intros s h a b Ha Hb Fx Fy Ex Ey.
    apply (Hzero FloatNumber s h a b Ha Hb). unfold distance. cbv zeta.
    rewrite <- Ex, <- Ey, !float_sub_diag by done.
    vm_compute. reflexivity.
Qed.

Lemma resolveStick_zero_distance_noop_witness :
  (let a := @mkPoint FloatNumber 5%float 5%float 5%float 5%float false in
   let b := @mkPoint FloatNumber 5%float 5%float 4%float 4%float false in
   let s := @mkStick FloatNumber 0 1 10%float in
   [a; b] !! p1 s = Some a ∧ [a; b] !! p2 s = Some b ∧
   neq (distance a b) (lit 0) = true ∧
   is_finite (x a) = true ∧ is_finite (y a) = true ∧
   resolveStick s [a; b] = Some [a; b]) ∧
  (let a := @mkPoint RealNumber 5%R 5%R 5%R 5%R false in
   let b := @mkPoint RealNumber 5%R 5%R 4%R 4%R true in
   let s := @mkStick RealNumber 0 1 10%R in
   ExactArith RealNumber ∧ x a = x b ∧ y a = y b ∧
   resolveStick s [a; b] = Some [a; b]).
Proof.
  destruct resolveStick_zero_distance_noop as (Hzero & Hexact & Hfloat).
  split.
  - split; [reflexivity |]. split; [reflexivity |].
    split; [vm_compute; reflexivity |].
    split; [vm_compute; reflexivity |]. split; [vm_compute; reflexivity |].
    apply (Hzero FloatNumber
             (@mkStick FloatNumber 0 1 10%float)
             [@mkPoint FloatNumber 5%float 5%float 5%float 5%float false;
              @mkPoint FloatNumber 5%float 5%float 4%float 4%float false]
             (@mkPoint FloatNumber 5%float 5%float 5%float 5%float false)
             (@mkPoint FloatNumber 5%float 5%float 4%float 4%float false));
      [reflexivity | reflexivity | vm_compute; reflexivity].
  - split; [exact RealNumber_exact |]. split; [reflexivity |].
    split; [reflexivity |].
    apply (Hexact RealNumber
             (@mkStick RealNumber 0 1 10%R)
             [@mkPoint RealNumber 5%R 5%R 5%R 5%R false;
              @mkPoint RealNumber 5%R 5%R 4%R 4%R true]
             (@mkPoint RealNumber 5%R 5%R 5%R 5%R false)
             (@mkPoint RealNumber 5%R 5%R 4%R 4%R true));
      [exact RealNumber_exact | | | reflexivity | reflexivity | reflexivity
       | reflexivity].
    + simpl. rewrite Q2R_0. apply sqrt_0.
    + apply Reqb_refl.
Defined.

(** C4. [resolveStick] on a stick joining two distinct point objects whose
    computed distance is not zero, with [dx, dy] the vector from [p1] to
    [p2], [diff = length - dist] and
    [correctionFraction = diff / dist / 2]:
    - both free: [p1] becomes [p1 - (dx, dy) * correctionFraction] and
      [p2] becomes [p2 + (dx, dy) * correctionFraction];
    - only [p1] pinned: [p2] becomes [p2 + (dx, dy) * correctionFraction * 2]
      and [p1] is unchanged; only [p2] pinned: symmetrically
      [p1 - (dx, dy) * correctionFraction * 2];
    - both pinned: the store is unchanged.
    No other object is written, and previous positions and pin flags are
    kept.  In exact arithmetic the move [moveBy d e] displaces a point by
    exactly [(d, e)] and [moveBack d e] by exactly [(-d, -e)]. *)
Theorem resolveStick_case_analysis (N : JSNumber) (s : Stick) (h : Heap)
    (a b : Point) :
  h !! p1 s = Some a → h !! p2 s = Some b → p1 s ≠ p2 s →
  neq (distance a b) (lit 0) = false →
  let dx := nsub (x b) (x a) in
  let dy := nsub (y b) (y a) in
  let diff := nsub (stick_length s) (distance a b) in
  let correctionFraction := ndiv (ndiv diff (distance a b)) (lit 2) in
  let ox := nmul dx correctionFraction in
  let oy := nmul dy correctionFraction in
  (∃ g, resolveStick s h = Some g ∧ length g = length h ∧
        (∀ l, l ≠ p1 s → l ≠ p2 s → g !! l = h !! l) ∧
        (pinned a = false → pinned b = false →
           g !! p1 s = Some (moveBack ox oy a) ∧
           g !! p2 s = Some (moveBy ox oy b)) ∧
        (pinned a = true → pinned b = false →
           g !! p1 s = Some a ∧
           g !! p2 s = Some (moveBy (nmul ox (lit 2)) (nmul oy (lit 2)) b)) ∧
        (pinned a = false → pinned b = true →
           g !! p1 s = Some (moveBack (nmul ox (lit 2)) (nmul oy (lit 2)) a) ∧
           g !! p2 s = Some b) ∧
        (pinned a = true → pinned b = true → g = h)) ∧
  (∀ d e p, oldx (moveBy d e p) = oldx p ∧ oldy (moveBy d e p) = oldy p ∧
            pinned (moveBy d e p) = pinned p ∧
            oldx (moveBack d e p) = oldx p ∧ oldy (moveBack d e p) = oldy p ∧
            pinned (moveBack d e p) = pinned p) ∧
  (ExactArith N → ∀ d e p,
     nsub (x (moveBy d e p)) (x p) = d ∧
     nsub (y (moveBy d e p)) (y p) = e ∧
     nsub (x (moveBack d e p)) (x p) = nsub (lit 0) d ∧
     nsub (y (moveBack d e p)) (y p) = nsub (lit 0) e).
Proof.
  intros Ha Hb Hne Hd dx dy diff cf ox oy.
  pose proof (lookup_lt_Some _ _ _ Ha) as La.
  pose proof (lookup_lt_Some _ _ _ Hb) as Lb.
  split; [| split].
  - unfold resolveStick. rewrite Ha. simpl. rewrite Hb. simpl.
    unfold distance in Hd. rewrite Hd.
    fold dx dy. fold (distance a b). fold diff. fold cf. fold ox oy.
    destruct (pinned a) eqn:Pa, (pinned b) eqn:Pb; simpl.
    + exists h. repeat split; try done.
    + eexists. split; [done |]. split; [apply length_insert |].
      split; [intros l H1 H2; by rewrite list_lookup_insert_ne |].
      repeat split; try done.
      * by rewrite list_lookup_insert_ne.
      * by rewrite list_lookup_insert_eq.
    + eexists. split; [done |]. split; [apply length_insert |].
      split; [intros l H1 H2; by rewrite list_lookup_insert_ne |].
      repeat split; try done.
      * by rewrite list_lookup_insert_eq.
      * by rewrite list_lookup_insert_ne.
    + rewrite list_lookup_insert_ne by done. rewrite Hb. simpl.
      eexists. split; [done |]. split; [by rewrite !length_insert |].
      split.
      { intros l H1 H2. by rewrite !list_lookup_insert_ne. }
      repeat split; try done.
      * rewrite list_lookup_insert_ne by done.
        by rewrite list_lookup_insert_eq.
      * rewrite list_lookup_insert_eq; [done |]. by rewrite length_insert.
  - done.
  - intros Hex d e p. simpl.
    rewrite !(exact_add_sub Hex), !(exact_sub_sub Hex). done.
Qed.

Lemma resolveStick_case_analysis_witness :
  let a := @mkPoint FloatNumber 0%float 0%float 0%float 0%float true in
  let b := @mkPoint FloatNumber 0%float 12%float 0%float 12%float false in
  let s := @mkStick FloatNumber 0 1 10%float in
  [a; b] !! p1 s = Some a ∧ [a; b] !! p2 s = Some b ∧
  neq (distance a b) (lit 0) = false ∧
  ∃ g, resolveStick s [a; b] = Some g ∧ g !! 0 = Some a ∧
       @y FloatNumber <$> g !! 1 = Some 10%float.
Proof.
  intros a b s.
  split; [reflexivity |]. split; [reflexivity |].
  split; [vm_compute; reflexivity |].
  assert (Hne : p1 s ≠ p2 s) by (simpl; lia).
  assert (Hd : neq (distance a b) (lit 0) = false) by (vm_compute; reflexivity).
  destruct (resolveStick_case_analysis FloatNumber s [a; b] a b
              eq_refl eq_refl Hne Hd)
    as [(g & E & _ & _ & _ & Hpinned & _) _].
  destruct (Hpinned eq_refl eq_refl) as [G1 G2].
  exists g. split; [exact E |]. split; [exact G1 |].
  change (g !! 1) with (g !! p2 s). rewrite G2. vm_compute. reflexivity.
Defined.

(** C3. [createRope(startX, startY, n, L)] allocates [n] new, distinct
    point objects, point [i] at [(startX, startY + i * L)] with previous
    position equal to the current one and pinned exactly when [i = 0];
    [n - 1] sticks, stick [i] joining points [i] and [i + 1] with length
    [L]; iteration count 600; and leaves old objects alone.  In binary64
    arithmetic, [createRope(0, 0, 4, 10)] has its points at
    [y = 0, 10, 20, 30], point 0 alone pinned, 3 sticks of length 10.
    [updatePhysics] is its integration loop followed by the relaxation,
    and one call on this rope (bounds 1000 x 1000, end radius 0, so no
    collision) goes through the store [g1], where point 3 has moved down
    by 0.5 to [y = 30.5] and the sticks are not within [1e-9] of 10, and
    returns the store [g] that the relaxation makes of [g1]: every
    stick's endpoints are within [1e-9] of 10 apart, the points are at
    [y = 0, 10, 20 + 2^-47, 30 + 2^-47] and their previous positions at
    [y = 0, 10, 20, 30]. *)
Theorem createRope_builds_the_rope :
  (∀ (N : JSNumber) (h : Heap) (startX startY : num) (n : nat) (L : num),
     let created := createRope h startX startY n L in
     length (points created.2) = n ∧
     NoDup (points created.2) ∧
     (∀ i, i < n →
        ∃ l, points created.2 !! i = Some l ∧
             created.1 !! l
             = Some {| x := startX;
                       y := nadd startY (nmul (of_nat i) L);
                       oldx := startX;
                       oldy := nadd startY (nmul (of_nat i) L);
                       pinned := Nat.eqb i 0 |}) ∧
     length (sticks created.2) = n - 1 ∧
     (∀ i, i < n - 1 →
        ∃ a b, points created.2 !! i = Some a ∧
               points created.2 !! (i + 1) = Some b ∧
               sticks created.2 !! i
               = Some {| p1 := a; p2 := b; stick_length := L |}) ∧
     iterations created.2 = 600 ∧
     length created.1 = length h + n ∧
     (∀ l, l < length h → created.1 !! l = h !! l)) ∧
  (@x FloatNumber <$> demoRope.1 = [0; 0; 0; 0]%float ∧
   @y FloatNumber <$> demoRope.1 = [0; 10; 20; 30]%float ∧
   @oldx FloatNumber <$> demoRope.1 = @x FloatNumber <$> demoRope.1 ∧
   @oldy FloatNumber <$> demoRope.1 = @y FloatNumber <$> demoRope.1 ∧
   @pinned FloatNumber <$> demoRope.1 = [true; false; false; false] ∧
   @sticks FloatNumber demoRope.2
   = [@mkStick FloatNumber 0 1 10%float; @mkStick FloatNumber 1 2 10%float;
      @mkStick FloatNumber 2 3 10%float] ∧
   (∃ g1 g,
      integrate (N := FloatNumber) demoRope.2
                (lit 1000) (lit 1000) (lit 0) demoRope.1 = Some g1 ∧
      @y FloatNumber <$> g1 = [0; 10.5; 20.5; 30.5]%float ∧
      (fun p => @nsub FloatNumber (y p) (lit 30)) <$> g1 !! 3
      = Some GRAVITY ∧
      relaxed (H := FloatNumber) (lit (1 # 1000000000)) (lit 10)
              demoRope.2 g1 = false ∧
      constrain (N := FloatNumber) demoRope.2 g1 = Some g ∧
      updatePhysics (N := FloatNumber) demoRope.2
                    (lit 1000) (lit 1000) (lit 0) demoRope.1 = Some g ∧
      relaxed (H := FloatNumber) (lit (1 # 1000000000)) (lit 10)
              demoRope.2 g = true ∧
      @x FloatNumber <$> g = [0; 0; 0; 0]%float ∧
      @y FloatNumber <$> g
      = [0; 10; 0x1.4000000000002p+4; 0x1.e000000000002p+4]%float ∧
      @oldx FloatNumber <$> g = [0; 0; 0; 0]%float ∧
      @oldy FloatNumber <$> g = [0; 10; 20; 30]%float ∧
      @pinned FloatNumber <$> g = [true; false; false; false])) ∧
  (∀ (N : JSNumber) (sys : RopeSystem) (width height bulbRadius : num)
     (h : Heap),
     updatePhysics sys width height bulbRadius h
     = integrate sys width height bulbRadius h ≫= constrain sys).
Proof.
  split; [| split; [| reflexivity]].
  - intros N h startX startY n L created. subst created.
    split; [by rewrite createRope_points, length_seq |].
    split; [rewrite createRope_points; apply NoDup_seq |].
    split.
    { intros i Hi. exists (length h + i). split.
      - rewrite createRope_points. by apply lookup_seq_lt.
      - by rewrite createRope_new. }
    split; [apply createRope_sticks_length |].
    split.
    { intros i Hi. exists (length h + i), (length h + (i + 1)).
      rewrite createRope_points.
      split; [apply lookup_seq_lt; lia |].
      split; [apply lookup_seq_lt; lia |].
      by apply createRope_stick. }
    split; [done |].
    split; [apply createRope_heap_length |].
    apply createRope_old.
  - do 6 (split; [vm_compute; reflexivity |]).
    eexists _, _. split; [vm_compute; reflexivity |].
    do 3 (split; [vm_compute; reflexivity |]).
    split; [vm_compute; reflexivity |].
    repeat split; vm_compute; reflexivity.
Qed.

Lemma demoAfter_reachable (es : list (@Event FloatNumber)) :
  is_Some (run es demoScene) → reachable (demoAfter es).
Proof.
  intros [sc Hsc]. unfold demoAfter. rewrite Hsc. simpl.
  exists [], (@lit FloatNumber 700), (@lit FloatNumber 0), 5,
         (@lit FloatNumber 10),
         {| cx := @lit FloatNumber 0; cy := @lit FloatNumber 0 |}, es.
  split; [lia | exact Hsc].
Qed.

(** C8. In every scene reached from a rope built by [createRope] with at
    least one segment, by any sequence of frames, pointer events and
    single phases (impulse, snag, winch, physics update), the rope still
    has the point references [createRope] gave it, in the same order and
    all distinct; [sticks.length = points.length - 1]; stick [i] joins
    [points[i]] and [points[i + 1]]; the sticks join the same objects as
    at creation (only their lengths may differ); and the store holds the
    same number of objects. *)
Theorem rope_structure_is_invariant (N : JSNumber) (h : Heap)
    (startX startY : num) (n : nat) (L : num) (m : Coordinates)
    (es : list Event) (sc : Scene) :
  1 ≤ n →
  run es (newScene h startX startY n L m) = Some sc →
  let created := createRope h startX startY n L in
  ∃ sys, rope sc = Some sys ∧
         points sys = points created.2 ∧
         NoDup (points sys) ∧
         length (sticks sys) = length (points sys) - 1 ∧
         (∀ i st, sticks sys !! i = Some st →
                  points sys !! i = Some (p1 st) ∧
                  points sys !! (i + 1) = Some (p2 st)) ∧
         endpoints <$> sticks sys = endpoints <$> sticks created.2 ∧
         iterations sys = iterations created.2 ∧
         length (heap sc) = length created.1.
Proof.
  intros Hn Hrun created.
  assert (Hinv : SceneInv (length h) n sc).
  { eapply run_inv; [| exact Hrun]. apply newScene_inv. }
  destruct Hinv as [(sys & Hr & Hpts & Hc & Hit) Hh _].
  exists sys. split; [done |].
  assert (Ep : points sys = points created.2)
    by (subst created; by rewrite createRope_points).
  split; [done |].
  split; [rewrite Hpts; apply NoDup_seq |].
  split; [apply Hc |]. split; [apply Hc |].
  split; [apply chain_endpoints_eq; [done | done | apply createRope_chain] |].
  split; [done |].
  subst created. by rewrite createRope_heap_length.
Qed.

Lemma rope_structure_is_invariant_witness :
  is_Some (run demoDrag demoScene) ∧
  ∃ sys, rope (demoAfter demoDrag) = Some sys ∧
         points sys = [0; 1; 2; 3; 4] ∧
         endpoints <$> sticks sys = [(0, 1); (1, 2); (2, 3); (3, 4)].
Proof.
  assert (Hrun : run demoDrag demoScene = Some (demoAfter demoDrag))
    by (vm_compute; reflexivity).
  split; [by rewrite Hrun |].
  destruct (rope_structure_is_invariant FloatNumber [] (lit 700) (lit 0) 5
              (lit 10) {| cx := lit 0; cy := lit 0 |} demoDrag
              (demoAfter demoDrag) ltac:(lia) Hrun)
    as (sys & Hr & Hp & _ & _ & _ & He & _).
  exists sys. split; [exact Hr |]. split; [exact Hp | exact He].
Defined.





(** What the winch does to a dragging scene, in terms of [winchF] and
    [setLengthFrom]. *)
Lemma winch_spec `{JSNumber} (sc : Scene) (sys : RopeSystem) (k : nat) :
  rope sc = Some sys →
  isDragging (drag sc) = true → pointIndex (drag sc) = Some k →
  NoDup (points sys) → wf_points (heap sc) (points sys) →
  1 ≤ length (points sys) →
  ∃ ai anchor a,
    findAnchor (points sys) (heap sc) = Some ai ∧
    isAnchor (points sys) (heap sc) ai ∧
    points sys !! ai = Some anchor ∧ heap sc !! anchor = Some a ∧
    let n := length (points sys) - 1 - ai in
    let dx := nsub (cx (mouse sc)) (x a) in
    let dy := nsub (cy (mouse sc)) (y a) in
    let d := nsqrt (nadd (nmul dx dx) (nmul dy dy)) in
    (n = 0 → winch sc = Some sc) ∧
    (0 < n →
       ∃ g, winch sc
            = Some {| heap := g;
                      rope := Some {| points := points sys;
                                      sticks := setLengthFrom ai
                                                  (ndiv d (of_nat n))
                                                  (sticks sys);
                                      iterations := iterations sys |};
                      drag := drag sc; mouse := mouse sc;
                      mount := mount sc |} ∧
            length g = length (heap sc) ∧
            (∀ i l p, 1 ≤ i ≤ n → points sys !! (ai + i) = Some l →
                      heap sc !! l = Some p →
                      g !! l = Some (winchF a dx dy ai n k i p)) ∧
            (∀ l, (∀ i, 1 ≤ i ≤ n → points sys !! (ai + i) ≠ Some l) →
                  g !! l = heap sc !! l)).
Proof.
  intros Hr Hdr Hk Hnd Hwf Hlen.
  destruct (findAnchor_spec (points sys) (heap sc) Hwf) as (ai & Ea & Hai & Hle).
  assert (Hlt : ai < length (points sys)) by lia.
  destruct (lookup_lt_is_Some_2 _ _ Hlt) as [anchor Hanchor].
  destruct (lookup_lt_is_Some_2 _ _ (Hwf _ _ Hanchor)) as [a Ha].
  exists ai, anchor, a. do 4 (split; [done |]).
  intros n dx dy d.
  unfold winch. rewrite Hr, Hk, Hdr. unfold winchRope.
  rewrite Ea. simpl. rewrite Hanchor. simpl. rewrite Ha. simpl.
  fold n dx dy d.
  destruct (Nat.ltb_spec 0 n) as [Hpos | Hzero].
  - split; [lia |]. intros _.
    destruct (winchLoop_spec (points sys) anchor a dx dy ai n k (heap sc))
      as (g & -> & Lg & Hin & Hout); [done | done | done | done | lia |].
    simpl. by exists g.
  - split; [| lia]. intros _. simpl. f_equal.
    clear -Hr. destruct sc; simpl in *; by subst.
Qed.

(** C2. The winch of a dragging scene whose rope has at least one point,
    all distinct objects.  The anchor index [ai] is the last pinned index
    among [0 .. length - 2], or 0 if there is none, and
    [n = (length - 1) - ai].
    - If [n = 0] the scene is returned unchanged.
    - If [n > 0], with [(dx, dy)] the vector from the anchor to the
      pointer and [d = sqrt (dx * dx + dy * dy)]: every stick of index at
      least [ai] gets length [d / n], the other sticks and all endpoints
      are kept; the point of index [ai + i], [1 ≤ i ≤ n], is moved to
      [anchor + (dx, dy) * (i / n)] with its previous position equal to
      that position (and is pinned if it is the dragged point); no other
      object is written.
    In exact arithmetic a point [anchor + (dx, dy) * t] lies on the line
    from the anchor to the pointer, and a point whose previous position
    equals its position has velocity zero; the latter also holds in
    binary64 arithmetic for finite coordinates. *)
Theorem winch_redistributes (N : JSNumber) (sc : Scene) (sys : RopeSystem)
    (k : nat) :
  rope sc = Some sys →
  isDragging (drag sc) = true → pointIndex (drag sc) = Some k →
  NoDup (points sys) → wf_points (heap sc) (points sys) →
  1 ≤ length (points sys) →
  ∃ ai anchor a,
    findAnchor (points sys) (heap sc) = Some ai ∧
    isAnchor (points sys) (heap sc) ai ∧
    points sys !! ai = Some anchor ∧ heap sc !! anchor = Some a ∧
    let n := length (points sys) - 1 - ai in
    let dx := nsub (cx (mouse sc)) (x a) in
    let dy := nsub (cy (mouse sc)) (y a) in
    let d := nsqrt (nadd (nmul dx dx) (nmul dy dy)) in
    ∃ sc', winch sc = Some sc' ∧
      (n = 0 → sc' = sc) ∧
      (0 < n →
         ∃ sys', rope sc' = Some sys' ∧ points sys' = points sys ∧
           iterations sys' = iterations sys ∧
           length (sticks sys') = length (sticks sys) ∧
           (∀ i st, sticks sys !! i = Some st →
              sticks sys' !! i
              = Some (if Nat.leb ai i
                      then {| p1 := p1 st; p2 := p2 st;
                              stick_length := ndiv d (of_nat n) |}
                      else st)) ∧
           (∀ i l p, 1 ≤ i ≤ n → points sys !! (ai + i) = Some l →
              heap sc !! l = Some p →
              let t := ndiv (of_nat i) (of_nat n) in
              heap sc' !! l
              = Some {| x := nadd (x a) (nmul dx t);
                        y := nadd (y a) (nmul dy t);
                        oldx := nadd (x a) (nmul dx t);
                        oldy := nadd (y a) (nmul dy t);
                        pinned := if Nat.eqb (ai + i) k then true
                                  else pinned p |}) ∧
           (∀ l, (∀ i, 1 ≤ i ≤ n → points sys !! (ai + i) ≠ Some l) →
                 heap sc' !! l = heap sc !! l) ∧
           length (heap sc') = length (heap sc) ∧
           drag sc' = drag sc ∧ mouse sc' = mouse sc ∧
           mount sc' = mount sc) ∧
      (ExactArith N → ∀ t,
         let qx := nadd (x a) (nmul dx t) in
         let qy := nadd (y a) (nmul dy t) in
         nmul (nsub qx (x a)) dy = nmul (nsub qy (y a)) dx ∧
         nsub qx qx = lit 0 ∧ nsub qy qy = lit 0) ∧
      (∀ v : float, is_finite v = true →
                    @nsub FloatNumber v v = @lit FloatNumber 0).
Proof.
  intros Hr Hdr Hk Hnd Hwf Hlen.
  destruct (winch_spec sc sys k Hr Hdr Hk Hnd Hwf Hlen)
    as (ai & anchor & a & Ea & Hai & Hanchor & Ha & Hzero & Hpos).
  exists ai, anchor, a. do 4 (split; [done |]).
  intros n dx dy d.
  assert (Hexact : ExactArith N → ∀ t,
     nmul (nsub (nadd (x a) (nmul dx t)) (x a)) dy
     = nmul (nsub (nadd (y a) (nmul dy t)) (y a)) dx ∧
     nsub (nadd (x a) (nmul dx t)) (nadd (x a) (nmul dx t)) = lit 0 ∧
     nsub (nadd (y a) (nmul dy t)) (nadd (y a) (nmul dy t)) = lit 0).
  { intros Hex t. split; [apply (exact_collinear Hex) |].
    split; apply (exact_sub_diag Hex). }
  destruct (Nat.eq_dec n 0) as [E0 | Hne].
  - exists sc. split; [by apply Hzero |]. split; [done |].
    split; [lia |]. split; [exact Hexact | exact float_sub_diag].
  - destruct Hpos as (g & E & Lg & Hin & Hout); [lia |].
    eexists. split; [exact E |]. split; [done |].
    split; [| split; [exact Hexact | exact float_sub_diag]].
    intros _. eexists. split; [done |]. simpl.
    split; [done |]. split; [done |].
    split; [apply setLengthFrom_length |].
    split; [intros i st Hi; by apply setLengthFrom_lookup |].
    split; [intros i l p Hi Hl Hp; by apply (Hin i l p) |].
    done.
Qed.

Lemma winch_redistributes_witness :
  let sc := demoAfter demoGrab in
  is_Some (run demoGrab demoScene) ∧
  isDragging (drag sc) = true ∧ pointIndex (drag sc) = Some 4 ∧
  ∃ sc', winch sc = Some sc' ∧
         (λ sys, @stick_length FloatNumber <$> sticks sys) <$> rope sc'
         = Some [11.25; 11.25; 11.25; 11.25]%float.
Proof.
  intros sc.
  assert (Hrun : run demoGrab demoScene = Some sc) by (vm_compute; reflexivity).
  split; [by rewrite Hrun |]. split; [reflexivity |]. split; [reflexivity |].
  assert (Hr : rope sc = Some (createRope (N := FloatNumber) []
                                 (lit 700) (lit 0) 5 (lit 10)).2)
    by reflexivity.
  destruct (winch_redistributes FloatNumber sc _ 4 Hr eq_refl eq_refl)
    as (ai & anchor & a & Ea & _ & _ & _ & sc' & E & _).
  - apply NoDup_seq.
  - intros i l Hl. apply lookup_seq in Hl as [-> Hi].
    change (0 + i < 5). lia.
  - simpl. lia.
  - exists sc'. split; [exact E |].
    assert (Some sc' = winch sc) as Heq by (symmetry; exact E).
    vm_compute in Heq. injection Heq as ->. vm_compute. reflexivity.
Defined.

Lemma forUp_updAt_fixed `{JSNumber} (pts : list loc) (off : nat)
    (F : nat → Point → Point) (count : nat) : ∀ start (h : Heap),
  wf_points h pts → off + (start + count) ≤ length pts →
  (∀ i l p, start ≤ i < start + count → pts !! (off + i) = Some l →
            h !! l = Some p → F i p = p) →
  forUp start count (updAt pts off F) h = Some h.
Proof.
  induction count as [|c IH]; intros start h Hwf Hle Hfix; simpl; [done |].
  assert (Hs : off + start < length pts) by lia.
  destruct (lookup_lt_is_Some_2 pts _ Hs) as [l0 Hl0].
  destruct (lookup_lt_is_Some_2 h l0 (Hwf _ _ Hl0)) as [p0 Hp0].
  rewrite (updAt_eq _ _ _ _ _ _ _ Hl0 Hp0). simpl.
  rewrite (Hfix start l0 p0) by (done || lia).
  rewrite list_insert_id by done.
  apply IH; [done | lia |]. intros i l p Hi. apply Hfix. lia.
Qed.

Lemma snagF_idem `{JSNumber} (snagX snagY : num) (i j : nat) (p : Point) :
  snagF snagX snagY j (snagF snagX snagY i p) = snagF snagX snagY i p.
Proof.
  unfold snagF. destruct (pinned p) eqn:Hp; [by rewrite Hp |].
  destruct (nlt _ _) eqn:Hnear; [done |]. by rewrite Hp, Hnear.
Qed.

(** The winch moves only points beyond the anchor, and every pinned point
    other than the end point is at or before the anchor. *)
Lemma winch_keeps_inner_pins `{JSNumber} (base n : nat) (sc sc' : Scene)
    (i : nat) (l : loc) (p : Point) :
  SceneInv base n sc → winch sc = Some sc' →
  i + 2 ≤ n → seq base n !! i = Some l →
  heap sc !! l = Some p → pinned p = true →
  heap sc' !! l = Some p.
Proof.
  intros Hinv Hw Hi Hl Hp Hpin.
  pose proof (SceneInv_wf_points _ _ _ Hinv) as Hwf.
  destruct Hinv as [(sys & Hr & Hpts & Hc & Hit) Hh Hd].
  destruct (isDragging (drag sc)) eqn:Hdr;
    [| unfold winch in Hw; rewrite Hr, Hdr in Hw;
       destruct (pointIndex (drag sc)); by injection Hw as <-].
  destruct (pointIndex (drag sc)) as [k|] eqn:Hk;
    [| unfold winch in Hw; rewrite Hr, Hk in Hw; by injection Hw as <-].
  rewrite <- Hpts in Hwf, Hl.
  assert (Hnd : NoDup (points sys)) by (rewrite Hpts; apply NoDup_seq).
  assert (Hlen : length (points sys) = n) by by rewrite Hpts, length_seq.
  destruct (winch_spec sc sys k Hr Hdr Hk Hnd Hwf)
    as (ai & anchor & a & _ & Hai & _ & _ & Hzero & Hpos); [lia |].
  destruct (Nat.eq_dec (length (points sys) - 1 - ai) 0) as [E0 | Hne].
  { rewrite (Hzero E0) in Hw. by injection Hw as <-. }
  destruct Hpos as (g & E & _ & _ & Hout); [lia |].
  rewrite E in Hw. injection Hw as <-. simpl. rewrite Hout; [done |].
  assert (Hle : i ≤ ai).
  { destruct (decide (i ≤ ai)) as [? | Hgt]; [done |].
    assert (Hun : pinnedAt (points sys) (heap sc) i false).
    { destruct Hai as [(_ & _ & Hb) | (_ & Hnone)];
        [apply Hb | apply Hnone]; lia. }
    destruct Hun as (l' & p' & Hl' & Hp' & Hpin').
    assert (l' = l) as -> by congruence. congruence. }
  intros j Hj Hlj. pose proof (NoDup_lookup _ _ _ _ Hnd Hlj Hl). lia.
Qed.

(** A pinned point other than the end point is not moved by a whole
    animation frame. *)
Lemma render_keeps_inner_pins `{JSNumber} (base n : nat) (sc sc' : Scene)
    (width height : num) (i : nat) (l : loc) (p : Point) :
  1 ≤ n → SceneInv base n sc → render width height sc = Some sc' →
  i + 2 ≤ n → seq base n !! i = Some l →
  heap sc !! l = Some p → pinned p = true →
  heap sc' !! l = Some p.
Proof.
  intros Hn Hinv Hrender Hi Hl Hp Hpin. unfold render in Hrender.
  destruct (rope sc) as [sys|] eqn:Hr; [| by injection Hrender as <-].
  destruct (snag sc) as [sc1|] eqn:E1; simpl in Hrender; [| done].
  destruct (winch sc1) as [sc2|] eqn:E2; simpl in Hrender; [| done].
  destruct (physics width height BULB_RADIUS sc2) as [sc3|] eqn:E3;
    simpl in Hrender; [| done].
  destruct (rope sc3) as [sys3|]; simpl in Hrender; [| done].
  destruct (points sys3 !! _) as [l3|]; simpl in Hrender; [| done].
  destruct (heap sc3 !! l3); simpl in Hrender; [| done].
  injection Hrender as <-.
  pose proof (snag_inv base n sc sc1 Hinv E1) as Hinv1.
  pose proof (winch_inv base n sc1 sc2 Hinv1 E2) as Hinv2.
  (* snag *)
  assert (H1 : heap sc1 !! l = Some p).
  { unfold snag in E1. rewrite Hr in E1.
    destruct (mount sc) as [mnt|]; [| by injection E1 as <-].
    destruct (isDragging (drag sc)); [| by injection E1 as <-].
    destruct (snagPoints_kept (points sys) (cx mnt) (cy mnt) (heap sc))
      as (g & Eg & _ & K).
    { pose proof (SceneInv_wf_points _ _ _ Hinv) as Hwf.
      destruct Hinv as [(sys' & Hr' & Hpts & _) _ _].
      assert (sys' = sys) as -> by congruence. by rewrite Hpts. }
    rewrite Eg in E1. simpl in E1. injection E1 as <-. simpl. by apply K. }
  (* winch *)
  pose proof (winch_keeps_inner_pins base n sc1 sc2 i l p Hinv1 E2 Hi Hl H1 Hpin)
    as H2.
  (* physics *)
  unfold physics in E3.
  destruct (rope sc2) as [sys2|] eqn:Hr2; [| by injection E3 as <-].
  destruct (updatePhysics_kept sys2 width height BULB_RADIUS (heap sc2))
    as (g & Eg & _ & K); [by eapply SceneInv_wf |].
  rewrite Eg in E3. simpl in E3. injection E3 as <-. simpl. by apply K.
Qed.

(** C5. In a reachable scene that is dragging with a peg mounted at
    [(ax, ay)], the snag step returns, and every point of the rope that
    was not pinned and whose distance to [(ax, ay)] is under 25 is now
    pinned at [(ax, ay)] with its previous position also [(ax, ay)]; the
    unpinned points farther away and all pinned points are unchanged.
    Running the snag step again on the result changes nothing, and a
    whole animation frame leaves every pinned point other than the end
    point exactly where it is.  The velocity of a snagged point,
    [(ax - ax, ay - ay)], is zero in exact arithmetic, and in binary64
    arithmetic for finite peg coordinates. *)
Theorem snag_pins_points_at_peg (N : JSNumber) (sc : Scene)
    (sys : RopeSystem) (ax ay : num) :
  reachable sc → rope sc = Some sys →
  isDragging (drag sc) = true → mount sc = Some {| cx := ax; cy := ay |} →
  ∃ sc', snag sc = Some sc' ∧
    rope sc' = rope sc ∧ drag sc' = drag sc ∧ mount sc' = mount sc ∧
    length (heap sc') = length (heap sc) ∧
    (∀ i l p, points sys !! i = Some l → heap sc !! l = Some p →
       pinned p = false →
       nlt (hypot (nsub (x p) ax) (nsub (y p) ay)) SNAG_THRESHOLD = true →
       heap sc' !! l
       = Some {| x := ax; y := ay; oldx := ax; oldy := ay;
                 pinned := true |}) ∧
    (∀ i l p, points sys !! i = Some l → heap sc !! l = Some p →
       pinned p = false →
       nlt (hypot (nsub (x p) ax) (nsub (y p) ay)) SNAG_THRESHOLD = false →
       heap sc' !! l = Some p) ∧
    (∀ l p, heap sc !! l = Some p → pinned p = true →
            heap sc' !! l = Some p) ∧
    snag sc' = Some sc' ∧
    (∀ width height sc2 i l p,
       render width height sc = Some sc2 →
       i + 2 ≤ length (points sys) → points sys !! i = Some l →
       heap sc !! l = Some p → pinned p = true →
       heap sc2 !! l = Some p) ∧
    SNAG_THRESHOLD = lit 25 ∧
    (ExactArith N → nsub ax ax = lit 0 ∧ nsub ay ay = lit 0) ∧
    (∀ v : float, is_finite v = true →
                  @nsub FloatNumber v v = @lit FloatNumber 0).
Proof.
  intros Hreach Hr Hdr Hm.
  destruct (reachable_inv sc Hreach) as (base & n & Hn & Hinv).
  pose proof (SceneInv_wf_points _ _ _ Hinv) as Hwf.
  pose proof Hinv as Hinv0.
  destruct Hinv as [(sys' & Hr' & Hpts & Hc & Hit) Hh Hd].
  assert (sys' = sys) as -> by congruence.
  destruct (Hd Hdr) as [_ (le & pe & Hle & Hpe & Hpine)].
  rewrite <- Hpts in Hwf, Hle.
  assert (Hnd : NoDup (points sys)) by (rewrite Hpts; apply NoDup_seq).
  assert (Hlen : length (points sys) = n) by by rewrite Hpts, length_seq.
  (* the loop, point by point *)
  destruct (forUp_updAt (points sys) 0 (snagF ax ay)
              (length (points sys) - 1) 0 (heap sc))
    as (g & Eg & Lg & Hin & Hout); [done | done | simpl; lia |].
  assert (Esnag : snagPoints (points sys) ax ay (heap sc) = Some g).
  { unfold snagPoints.
    by rewrite (forUp_ext _ _ _ _ _ (snagAt_updAt _ _ _)). }
  destruct (snagPoints_kept (points sys) ax ay (heap sc) Hwf)
    as (g' & Eg' & _ & Kg).
  assert (g' = g) as -> by congruence.
  (* the end point is pinned while dragging *)
  assert (Hlast : ∀ i l p, points sys !! i = Some l → heap sc !! l = Some p →
                           pinned p = false → i < length (points sys) - 1).
  { intros i l p Hl Hp Hpin. pose proof (lookup_lt_Some _ _ _ Hl) as Hi.
    destruct (decide (i = n - 1)) as [-> | Hne]; [| lia].
    assert (l = le) as -> by congruence. congruence. }
  exists (withHeap sc g). split.
  { unfold snag. rewrite Hr, Hm, Hdr. simpl. by rewrite Esnag. }
  do 4 (split; [done |]). split.
  { intros i l p Hl Hp Hpin Hnear. simpl.
    rewrite (Hin i l p); [| pose proof (Hlast i l p Hl Hp Hpin); lia | done
                          | done].
    unfold snagF. by rewrite Hpin, Hnear. }
  split.
  { intros i l p Hl Hp Hpin Hfar. simpl.
    rewrite (Hin i l p); [| pose proof (Hlast i l p Hl Hp Hpin); lia | done
                          | done].
    unfold snagF. by rewrite Hpin, Hfar. }
  split; [exact Kg |]. split.
  { unfold snag. simpl. rewrite Hr, Hm, Hdr. simpl. unfold snagPoints.
    rewrite (forUp_ext _ _ _ _ _ (snagAt_updAt _ _ _)).
    rewrite forUp_updAt_fixed; [done | | simpl; lia |].
    - by eapply wf_points_length.
    - intros i l q Hi Hl Hq. simpl in Hl.
      destruct (lookup_lt_is_Some_2 (heap sc) l) as [p Hp];
        [rewrite <- Lg; by eapply lookup_lt_Some |].
      rewrite (Hin i l p) in Hq by (done || lia).
      injection Hq as <-. apply snagF_idem. }
  split.
  { intros width height sc2 i l p Hrender Hi Hl Hp Hpin.
    rewrite Hlen in Hi. rewrite Hpts in Hl.
    by eapply (render_keeps_inner_pins base n sc sc2 width height i l p). }
  split; [done |].
  split; [| exact float_sub_diag].
  intros Hex. split; apply (exact_sub_diag Hex).
Qed.

Lemma snag_pins_points_at_peg_witness :
  let sc := demoAfter demoGrab in
  reachable sc ∧ isDragging (drag sc) = true ∧
  mount sc = Some (@mkCoord FloatNumber 700%float 15%float) ∧
  heap sc !! 2
  = Some (@mkPoint FloatNumber 700%float 20%float 700%float 20%float false) ∧
  ∃ sc', snag sc = Some sc' ∧
         heap sc' !! 2
         = Some (@mkPoint FloatNumber 700%float 15%float 700%float 15%float
                          true).
Proof.
  intros sc.
  assert (Hreach : reachable sc).
  { apply demoAfter_reachable. vm_compute. by eexists. }
  split; [exact Hreach |]. split; [reflexivity |]. split; [reflexivity |].
  split; [reflexivity |].
  destruct (snag_pins_points_at_peg FloatNumber sc
              (createRope (N := FloatNumber) [] (lit 700) (lit 0) 5 (lit 10)).2
              700%float 15%float Hreach eq_refl eq_refl eq_refl)
    as (sc' & E & _ & _ & _ & _ & Hnear & _).
  exists sc'. split; [exact E |].
  apply (Hnear 2 2
           (@mkPoint FloatNumber 700%float 20%float 700%float 20%float false));
    [reflexivity | reflexivity | reflexivity | vm_compute; reflexivity].
Defined.

Lemma handlePointerUp_dragging `{JSNumber} (sc : Scene) (sys : RopeSystem)
    (k : nat) (l : loc) (lastPt : Point) :
  rope sc = Some sys →
  isDragging (drag sc) = true → pointIndex (drag sc) = Some k →
  points sys !! (length (points sys) - 1) = Some l →
  heap sc !! l = Some lastPt →
  handlePointerUp sc
  = Some {| heap := <[l := release (mount sc) lastPt]> (heap sc);
            rope := rope sc; drag := idle;
            mouse := mouse sc; mount := mount sc |}.
Proof.
  intros Hr Hdr Hk Hl Hp. unfold handlePointerUp.
  rewrite Hr, Hk, Hdr, Hl. simpl. by rewrite Hp.
Qed.

Lemma handlePointerUp_idle `{JSNumber} (sc sc' : Scene) :
  handlePointerUp sc = Some sc' → drag sc' = idle.
Proof.
  unfold handlePointerUp.
  match goal with |- (?m ≫= _) = _ → _ => destruct m end; simpl; [| done].
  by intros [= <-].
Qed.

(** C9. Pointer-up in a dragging scene, [lastPt] being the end point of
    the rope.  The handler returns and the drag state is idle afterwards
    (as after every pointer-up that returns).  If a peg is mounted at
    [(ax, ay)] and the distance of the end point to it is under 40, the end
    point is pinned and sits at [(ax, ay)]; if that distance is not under
    40, or no peg is mounted, only its [pinned] flag changes, to [false].
    In a reachable scene the end point was pinned before.  The securing
    threshold 40 is greater than the snag threshold 25. *)
Theorem release_secures_or_unpins (N : JSNumber) (sc : Scene)
    (sys : RopeSystem) (k : nat) (l : loc) (lastPt : Point) :
  rope sc = Some sys →
  isDragging (drag sc) = true → pointIndex (drag sc) = Some k →
  points sys !! (length (points sys) - 1) = Some l →
  heap sc !! l = Some lastPt →
  ∃ sc', handlePointerUp sc = Some sc' ∧
    drag sc' = {| isDragging := false; pointIndex := None |} ∧
    (∀ ax ay, mount sc = Some {| cx := ax; cy := ay |} →
       nlt (hypot (nsub (x lastPt) ax) (nsub (y lastPt) ay))
           SECURE_THRESHOLD = true →
       ∃ q, heap sc' !! l = Some q ∧
            pinned q = true ∧ x q = ax ∧ y q = ay) ∧
    (∀ ax ay, mount sc = Some {| cx := ax; cy := ay |} →
       nlt (hypot (nsub (x lastPt) ax) (nsub (y lastPt) ay))
           SECURE_THRESHOLD = false →
       heap sc' !! l
       = Some {| x := x lastPt; y := y lastPt; oldx := oldx lastPt;
                 oldy := oldy lastPt; pinned := false |}) ∧
    (mount sc = None →
       heap sc' !! l
       = Some {| x := x lastPt; y := y lastPt; oldx := oldx lastPt;
                 oldy := oldy lastPt; pinned := false |}) ∧
    (reachable sc → pinned lastPt = true) ∧
    (∀ sc0 sc1 : Scene, handlePointerUp sc0 = Some sc1 →
       drag sc1 = {| isDragging := false; pointIndex := None |}) ∧
    SECURE_THRESHOLD = lit 40 ∧ SNAG_THRESHOLD = lit 25 ∧
    nlt (JSNumber := FloatNumber) SNAG_THRESHOLD SECURE_THRESHOLD = true ∧
    nlt (JSNumber := RealNumber) SNAG_THRESHOLD SECURE_THRESHOLD = true.
Proof.
  intros Hr Hdr Hk Hl Hp.
  pose proof (lookup_lt_Some _ _ _ Hp) as Hlt.
  eexists. split; [by eapply handlePointerUp_dragging |]. simpl.
  split; [done |]. split.
  { intros ax ay Hm Hnear. eexists.
    split; [by apply list_lookup_insert_eq |].
    rewrite Hm. simpl. by rewrite Hnear. }
  split.
  { intros ax ay Hm Hfar. rewrite list_lookup_insert_eq by done.
    rewrite Hm. simpl. by rewrite Hfar. }
  split.
  { intros Hm. rewrite list_lookup_insert_eq by done. by rewrite Hm. }
  split.
  { intros Hreach.
    destruct (reachable_inv sc Hreach) as (base & n & Hn & Hinv).
    destruct Hinv as [(sys' & Hr' & Hpts & _) _ Hd].
    assert (sys' = sys) as -> by congruence.
    destruct (Hd Hdr) as [_ (le & pe & Hle & Hpe & Hpine)].
    rewrite Hpts, length_seq in Hl.
    assert (l = le) as -> by congruence. congruence. }
  split; [apply @handlePointerUp_idle |].
  split; [done |]. split; [done |].
  split; [vm_compute; reflexivity |].
  apply Rltb_true. unfold SNAG_THRESHOLD, SECURE_THRESHOLD. simpl.
  unfold Q2R. simpl. lra.
Qed.

Lemma release_secures_or_unpins_witness :
  let sc := demoAfter demoDrag in
  is_Some (run demoDrag demoScene) ∧
  isDragging (drag sc) = true ∧ pointIndex (drag sc) = Some 4 ∧
  heap sc !! 4
  = Some (@mkPoint FloatNumber 720%float 30%float 720%float 30%float true) ∧
  ∃ sc', handlePointerUp sc = Some sc' ∧ isDragging (drag sc') = false ∧
         ∃ q, heap sc' !! 4 = Some q ∧ pinned q = true ∧
              x q = 700%float ∧ y q = 15%float.
Proof.
  intros sc.
  assert (Hrun : run demoDrag demoScene = Some sc) by (vm_compute; reflexivity).
  split; [by rewrite Hrun |]. split; [reflexivity |]. split; [reflexivity |].
  assert (Hp : heap sc !! 4 = Some (@mkPoint FloatNumber 720%float 30%float
                                      720%float 30%float true))
    by (vm_compute; reflexivity).
  split; [exact Hp |].
  assert (Hr : ∃ sys, rope sc = Some sys ∧
                      points sys !! (length (points sys) - 1) = Some 4)
    by (eexists; split; vm_compute; reflexivity).
  destruct Hr as (sys & Hr & Hl).
  destruct (release_secures_or_unpins FloatNumber sc sys 4 4 _
              Hr eq_refl eq_refl Hl Hp)
    as (sc' & E & Hidle & Hsec & _).
  exists sc'. split; [exact E |]. split; [by rewrite Hidle |].
  apply (Hsec 700%float 15%float); [reflexivity | vm_compute; reflexivity].
Defined.

(** C10. A secured release (pointer-up while dragging, peg at [(ax, ay)],
    end point under 40 away from it) writes [x], [y] and [pinned] of the
    end point and nothing else: its [oldx] and [oldy] keep their values,
    every other object of the store is unchanged, and so is the rope.  So
    the velocity of the end point after the release is
    [(ax - oldx, ay - oldy)], whereas a snagged point has its previous
    position set to [(ax, ay)] as well. *)
Theorem secured_release_keeps_previous_position (N : JSNumber) (sc : Scene)
    (sys : RopeSystem) (k : nat) (l : loc) (lastPt : Point) (ax ay : num) :
  rope sc = Some sys →
  isDragging (drag sc) = true → pointIndex (drag sc) = Some k →
  points sys !! (length (points sys) - 1) = Some l →
  heap sc !! l = Some lastPt →
  mount sc = Some {| cx := ax; cy := ay |} →
  nlt (hypot (nsub (x lastPt) ax) (nsub (y lastPt) ay)) SECURE_THRESHOLD
  = true →
  ∃ sc' q, handlePointerUp sc = Some sc' ∧
    heap sc' !! l = Some q ∧
    q = {| x := ax; y := ay; oldx := oldx lastPt; oldy := oldy lastPt;
           pinned := true |} ∧
    nsub (x q) (oldx q) = nsub ax (oldx lastPt) ∧
    nsub (y q) (oldy q) = nsub ay (oldy lastPt) ∧
    (∀ l', l' ≠ l → heap sc' !! l' = heap sc !! l') ∧
    length (heap sc') = length (heap sc) ∧
    rope sc' = rope sc ∧ mount sc' = mount sc ∧ mouse sc' = mouse sc ∧
    snagged ax ay = {| x := ax; y := ay; oldx := ax; oldy := ay;
                       pinned := true |}.
Proof.
  intros Hr Hdr Hk Hl Hp Hm Hnear.
  pose proof (lookup_lt_Some _ _ _ Hp) as Hlt.
  eexists. eexists. split; [by eapply handlePointerUp_dragging |]. simpl.
  split.
  { rewrite list_lookup_insert_eq by done.
    rewrite Hm. simpl. by rewrite Hnear. }
  split; [done |]. split; [done |]. split; [done |].
  split; [intros l' Hne; by rewrite list_lookup_insert_ne |].
  split; [by rewrite length_insert |]. done.
Qed.

Lemma secured_release_keeps_previous_position_witness :
  let sc := demoAfter demoDrag in
  is_Some (run demoDrag demoScene) ∧
  heap sc !! 4
  = Some (@mkPoint FloatNumber 720%float 30%float 720%float 30%float true) ∧
  mount sc = Some (@mkCoord FloatNumber 700%float 15%float) ∧
  ∃ sc' q, handlePointerUp sc = Some sc' ∧ heap sc' !! 4 = Some q ∧
           q = @mkPoint FloatNumber 700%float 15%float 720%float 30%float
                        true ∧
           neq (nsub (x q) (oldx q)) (lit 0) = false ∧
           neq (nsub (y q) (oldy q)) (lit 0) = false.
Proof.
  intros sc.
  assert (Hrun : run demoDrag demoScene = Some sc) by (vm_compute; reflexivity).
  split; [by rewrite Hrun |].
  assert (Hp : heap sc !! 4 = Some (@mkPoint FloatNumber 720%float 30%float
                                      720%float 30%float true))
    by (vm_compute; reflexivity).
  split; [exact Hp |]. split; [reflexivity |].
  assert (Hr : ∃ sys, rope sc = Some sys ∧
                      points sys !! (length (points sys) - 1) = Some 4)
    by (eexists; split; vm_compute; reflexivity).
  destruct Hr as (sys & Hr & Hl).
  destruct (secured_release_keeps_previous_position FloatNumber sc sys 4 4 _
              700%float 15%float Hr eq_refl eq_refl Hl Hp eq_refl)
    as (sc' & q & E & Hq & -> & _); [vm_compute; reflexivity |].
  exists sc'. eexists. split; [exact E |]. split; [exact Hq |].
  split; [reflexivity |]. split; vm_compute; reflexivity.
Defined.

(** * Further properties of the component *)

(** ** No handler of a reachable scene throws *)

Section Totality.
Context {N : JSNumber}.
Implicit Types (h g : Heap) (p q : Point) (l : loc) (sc : Scene)
               (sys : RopeSystem).

Variables base n : nat.
Hypothesis Hn : 1 ≤ n.

Lemma SceneInv_last sc :
  SceneInv base n sc →
  ∃ sys p, rope sc = Some sys ∧
           points sys !! (length (points sys) - 1) = Some (base + (n - 1)) ∧
           heap sc !! (base + (n - 1)) = Some p.
Proof.
  intros [(sys & Hr & Hpts & _) Hh _].
  destruct (lookup_lt_is_Some_2 (heap sc) (base + (n - 1))) as [p Hp]; [lia |].
  exists sys, p. split; [done |]. split; [| done].
  rewrite Hpts, length_seq. apply lookup_seq_lt. lia.
Qed.

Lemma snag_total sc : SceneInv base n sc → is_Some (snag sc).
Proof.
  intros Hinv. pose proof (SceneInv_wf_points _ _ _ Hinv) as Hwf.
  destruct Hinv as [(sys & Hr & Hpts & _) _ _].
  unfold snag. rewrite Hr.
  destruct (mount sc) as [mnt|]; [| done].
  destruct (isDragging (drag sc)); [| done].
  destruct (snagPoints_kept (points sys) (cx mnt) (cy mnt) (heap sc))
    as (g & -> & _); [by rewrite Hpts | done].
Qed.

Lemma winch_total sc : SceneInv base n sc → is_Some (winch sc).
Proof.
  intros Hinv. pose proof (SceneInv_wf_points _ _ _ Hinv) as Hwf.
  destruct Hinv as [(sys & Hr & Hpts & _) _ _].
  destruct (pointIndex (drag sc)) as [k|] eqn:Hk;
    [| unfold winch; by rewrite Hr, Hk].
  destruct (isDragging (drag sc)) eqn:Hdr;
    [| unfold winch; by rewrite Hr, Hk, Hdr].
  rewrite <- Hpts in Hwf.
  destruct (winch_spec sc sys k Hr Hdr Hk) as
    (ai & anchor & a & _ & _ & _ & _ & Hzero & Hpos);
    [rewrite Hpts; apply NoDup_seq | done | rewrite Hpts, length_seq; lia |].
  destruct (Nat.eq_dec (length (points sys) - 1 - ai) 0) as [E0 | Hne].
  - by rewrite (Hzero E0).
  - destruct Hpos as (g & -> & _); [lia | done].
Qed.

Lemma physics_total width height r sc :
  SceneInv base n sc → is_Some (physics width height r sc).
Proof.
  intros Hinv. destruct (Hinv) as [(sys & Hr & _) _ _].
  unfold physics. rewrite Hr.
  destruct (updatePhysics_kept sys width height r (heap sc))
    as (g & -> & _); [by eapply SceneInv_wf | done].
Qed.

Lemma render_total width height sc :
  SceneInv base n sc → is_Some (render width height sc).
Proof.
  intros Hinv. unfold render.
  destruct (Hinv) as [(sys & Hr & _) _ _]. rewrite Hr.
  destruct (snag_total sc Hinv) as [sc1 E1]. rewrite E1. simpl.
  pose proof (snag_inv base n sc sc1 Hinv E1) as Hinv1.
  destruct (winch_total sc1 Hinv1) as [sc2 E2]. rewrite E2. simpl.
  pose proof (winch_inv base n sc1 sc2 Hinv1 E2) as Hinv2.
  destruct (physics_total width height BULB_RADIUS sc2 Hinv2) as [sc3 E3].
  rewrite E3. simpl.
  pose proof (physics_inv base n width height BULB_RADIUS sc2 sc3 Hinv2 E3)
    as Hinv3.
  destruct (SceneInv_last sc3 Hinv3) as (sys3 & p & -> & Hl & Hp). simpl.
  rewrite Hl. simpl. by rewrite Hp.
Qed.

Lemma handlePointerDown_total px py hm sc :
  SceneInv base n sc → is_Some (handlePointerDown px py hm sc).
Proof.
  intros Hinv. unfold handlePointerDown.
  destruct (SceneInv_last sc Hinv) as (sys & p & -> & Hl & Hp).
  destruct hm; [done |]. rewrite Hl. simpl. rewrite Hp. simpl.
  by destruct (nlt _ _).
Qed.

Lemma handlePointerUp_total sc :
  SceneInv base n sc → is_Some (handlePointerUp sc).
Proof.
  intros Hinv. unfold handlePointerUp.
  destruct (SceneInv_last sc Hinv) as (sys & p & -> & Hl & Hp).
  destruct (pointIndex (drag sc)); [| done].
  destruct (isDragging (drag sc)); [| done].
  rewrite Hl. simpl. by rewrite Hp.
Qed.

Lemma step_total e sc : SceneInv base n sc → is_Some (step e sc).
Proof.
  intros Hinv. destruct e; simpl.
  - by apply render_total.
  - by apply handlePointerDown_total.
  - done.
  - by apply handlePointerUp_total.
  - destruct (SceneInv_last sc Hinv) as (sys & p & -> & Hl & Hp).
    unfold swing. destruct (Nat.ltb _ _); [| done].
    rewrite Hl. simpl. by rewrite Hp.
  - by apply snag_total.
  - by apply winch_total.
  - by apply physics_total.
Qed.

Lemma run_total es : ∀ sc,
  SceneInv base n sc → ∃ sc', run es sc = Some sc' ∧ SceneInv base n sc'.
Proof.
  induction es as [|e es IH]; intros sc Hinv; simpl; [by exists sc |].
  destruct (step_total e sc Hinv) as [sc1 E1]. rewrite E1. simpl.
  apply IH. by eapply step_inv.
Qed.

End Totality.

Lemma run_app `{JSNumber} (es1 es2 : list Event) (sc : Scene) :
  run (es1 ++ es2) sc = sc' ← run es1 sc; run es2 sc'.
Proof.
  revert sc. induction es1 as [|e es1 IH]; intros sc; simpl; [done |].
  destruct (step e sc) as [sc1|]; simpl; [apply IH | done].
Qed.

Lemma reachable_run `{JSNumber} (es : list Event) (sc sc' : Scene) :
  reachable sc → run es sc = Some sc' → reachable sc'.
Proof.
  intros (h & sx & sy & n & L & m & es0 & Hn & Hrun) Hes.
  exists h, sx, sy, n, L, m, (es0 ++ es). split; [done |].
  rewrite run_app, Hrun. exact Hes.
Qed.

(** X1. A reachable scene never throws: every sequence of frames, pointer
    events, impulses and single [render] phases runs to the end, and the
    scene it ends in is reachable again. *)
Theorem reachable_scenes_never_throw (N : JSNumber) (sc : Scene)
    (es : list Event) :
  reachable sc → ∃ sc', run es sc = Some sc' ∧ reachable sc'.
Proof.
  intros Hreach.
  destruct (reachable_inv sc Hreach) as (base & n & Hn & Hinv).
  destruct (run_total base n Hn es sc Hinv) as (sc' & E & _).
  exists sc'. split; [done |]. by eapply reachable_run.
Qed.

Lemma reachable_scenes_never_throw_witness :
  reachable (demoAfter demoGrab) ∧
  ∃ sc', run [Frame (lit 1000) (lit 600); PointerUp]
             (demoAfter demoGrab) = Some sc' ∧
         reachable sc'.
Proof.
  assert (Hreach : reachable (demoAfter demoGrab)).
  { apply demoAfter_reachable. vm_compute. by eexists. }
  split; [exact Hreach |].
  exact (reachable_scenes_never_throw FloatNumber (demoAfter demoGrab)
           [Frame (lit 1000) (lit 600); PointerUp] Hreach).
Defined.

(** ** Loops whose body changes nothing *)

Lemma forUp_fixed `{JSNumber} (body : nat → Heap → option Heap)
    (count : nat) : ∀ start (h : Heap),
  (∀ i, start ≤ i < start + count → body i h = Some h) →
  forUp start count body h = Some h.
Proof.
  induction count as [|c IH]; intros start h Hb; simpl; [done |].
  rewrite Hb by lia. simpl. apply IH. intros i Hi. apply Hb. lia.
Qed.

Lemma forDown_fixed `{JSNumber} (body : nat → Heap → option Heap)
    (count : nat) (h : Heap) :
  (∀ i, i < count → body i h = Some h) →
  forDown count body h = Some h.
Proof.
  induction count as [|c IH]; intros Hb; simpl; [done |].
  rewrite Hb by lia. simpl. apply IH. intros i Hi. apply Hb. lia.
Qed.

Lemma repeatM_fixed `{JSNumber} (body : Heap → option Heap) (count : nat)
    (h : Heap) :
  body h = Some h → repeatM count body h = Some h.
Proof.
  intros Hb. induction count as [|c IH]; simpl; [done |].
  rewrite Hb. simpl. exact IH.
Qed.

Lemma updatePhysics_empty `{JSNumber} (sys : RopeSystem)
    (width height r : num) (h : Heap) :
  points sys = [] → sticks sys = [] →
  updatePhysics sys width height r h = Some h.
Proof.
  intros Hp Hs. unfold updatePhysics, integrate, constrain.
  rewrite Hp, Hs. simpl. by apply repeatM_fixed.
Qed.

Lemma render_empty `{JSNumber} (sc : Scene) (sys : RopeSystem)
    (width height : num) :
  rope sc = Some sys → points sys = [] → sticks sys = [] →
  isDragging (drag sc) = false →
  render width height sc = None.
Proof.
  intros Hr Hp Hs Hd. unfold render. rewrite Hr.
  assert (Hsnag : snag sc = Some sc).
  { unfold snag. rewrite Hr, Hd. by destruct (mount sc). }
  assert (Hwinch : winch sc = Some sc).
  { unfold winch. rewrite Hr, Hd. by destruct (pointIndex (drag sc)). }
  rewrite Hsnag. simpl. rewrite Hwinch. simpl.
  unfold physics. rewrite Hr, updatePhysics_empty by done. simpl.
  rewrite Hr. simpl. by rewrite Hp.
Qed.

(** X2. A rope created with zero segments has no end point: every
    animation frame throws (at the read of [lastPoint.pinned], after the
    physics update), and so do a pointer-down outside hammer mode and a
    click; the physics update alone, a pointer-down in hammer mode and a
    pointer-up return. *)
Theorem empty_rope_throws (N : JSNumber) (h : Heap) (startX startY L : num)
    (m : Coordinates) :
  let sc := newScene h startX startY 0 L m in
  (∀ width height, render width height sc = None) ∧
  (∀ px py, handlePointerDown px py false sc = None) ∧
  (∀ px py b, handleCanvasClick px py false sc b = None) ∧
  (∀ width height r, physics width height r sc = Some sc) ∧
  (∀ px py, is_Some (handlePointerDown px py true sc)) ∧
  handlePointerUp sc = Some sc.
Proof.
  intros sc.
  assert (Hsc : sc = {| heap := h ++ [];
                        rope := Some {| points := []; sticks := [];
                                        iterations := 600 |};
                        drag := idle; mouse := m; mount := None |})
    by reflexivity.
  assert (Hphys : ∀ width height r, physics width height r sc = Some sc).
  { intros width height r. rewrite Hsc. unfold physics. cbn [rope heap].
    rewrite updatePhysics_empty by reflexivity. reflexivity. }
  split; [| split; [| split; [| split; [| split]]]].
  - intros width height.
    by apply (render_empty sc {| points := []; sticks := [];
                                 iterations := 600 |}).
  - intros px py. by rewrite Hsc.
  - intros px py b. by rewrite Hsc.
  - exact Hphys.
  - intros px py. by rewrite Hsc.
  - by rewrite Hsc.
Qed.

(** ** A rope whose points are all pinned *)

Lemma resolveStick_both_pinned `{JSNumber} (s : Stick) (h : Heap)
    (a b : Point) :
  h !! p1 s = Some a → h !! p2 s = Some b →
  pinned a = true → pinned b = true →
  resolveStick s h = Some h.
Proof.
  intros Ha Hb Pa Pb. unfold resolveStick.
  rewrite Ha. simpl. rewrite Hb. simpl. rewrite Pa, Pb. simpl.
  by destruct (neq _ _).
Qed.

Lemma updatePhysics_all_pinned `{JSNumber} (sys : RopeSystem)
    (width height r : num) (h : Heap) :
  wf_sys h sys →
  (∀ i l p, points sys !! i = Some l → h !! l = Some p → pinned p = true) →
  (∀ i s a b, sticks sys !! i = Some s →
              h !! p1 s = Some a → h !! p2 s = Some b →
              pinned a = true ∧ pinned b = true) →
  updatePhysics sys width height r h = Some h.
Proof.
  intros [Hwp Hws] Hpts Hsts. unfold updatePhysics.
  assert (Hint : integrate sys width height r h = Some h).
  { unfold integrate. apply forUp_fixed. intros i Hi. unfold integrateAt.
    destruct (lookup_lt_is_Some_2 (points sys) i) as [l Hl]; [lia |].
    rewrite Hl. simpl.
    destruct (lookup_lt_is_Some_2 h l (Hwp _ _ Hl)) as [p Hp].
    rewrite Hp. simpl. by rewrite (Hpts i l p). }
  rewrite Hint. simpl. unfold constrain. apply repeatM_fixed.
  assert (Hres : ∀ i, i < length (sticks sys) →
                      resolveAt (sticks sys) i h = Some h).
  { intros i Hi. unfold resolveAt.
    destruct (lookup_lt_is_Some_2 (sticks sys) i Hi) as [s Hs].
    rewrite Hs. simpl. destruct (Hws _ _ Hs) as [H1 H2].
    destruct (lookup_lt_is_Some_2 h _ H1) as [a Ha].
    destruct (lookup_lt_is_Some_2 h _ H2) as [b Hb].
    destruct (Hsts i s a b Hs Ha Hb) as [Pa Pb].
    by eapply resolveStick_both_pinned. }
  unfold relax. rewrite forUp_fixed by (intros i Hi; apply Hres; lia).
  simpl. by apply forDown_fixed.
Qed.

(** X3. A rope whose points are all pinned is rigid: [updatePhysics]
    returns the store unchanged, whatever the bounds, the stick lengths
    and the positions are (a stick between two pinned points is never
    enforced).  In particular a rope created with a single segment, which
    is its pinned root, never moves. *)
Theorem pinned_rope_is_rigid :
  (∀ (N : JSNumber) (sys : RopeSystem) (width height r : num) (h : Heap),
     wf_sys h sys →
     (∀ i l p, points sys !! i = Some l → h !! l = Some p →
               pinned p = true) →
     (∀ i s a b, sticks sys !! i = Some s →
                 h !! p1 s = Some a → h !! p2 s = Some b →
                 pinned a = true ∧ pinned b = true) →
     updatePhysics sys width height r h = Some h) ∧
  (∀ (N : JSNumber) (h : Heap) (startX startY L width height r : num),
     let created := createRope h startX startY 1 L in
     updatePhysics created.2 width height r created.1 = Some created.1).
Proof.
  assert (Hone : ∀ (N : JSNumber) (h : Heap)
                   (startX startY L width height r : num),
     updatePhysics (createRope h startX startY 1 L).2 width height r
                   (createRope h startX startY 1 L).1
     = Some (createRope h startX startY 1 L).1).
  { intros N h startX startY L width height r.
    apply updatePhysics_all_pinned; [apply createRope_wf | |].
    - intros i l p Hl Hp. rewrite createRope_points in Hl.
      apply lookup_seq in Hl as [-> Hi]. assert (i = 0) as -> by lia.
      rewrite createRope_new in Hp by lia. by injection Hp as <-.
    - intros i s a b Hs. apply lookup_lt_Some in Hs.
      rewrite createRope_sticks_length in Hs. lia. }
  split; [intros N; apply @updatePhysics_all_pinned |].
  intros N h startX startY L width height r created. apply Hone.
Qed.

(** ** What the two phases of updatePhysics write *)

Section Keeps.
Context {N : JSNumber}.
Implicit Types (h g : Heap) (p q : Point) (s : Stick) (l : loc).

Variable R : Point → Point → Prop.
Hypothesis R_refl : ∀ p, R p p.
Hypothesis R_trans : ∀ p q r, R p q → R q r → R p r.

Lemma keeps_refl h : keeps R h h.
Proof. split; [done |]. intros l p Hp. by exists p. Qed.

Lemma keeps_trans h1 h2 h3 : keeps R h1 h2 → keeps R h2 h3 → keeps R h1 h3.
Proof.
  intros [L12 K12] [L23 K23]. split; [congruence |].
  intros l p Hp. destruct (K12 l p Hp) as (q & Hq & Rpq).
  destruct (K23 l q Hq) as (r & Hr & Rqr). exists r. split; [done |].
  by eapply R_trans.
Qed.

Lemma keeps_insert h l p q :
  h !! l = Some p → R p q → keeps R h (<[l := q]> h).
Proof.
  intros Hl HR. split; [apply length_insert |].
  intros l' p' Hl'. destruct (decide (l = l')) as [<- | Hne].
  - exists q. split.
    + apply list_lookup_insert_eq. by eapply lookup_lt_Some.
    + congruence.
  - exists p'. split; [by rewrite list_lookup_insert_ne | apply R_refl].
Qed.

Lemma forUp_keeps body count start h :
  (∀ i g, start ≤ i < start + count → length g = length h →
          ∃ g', body i g = Some g' ∧ keeps R g g') →
  ∃ g, forUp start count body h = Some g ∧ keeps R h g.
Proof.
  intros Hb. apply (forUp_inv (keeps R h)); [apply keeps_refl |].
  intros i g Hi Kg. destruct (Hb i g Hi (proj1 Kg)) as (g' & E & K').
  exists g'. split; [done |]. by eapply keeps_trans.
Qed.

Lemma forDown_keeps body count h :
  (∀ i g, i < count → length g = length h →
          ∃ g', body i g = Some g' ∧ keeps R g g') →
  ∃ g, forDown count body h = Some g ∧ keeps R h g.
Proof.
  intros Hb. apply (forDown_inv (keeps R h)); [apply keeps_refl |].
  intros i g Hi Kg. destruct (Hb i g Hi (proj1 Kg)) as (g' & E & K').
  exists g'. split; [done |]. by eapply keeps_trans.
Qed.

Lemma repeatM_keeps body count h :
  (∀ g, length g = length h → ∃ g', body g = Some g' ∧ keeps R g g') →
  ∃ g, repeatM count body h = Some g ∧ keeps R h g.
Proof.
  intros Hb. apply (repeatM_inv (keeps R h)); [apply keeps_refl |].
  intros g Kg. destruct (Hb g (proj1 Kg)) as (g' & E & K').
  exists g'. split; [done |]. by eapply keeps_trans.
Qed.

End Keeps.

Section PhaseFrames.
Context {N : JSNumber}.
Implicit Types (h g : Heap) (p q : Point) (s : Stick) (l : loc).

Lemma same_old_refl p : same_old p p.
Proof. done. Qed.

Lemma same_old_trans p q r : same_old p q → same_old q r → same_old p r.
Proof. intros (A1 & A2 & A3) (B1 & B2 & B3). repeat split; congruence. Qed.

Lemma same_pinned_trans p q r :
  same_pinned p q → same_pinned q r → same_pinned p r.
Proof. unfold same_pinned. congruence. Qed.

Lemma resolveStick_same_old s h :
  p1 s < length h → p2 s < length h →
  ∃ g, resolveStick s h = Some g ∧ keeps same_old h g.
Proof.
  intros H1 H2. unfold resolveStick.
  destruct (lookup_lt_is_Some_2 h _ H1) as [a Ha]. rewrite Ha. simpl.
  destruct (lookup_lt_is_Some_2 h _ H2) as [b Hb]. rewrite Hb. simpl.
  pose proof (keeps_refl same_old same_old_refl h) as Kh.
  destruct (neq _ _); [by exists h |].
  destruct (pinned a), (pinned b); simpl.
  - by exists h.
  - eexists. split; [done |].
    by apply (keeps_insert same_old same_old_refl h _ b).
  - eexists. split; [done |].
    by apply (keeps_insert same_old same_old_refl h _ a).
  - set (h1 := <[p1 s := _]> h).
    assert (K1 : keeps same_old h h1)
      by by apply (keeps_insert same_old same_old_refl h _ a).
    assert (H2' : p2 s < length h1) by (rewrite (proj1 K1); done).
    destruct (lookup_lt_is_Some_2 h1 _ H2') as [b' Hb']. rewrite Hb'. simpl.
    eexists. split; [done |].
    eapply (keeps_trans same_old same_old_trans); [exact K1 |].
    by apply (keeps_insert same_old same_old_refl h1 _ b').
Qed.

Lemma constrain_same_old sys h :
  wf_sticks h (sticks sys) →
  ∃ g, constrain sys h = Some g ∧ keeps same_old h g.
Proof.
  intros Hwf. unfold constrain.
  apply (repeatM_keeps same_old same_old_refl same_old_trans).
  intros g Lg. unfold relax.
  assert (Hres : ∀ i g', i < length (sticks sys) → length g' = length g →
            ∃ g'', resolveAt (sticks sys) i g' = Some g'' ∧
                   keeps same_old g' g'').
  { intros i g' Hi Lg'. unfold resolveAt.
    destruct (lookup_lt_is_Some_2 (sticks sys) i Hi) as [s Hs].
    rewrite Hs. simpl. destruct (Hwf _ _ Hs) as [H1 H2].
    apply resolveStick_same_old; lia. }
  destruct (forUp_keeps same_old same_old_refl same_old_trans
              (resolveAt (sticks sys)) (length (sticks sys)) 0 g)
    as (g1 & -> & K1).
  { intros i g' Hi Lg'. apply Hres; [lia | done]. }
  simpl.
  destruct (forDown_keeps same_old same_old_refl same_old_trans
              (resolveAt (sticks sys)) (length (sticks sys)) g1)
    as (g2 & -> & K2).
  { intros i g' Hi Lg'. apply Hres; [done |]. rewrite Lg'. apply K1. }
  exists g2. split; [done |].
  by eapply (keeps_trans same_old same_old_trans).
Qed.

Lemma movePoint_pinned width height r p :
  pinned (movePoint width height r p) = pinned p.
Proof.
  unfold movePoint, collideWalls, collideFloor.
  destruct (nlt (nsub height r) (y (verlet p))); simpl;
    destruct (nlt _ r); simpl; try done;
    by destruct (nlt (nsub width r) _).
Qed.

Lemma integrate_same_pinned sys width height r h :
  wf_points h (points sys) →
  ∃ g, integrate sys width height r h = Some g ∧ keeps same_pinned h g.
Proof.
  intros Hwf. unfold integrate.
  apply (forUp_keeps same_pinned (fun _ => eq_refl) same_pinned_trans).
  intros i g Hi Lg. unfold integrateAt.
  destruct (lookup_lt_is_Some_2 (points sys) i) as [l Hl]; [lia |].
  rewrite Hl. simpl.
  destruct (lookup_lt_is_Some_2 g l) as [p Hp];
    [rewrite Lg; by eapply Hwf |].
  rewrite Hp. simpl.
  destruct (pinned p) eqn:Hpin.
  - exists g. split; [done |].
    apply (keeps_refl same_pinned (fun _ => eq_refl)).
  - eexists. split; [done |].
    apply (keeps_insert same_pinned (fun _ => eq_refl) g l p); [done |].
    apply movePoint_pinned.
Qed.

End PhaseFrames.

(** X4. The relaxation phase of [updatePhysics] writes positions only:
    after all its [resolveStick] calls every point object has the [oldx],
    [oldy] and [pinned] it had before (so relaxation changes implicit
    velocities, never previous positions).  A whole [updatePhysics] call
    changes no pin flag, pinned or not, and keeps the number of objects. *)
Theorem relaxation_writes_positions_only (N : JSNumber) (sys : RopeSystem)
    (width height bulbRadius : num) (h : Heap) :
  wf_sys h sys →
  (∃ g, constrain sys h = Some g ∧ length g = length h ∧
        ∀ l p, h !! l = Some p →
               ∃ q, g !! l = Some q ∧ oldx q = oldx p ∧ oldy q = oldy p ∧
                    pinned q = pinned p) ∧
  (∃ g, updatePhysics sys width height bulbRadius h = Some g ∧
        length g = length h ∧
        ∀ l p, h !! l = Some p → ∃ q, g !! l = Some q ∧ pinned q = pinned p).
Proof.
  intros [Hwp Hws]. split.
  - destruct (constrain_same_old sys h Hws) as (g & E & L & K).
    exists g. split; [done |]. split; [done |]. exact K.
  - unfold updatePhysics.
    destruct (integrate_same_pinned sys width height bulbRadius h Hwp)
      as (g1 & -> & L1 & K1).
    simpl.
    destruct (constrain_same_old sys g1) as (g & E & L & K).
    { by eapply wf_sticks_length. }
    exists g. split; [done |]. split; [congruence |].
    intros l p Hp. destruct (K1 l p Hp) as (q1 & Hq1 & R1).
    destruct (K l q1 Hq1) as (q & Hq & _ & _ & R2).
    exists q. split; [done |]. unfold same_pinned in R1. congruence.
Qed.

Lemma relaxation_writes_positions_only_witness :
  wf_sys demoRope.1 demoRope.2 ∧
  ∃ g, constrain (N := FloatNumber) demoRope.2 demoRope.1 = Some g ∧
       @oldy FloatNumber <$> g = [0; 10; 20; 30]%float.
Proof.
  assert (Hwf : wf_sys demoRope.1 demoRope.2) by apply createRope_wf.
  split; [exact Hwf |].
  destruct (relaxation_writes_positions_only FloatNumber demoRope.2
              (lit 1000) (lit 1000) (lit 0) demoRope.1 Hwf)
    as [(g & E & _) _].
  exists g. split; [exact E |].
  assert (Hg : Some g = constrain (N := FloatNumber) demoRope.2 demoRope.1)
    by (symmetry; exact E).
  vm_compute in Hg. injection Hg as ->. reflexivity.
Defined.

(** ** What events do to pinned points *)

Section PinnedForever.
Context {N : JSNumber}.
Implicit Types (h g : Heap) (p q : Point) (l : loc) (sc : Scene)
               (sys : RopeSystem).

Variables base n : nat.
Hypothesis Hn : 1 ≤ n.

Lemma snag_idle sc : isDragging (drag sc) = false → snag sc = Some sc.
Proof.
  intros Hd. unfold snag. destruct (rope sc); [| done].
  destruct (mount sc); [| done]. by rewrite Hd.
Qed.

Lemma winch_idle sc : isDragging (drag sc) = false → winch sc = Some sc.
Proof.
  intros Hd. unfold winch. destruct (rope sc); [| done].
  destruct (pointIndex (drag sc)); [| done]. by rewrite Hd.
Qed.

Lemma snag_kept sc sc' :
  SceneInv base n sc → snag sc = Some sc' →
  pins_kept (heap sc) (heap sc') ∧ drag sc' = drag sc ∧
  mount sc' = mount sc ∧ rope sc' = rope sc.
Proof.
  intros Hinv. pose proof (SceneInv_wf_points _ _ _ Hinv) as Hwf.
  destruct Hinv as [(sys & Hr & Hpts & _) _ _].
  unfold snag. rewrite Hr.
  destruct (mount sc) as [mnt|] eqn:Hm;
    [| intros [= <-]; split; [apply pins_kept_refl | done]].
  destruct (isDragging (drag sc));
    [| intros [= <-]; split; [apply pins_kept_refl | done]].
  destruct (snagPoints_kept (points sys) (cx mnt) (cy mnt) (heap sc))
    as (g & -> & K); [by rewrite Hpts |].
  simpl. by intros [= <-].
Qed.

Lemma physics_kept width height r sc sc' :
  SceneInv base n sc → physics width height r sc = Some sc' →
  pins_kept (heap sc) (heap sc') ∧ drag sc' = drag sc ∧
  mount sc' = mount sc ∧ rope sc' = rope sc.
Proof.
  intros Hinv. unfold physics.
  destruct (rope sc) as [sys|] eqn:Hr;
    [| intros [= <-]; split; [apply pins_kept_refl | done]].
  destruct (updatePhysics_kept sys width height r (heap sc))
    as (g & -> & K); [by eapply SceneInv_wf |].
  simpl. by intros [= <-].
Qed.

Lemma render_steps width height sc sc' :
  render width height sc = Some sc' →
  rope sc = None ∧ sc' = sc ∨
  ∃ sc1 sc2, snag sc = Some sc1 ∧ winch sc1 = Some sc2 ∧
             physics width height BULB_RADIUS sc2 = Some sc'.
Proof.
  unfold render. destruct (rope sc) as [sys|]; [| intros [= <-]; by left].
  destruct (snag sc) as [sc1|] eqn:E1; simpl; [| done].
  destruct (winch sc1) as [sc2|] eqn:E2; simpl; [| done].
  destruct (physics width height BULB_RADIUS sc2) as [sc3|] eqn:E3;
    simpl; [| done].
  destruct (rope sc3) as [sys3|]; simpl; [| done].
  destruct (points sys3 !! _) as [l|]; simpl; [| done].
  destruct (heap sc3 !! l); simpl; [| done].
  intros [= <-]. right. by exists sc1, sc2.
Qed.

(** The end point is the only object the pointer handlers and the
    impulse write. *)
Lemma write_last_only sc l p i q :
  SceneInv base n sc → i + 2 ≤ n → seq base n !! i = Some l →
  heap sc !! l = Some p →
  <[base + (n - 1) := q]> (heap sc) !! l = Some p.
Proof.
  intros Hinv Hi Hl Hp. apply lookup_seq in Hl as [-> _].
  rewrite list_lookup_insert_ne by lia. done.
Qed.

Lemma step_keeps_inner_pins e sc sc' i l p :
  SceneInv base n sc → step e sc = Some sc' →
  i + 2 ≤ n → seq base n !! i = Some l →
  heap sc !! l = Some p → pinned p = true →
  heap sc' !! l = Some p.
Proof.
  intros Hinv Hstep Hi Hl Hp Hpin.
  destruct (SceneInv_last base n Hn sc Hinv) as (sys & pe & Hr & Hle & Hpe).
  destruct e; simpl in Hstep.
  - by eapply (render_keeps_inner_pins base n sc sc').
  - unfold handlePointerDown in Hstep. rewrite Hr in Hstep.
    destruct isHammerMode; [by injection Hstep as <- |].
    rewrite Hle in Hstep. simpl in Hstep. rewrite Hpe in Hstep.
    simpl in Hstep. destruct (nlt _ _); injection Hstep as <-; simpl;
      [by eapply write_last_only | done].
  - by injection Hstep as <-.
  - unfold handlePointerUp in Hstep. rewrite Hr in Hstep.
    destruct (pointIndex (drag sc)); [| by injection Hstep as <-].
    destruct (isDragging (drag sc)); [| by injection Hstep as <-].
    rewrite Hle in Hstep. simpl in Hstep. rewrite Hpe in Hstep.
    simpl in Hstep. injection Hstep as <-. simpl.
    by eapply write_last_only.
  - rewrite Hr in Hstep. unfold swing in Hstep.
    destruct (Nat.ltb _ _); [| by injection Hstep as <-].
    rewrite Hle in Hstep. simpl in Hstep. rewrite Hpe in Hstep.
    simpl in Hstep. injection Hstep as <-. simpl.
    by eapply write_last_only.
  - destruct (snag_kept sc sc' Hinv Hstep) as [[_ K] _]. by apply K.
  - by eapply (winch_keeps_inner_pins base n sc sc').
  - destruct (physics_kept _ _ _ sc sc' Hinv Hstep) as [[_ K] _]. by apply K.
Qed.

Lemma run_keeps_inner_pins es i l p : ∀ sc sc',
  SceneInv base n sc → run es sc = Some sc' →
  i + 2 ≤ n → seq base n !! i = Some l →
  heap sc !! l = Some p → pinned p = true →
  heap sc' !! l = Some p.
Proof.
  induction es as [|e es IH]; intros sc sc' Hinv Hrun Hi Hl Hp Hpin;
    simpl in Hrun; [by injection Hrun as <- |].
  destruct (step e sc) as [sc1|] eqn:E; simpl in Hrun; [| done].
  apply (IH sc1 sc'); [by eapply step_inv | done | done | done | | done].
  by eapply step_keeps_inner_pins.
Qed.

(** While nothing is dragged, a passive event keeps every pinned point,
    the end point included. *)
Lemma idle_step_kept e sc sc' :
  SceneInv base n sc → isDragging (drag sc) = false →
  passive e = true → step e sc = Some sc' →
  pins_kept (heap sc) (heap sc') ∧ drag sc' = drag sc ∧
  mount sc' = mount sc ∧ rope sc' = rope sc.
Proof.
  intros Hinv Hd Hpas Hstep. destruct e; simpl in *; try done.
  - destruct (render_steps _ _ _ _ Hstep) as [[_ ->] | (sc1 & sc2 & E1 & E2 & E3)];
      [split; [apply pins_kept_refl | done] |].
    rewrite snag_idle in E1 by done. injection E1 as <-.
    rewrite winch_idle in E2 by done. injection E2 as <-.
    by eapply physics_kept.
  - injection Hstep as <-. split; [apply pins_kept_refl | done].
  - by eapply snag_kept.
  - rewrite winch_idle in Hstep by done. injection Hstep as <-.
    split; [apply pins_kept_refl | done].
  - by eapply physics_kept.
Qed.

Lemma idle_run_kept es : ∀ sc sc',
  SceneInv base n sc → isDragging (drag sc) = false →
  forallb passive es = true → run es sc = Some sc' →
  pins_kept (heap sc) (heap sc') ∧ drag sc' = drag sc ∧
  mount sc' = mount sc ∧ rope sc' = rope sc.
Proof.
  induction es as [|e es IH]; intros sc sc' Hinv Hd Hpas Hrun;
    simpl in Hrun, Hpas.
  - injection Hrun as <-. split; [apply pins_kept_refl | done].
  - apply andb_prop in Hpas as [Hpe Hpes].
    destruct (step e sc) as [sc1|] eqn:E; simpl in Hrun; [| done].
    destruct (idle_step_kept e sc sc1 Hinv Hd Hpe E) as (K1 & D1 & M1 & R1).
    destruct (IH sc1 sc') as (K2 & D2 & M2 & R2);
      [by eapply step_inv | by rewrite D1 | done | done |].
    split; [by eapply pins_kept_trans |]. repeat split; congruence.
Qed.

End PinnedForever.

(** X5. A pinned point other than the end point is pinned for good: in a
    reachable scene, no sequence of frames, pointer events, impulses and
    single phases moves it, changes its previous position or unpins it
    (only the end point is ever unpinned, by pointer-up, so a point
    snagged on the peg stays there even after the peg is moved). *)
Theorem inner_pinned_points_are_permanent (N : JSNumber) (sc : Scene)
    (sys : RopeSystem) (i : nat) (l : loc) (p : Point) (es : list Event)
    (sc' : Scene) :
  reachable sc → rope sc = Some sys →
  points sys !! i = Some l → i + 2 ≤ length (points sys) →
  heap sc !! l = Some p → pinned p = true →
  run es sc = Some sc' →
  heap sc' !! l = Some p.
Proof.
  intros Hreach Hr Hl Hi Hp Hpin Hrun.
  destruct (reachable_inv sc Hreach) as (base & n & Hn & Hinv).
  pose proof Hinv as [(sys0 & Hr0 & Hpts & _) _ _].
  assert (sys0 = sys) as -> by congruence.
  rewrite Hpts in Hl. rewrite Hpts, length_seq in Hi.
  by eapply (run_keeps_inner_pins base n Hn es i l p sc sc').
Qed.

(** X6. While nothing is dragged, frames and pointer moves never move a
    pinned point, the end point included: in a reachable idle scene any
    sequence of frames, pointer moves and single [render] phases returns,
    leaves every pinned point object unchanged, and leaves the drag state,
    the peg and the rope as they were.  So a bulb secured on the peg hangs
    there until it is grabbed again. *)
Theorem idle_frames_keep_pinned_points (N : JSNumber) (sc : Scene)
    (es : list Event) :
  reachable sc → isDragging (drag sc) = false →
  forallb passive es = true →
  ∃ sc', run es sc = Some sc' ∧
         drag sc' = drag sc ∧ mount sc' = mount sc ∧ rope sc' = rope sc ∧
         length (heap sc') = length (heap sc) ∧
         ∀ l p, heap sc !! l = Some p → pinned p = true →
                heap sc' !! l = Some p.
Proof.
  intros Hreach Hd Hpas.
  destruct (reachable_inv sc Hreach) as (base & n & Hn & Hinv).
  destruct (run_total base n Hn es sc Hinv) as (sc' & E & _).
  destruct (idle_run_kept base n es sc sc' Hinv Hd Hpas E)
    as ((L & K) & D & M & R).
  exists sc'. by repeat split.
Qed.

Lemma inner_pinned_points_are_permanent_witness :
  let sc := demoAfter demoDrag in
  let es := [ PointerUp; PointerDown (lit 300) (lit 300) true;
              Frame (lit 1000) (lit 600); Frame (lit 1000) (lit 600) ] in
  reachable sc ∧
  heap sc !! 2
  = Some (@mkPoint FloatNumber 700%float 15%float 700%float 15%float true) ∧
  is_Some (run es sc) ∧
  heap (default sc (run es sc)) !! 2
  = Some (@mkPoint FloatNumber 700%float 15%float 700%float 15%float true).
Proof.
  intros sc es.
  assert (Hreach : reachable sc).
  { apply demoAfter_reachable. vm_compute. by eexists. }
  assert (Hp : heap sc !! 2 = Some (@mkPoint FloatNumber 700%float 15%float
                                      700%float 15%float true))
    by (vm_compute; reflexivity).
  assert (Hrun : run es sc = Some (default sc (run es sc)))
    by (vm_compute; reflexivity).
  split; [exact Hreach |]. split; [exact Hp |].
  split; [by rewrite Hrun |].
  assert (Hr : ∃ sys, rope sc = Some sys ∧ points sys !! 2 = Some 2 ∧
                      2 + 2 ≤ length (points sys)).
  { eexists. split; [vm_compute; reflexivity |].
    split; [reflexivity | simpl; lia]. }
  destruct Hr as (sys & Hr & Hl & Hi).
  exact (inner_pinned_points_are_permanent FloatNumber sc sys 2 2 _ es _
           Hreach Hr Hl Hi Hp eq_refl Hrun).
Defined.

Lemma idle_frames_keep_pinned_points_witness :
  let sc := demoAfter (demoDrag ++ [PointerUp]) in
  let es := [ Frame (lit 1000) (lit 600); PointerMove (lit 10) (lit 10);
              Frame (lit 1000) (lit 600) ] in
  reachable sc ∧ isDragging (drag sc) = false ∧
  heap sc !! 4
  = Some (@mkPoint FloatNumber 700%float 15%float 720%float 30%float true) ∧
  ∃ sc', run es sc = Some sc' ∧
         heap sc' !! 4
         = Some (@mkPoint FloatNumber 700%float 15%float 720%float 30%float
                          true).
Proof.
  intros sc es.
  assert (Hreach : reachable sc).
  { apply demoAfter_reachable. vm_compute. by eexists. }
  assert (Hp : heap sc !! 4 = Some (@mkPoint FloatNumber 700%float 15%float
                                      720%float 30%float true))
    by (vm_compute; reflexivity).
  split; [exact Hreach |]. split; [reflexivity |]. split; [exact Hp |].
  destruct (idle_frames_keep_pinned_points FloatNumber sc es Hreach
              eq_refl eq_refl)
    as (sc' & E & _ & _ & _ & _ & K).
  exists sc'. split; [exact E |]. by apply K.
Defined.

(** ** The collision box *)

Lemma float_ltb_irrefl (a : float) : @nlt FloatNumber a a = false.
Proof.
  change (PrimFloat.ltb a a = false). rewrite FloatAxioms.ltb_spec.
  unfold SFltb, SFcompare.
  destruct (Prim2SF a) as [sg | sg | | sg m e]; try done.
  - by destruct sg.
  - rewrite Z.compare_refl, Pos.compare_cont_refl. by destruct sg.
Qed.

Lemma Rltb_irrefl (a : R) : @nlt RealNumber a a = false.
Proof.
  simpl. unfold Rltb. destruct (Rlt_dec a a) as [Hlt | _]; [| done].
  by apply Rlt_irrefl in Hlt.
Qed.

(** X7. When the integration loop of [updatePhysics] is done, every
    unpinned point of the rope is inside the collision box of its radius
    [r]: [y > height - r], [x < r] and [x > width - r] are all false,
    provided the right wall is not left of the left wall
    ([width - r < r] is false) and [<] is irreflexive, as it is on doubles
    and on reals.  (The relaxation that follows does not test the box.) *)
Theorem integration_ends_inside_the_box (N : JSNumber) (sys : RopeSystem)
    (width height bulbRadius : num) (h : Heap) (i : nat) (l : loc)
    (p : Point) :
  (∀ a : num, nlt a a = false) →
  NoDup (points sys) → wf_points h (points sys) →
  points sys !! i = Some l → h !! l = Some p → pinned p = false →
  let r := if Nat.eqb i (length (points sys) - 1) then bulbRadius
           else lit 0 in
  nlt (nsub width r) r = false →
  ∃ g q, integrate sys width height bulbRadius h = Some g ∧
         g !! l = Some q ∧
         nlt (nsub height r) (y q) = false ∧
         nlt (x q) r = false ∧
         nlt (nsub width r) (x q) = false.
Proof.
  intros Hirr Hnd Hwf Hl Hp Hpin r Hwalls.
  destruct (integrate_lookup sys width height bulbRadius h i l p)
    as (g & E & Hg); [done | done | done | done |].
  exists g. eexists. split; [done |]. split; [exact Hg |].
  unfold integrateF. rewrite Hpin. fold (radiusAt bulbRadius (length (points sys)) i).
  change (radiusAt bulbRadius (length (points sys)) i) with r.
  unfold movePoint.
  set (f := collideFloor height r (verlet p)).
  assert (Hy : nlt (nsub height r) (y f) = false).
  { subst f. unfold collideFloor.
    destruct (nlt (nsub height r) (y (verlet p))) eqn:Hc; [apply Hirr | done]. }
  unfold collideWalls.
  destruct (nlt (x f) r) eqn:Hleft; simpl.
  - split; [done |]. split; [apply Hirr | done].
  - destruct (nlt (nsub width r) (x f)) eqn:Hright; simpl.
    + split; [done |]. split; [done | apply Hirr].
    + by repeat split.
Qed.

Lemma integration_ends_inside_the_box_witness :
  let p3 := @mkPoint FloatNumber 0%float 30%float 0%float 30%float false in
  (∀ a : float, @nlt FloatNumber a a = false) ∧
  (∀ a : R, @nlt RealNumber a a = false) ∧
  NoDup (points demoRope.2) ∧ wf_points demoRope.1 (points demoRope.2) ∧
  demoRope.1 !! 3 = Some p3 ∧
  (∃ g q, integrate (N := FloatNumber) demoRope.2 (lit 1000) (lit 25) (lit 0)
                    demoRope.1 = Some g ∧
          g !! 3 = Some q ∧ y q = 25%float) ∧
  (∃ g q, updatePhysics (N := FloatNumber) demoRope.2 (lit 1000) (lit 25)
                        (lit 0) demoRope.1 = Some g ∧
          g !! 3 = Some q ∧ @nlt FloatNumber 25%float (y q) = true).
Proof.
  intros p3.
  assert (Hnd : NoDup (points demoRope.2)) by apply NoDup_seq.
  assert (Hwf : wf_points demoRope.1 (points demoRope.2))
    by apply createRope_wf.
  split; [exact float_ltb_irrefl |]. split; [exact Rltb_irrefl |].
  split; [exact Hnd |]. split; [exact Hwf |]. split; [reflexivity |].
  split.
  - destruct (integration_ends_inside_the_box FloatNumber demoRope.2
                (lit 1000) (lit 25) (lit 0) demoRope.1 3 3 p3
                float_ltb_irrefl Hnd Hwf eq_refl eq_refl eq_refl eq_refl)
      as (g & q & E & Hq & _).
    exists g, q. split; [exact E |]. split; [exact Hq |].
    assert (Hg : Some g = integrate (N := FloatNumber) demoRope.2 (lit 1000)
                            (lit 25) (lit 0) demoRope.1)
      by (symmetry; exact E).
    vm_compute in Hg. injection Hg as ->.
    vm_compute in Hq. injection Hq as <-. reflexivity.
  - eexists. eexists. split; [vm_compute; reflexivity |].
    split; [reflexivity |]. vm_compute. reflexivity.
Defined.

(** ** The integrator's velocity law *)

Section ExactVerlet.
Context {N : JSNumber}.
Hypothesis Hexact : ExactArith N.
Local Open Scope num_scope.

Let verlet_rt : ring_theory (R := num) (lit 0) (lit 1) nadd nmul nsub
                            (fun a => nsub (lit 0) a) eq := Hexact.

Add Ring verlet_ring : verlet_rt.

Lemma exact_verlet_y (b v c : num) : ((b + v) + c) - b = v + c.
Proof. ring. Qed.

Lemma exact_rest_x (b f : num) : b + (b - b) * f = b.
Proof. ring. Qed.

Lemma exact_rest_y (b f c : num) : (b + (b - b) * f) + c = b + c.
Proof. ring. Qed.

Lemma exact_sub_back (a d : num) : a - (a - d) = d.
Proof. ring. Qed.

End ExactVerlet.

(** X8. The Verlet step of an unpinned point that hits neither the floor
    nor a wall: the previous position becomes the old current position,
    and in exact arithmetic the new velocity is the old one times
    [FRICTION], plus [GRAVITY] downwards; a point at rest just falls by
    [GRAVITY] and keeps its [x]. *)
Theorem verlet_velocity_law (N : JSNumber) (sys : RopeSystem)
    (width height bulbRadius : num) (h : Heap) (i : nat) (l : loc)
    (p : Point) :
  ExactArith N →
  NoDup (points sys) → wf_points h (points sys) →
  points sys !! i = Some l → h !! l = Some p → pinned p = false →
  let r := if Nat.eqb i (length (points sys) - 1) then bulbRadius
           else lit 0 in
  nlt (nsub height r) (y (verlet p)) = false →
  nlt (x (verlet p)) r = false →
  nlt (nsub width r) (x (verlet p)) = false →
  ∃ g q, integrate sys width height bulbRadius h = Some g ∧
         g !! l = Some q ∧
         oldx q = x p ∧ oldy q = y p ∧ pinned q = false ∧
         nsub (x q) (oldx q) = nmul (nsub (x p) (oldx p)) FRICTION ∧
         nsub (y q) (oldy q)
         = nadd (nmul (nsub (y p) (oldy p)) FRICTION) GRAVITY ∧
         (oldx p = x p → oldy p = y p →
          x q = x p ∧ y q = nadd (y p) GRAVITY).
Proof.
  intros Hex Hnd Hwf Hl Hp Hpin r Hfloor Hleft Hright.
  destruct (integrate_lookup sys width height bulbRadius h i l p)
    as (g & E & Hg); [done | done | done | done |].
  exists g, (verlet p). split; [done |]. split.
  { rewrite Hg. unfold integrateF. rewrite Hpin. f_equal.
    change (radiusAt bulbRadius (length (points sys)) i) with r.
    unfold movePoint, collideFloor. rewrite Hfloor.
    unfold collideWalls. by rewrite Hleft, Hright. }
  simpl. split; [done |]. split; [done |]. split; [done |].
  split; [apply (exact_add_sub Hex) |].
  split; [apply (exact_verlet_y Hex) |].
  intros -> ->. split; [apply (exact_rest_x Hex) | apply (exact_rest_y Hex)].
Qed.

Lemma verlet_velocity_law_witness :
  let p := @mkPoint RealNumber 5%R 30%R 4%R 29%R false in
  let sys := @mkRope RealNumber [0; 1] [] 600 in
  ExactArith RealNumber ∧
  @nlt RealNumber (@nsub RealNumber 1000%R (lit 0)) (y (verlet p)) = false ∧
  ∃ g q, integrate sys 1000%R 1000%R 30%R [p; p] = Some g ∧
         g !! 0 = Some q ∧
         @nsub RealNumber (y q) (oldy q)
         = @nadd RealNumber (@nmul RealNumber (@nsub RealNumber 30%R 29%R)
                                              FRICTION) GRAVITY.
Proof.
  intros p sys.
  assert (Hnd : NoDup (points sys)) by (apply (NoDup_seq 0 2)).
  assert (Hwf : wf_points [p; p] (points sys)).
  { intros j l0 Hl0. apply lookup_lt_Some in Hl0 as Hj.
    destruct j as [|[|j]]; simpl in *; try lia;
      injection Hl0 as <-; simpl; lia. }
  assert (Hfloor : @nlt RealNumber (@nsub RealNumber 1000%R (lit 0))
                                   (y (verlet p)) = false).
  { apply Rltb_false. simpl. unfold GRAVITY, FRICTION. simpl.
    unfold Q2R. simpl. lra. }
  assert (Hleft : @nlt RealNumber (x (verlet p)) (lit 0) = false).
  { apply Rltb_false. simpl. unfold FRICTION. simpl. unfold Q2R. simpl. lra. }
  assert (Hright : @nlt RealNumber (@nsub RealNumber 1000%R (lit 0))
                                   (x (verlet p)) = false).
  { apply Rltb_false. simpl. unfold FRICTION. simpl. unfold Q2R. simpl. lra. }
  split; [exact RealNumber_exact |]. split; [exact Hfloor |].
  destruct (verlet_velocity_law RealNumber sys 1000%R 1000%R 30%R [p; p] 0 0 p
              RealNumber_exact Hnd Hwf eq_refl eq_refl eq_refl
              Hfloor Hleft Hright)
    as (g & q & E & Hq & _ & _ & _ & _ & Hvy & _).
  exists g, q. split; [exact E |]. split; [exact Hq |]. exact Hvy.
Defined.

(** ** One relaxation step in exact real arithmetic *)

Lemma Q2R_2 : Q2R 2 = 2%R.
Proof. unfold Q2R. simpl. lra. Qed.

Lemma Reqb_false (a b : R) : Reqb a b = false → a ≠ b.
Proof. unfold Reqb. by destruct (Req_dec_T a b). Qed.

Lemma R_scaled_norm (dx dy L : R) :
  sqrt (dx * dx + dy * dy) ≠ 0%R → (0 <= L)%R →
  let k := (L / sqrt (dx * dx + dy * dy))%R in
  sqrt ((dx * k) * (dx * k) + (dy * k) * (dy * k)) = L.
Proof.
  intros Hd HL k. set (d := sqrt (dx * dx + dy * dy)) in *.
  assert (Hdd : (d * d = dx * dx + dy * dy)%R) by (apply sqrt_sqrt; nra).
  replace ((dx * k) * (dx * k) + (dy * k) * (dy * k))%R
    with (k * k * (dx * dx + dy * dy))%R by ring.
  rewrite <- Hdd. subst k.
  replace (L / d * (L / d) * (d * d))%R with (L * L)%R by (by field).
  by apply sqrt_square.
Qed.

Lemma moveBy_zero (b : @Point RealNumber) (u v : R) :
  u = 0%R → v = 0%R → @moveBy RealNumber u v b = b.
Proof.
  intros -> ->. destruct b. unfold moveBy. cbn. by rewrite !Rplus_0_r.
Qed.

Lemma moveBack_zero (a : @Point RealNumber) (u v : R) :
  u = 0%R → v = 0%R → @moveBack RealNumber u v a = a.
Proof.
  intros -> ->. destruct a. unfold moveBack. cbn. by rewrite !Rminus_0_r.
Qed.

Lemma resolveStick_satisfied (s : @Stick RealNumber)
    (h : list (@Point RealNumber)) (a b : @Point RealNumber) :
  h !! p1 s = Some a → h !! p2 s = Some b →
  distance a b = stick_length s →
  resolveStick s h = Some h.
Proof.
  intros Ha Hb Hd. unfold resolveStick. rewrite Ha, Hb. simpl.
  unfold distance in Hd. simpl in Hd. rewrite Hd.
  destruct (Reqb _ _); [done |].
  assert (Hz : ∀ c : R,
    (c * ((stick_length s - stick_length s) / stick_length s / Q2R 2)
     = 0)%R) by (intros c; unfold Rdiv; ring).
  assert (Hz2 : ∀ c : R,
    (c * ((stick_length s - stick_length s) / stick_length s / Q2R 2)
       * Q2R 2 = 0)%R) by (intros c; unfold Rdiv; ring).
  destruct (pinned a), (pinned b); simpl; try done.
  - rewrite moveBy_zero by apply Hz2. by rewrite list_insert_id.
  - rewrite moveBack_zero by apply Hz2. by rewrite list_insert_id.
  - rewrite moveBack_zero by apply Hz. rewrite list_insert_id by done.
    rewrite Hb. simpl. rewrite moveBy_zero by apply Hz.
    by rewrite list_insert_id.
Qed.

Lemma distance_after (a b a' b' : @Point RealNumber) (L : R) :
  distance a b ≠ 0%R → (0 <= L)%R →
  (x b' - x a' = (x b - x a) * (L / distance a b))%R →
  (y b' - y a' = (y b - y a) * (L / distance a b))%R →
  distance a' b' = L.
Proof.
  unfold distance. cbn. intros Hd HL -> ->. by apply R_scaled_norm.
Qed.

(** X9. In exact real arithmetic one call of [resolveStick] on a stick
    with two distinct end points that are not both pinned and do not
    coincide puts the end points exactly [length] apart, whichever of the
    three branches moves them; calling it again then changes nothing. *)
Theorem resolveStick_reaches_target_length
    (s : @Stick RealNumber) (h : list (@Point RealNumber))
    (a b : @Point RealNumber) :
  h !! p1 s = Some a → h !! p2 s = Some b → p1 s ≠ p2 s →
  @neq RealNumber (distance a b) (lit 0) = false →
  (0 <= stick_length s)%R →
  pinned a && pinned b = false →
  ∃ g a' b', resolveStick s h = Some g ∧
             g !! p1 s = Some a' ∧ g !! p2 s = Some b' ∧
             distance a' b' = stick_length s ∧
             resolveStick s g = Some g.
Proof.
  intros Ha Hb Hne Hd HL Hpin.
  assert (Hlt1 : p1 s < length h) by (by eapply lookup_lt_Some).
  assert (Hlt2 : p2 s < length h) by (by eapply lookup_lt_Some).
  assert (Hd0 : distance a b ≠ 0%R).
  { apply Reqb_false in Hd. simpl in Hd. by rewrite Q2R_0 in Hd. }
  assert (Hres : ∀ g a' b',
    resolveStick s h = Some g →
    g !! p1 s = Some a' → g !! p2 s = Some b' →
    (x b' - x a' = (x b - x a) * (stick_length s / distance a b))%R →
    (y b' - y a' = (y b - y a) * (stick_length s / distance a b))%R →
    ∃ g a' b', resolveStick s h = Some g ∧
               g !! p1 s = Some a' ∧ g !! p2 s = Some b' ∧
               distance a' b' = stick_length s ∧
               resolveStick s g = Some g).
  { intros g a' b' E Ha' Hb' Hx Hy.
    assert (Hdist : distance a' b' = stick_length s)
      by (by apply (distance_after a b)).
    exists g, a', b'. repeat split; try done.
    by apply (resolveStick_satisfied s g a' b'). }
  assert (E : resolveStick s h =
    let pc := ((stick_length s - distance a b) / distance a b / 2)%R in
    let ox := ((x b - x a) * pc)%R in
    let oy := ((y b - y a) * pc)%R in
    if pinned a && negb (pinned b) then
      Some (<[p2 s := @moveBy RealNumber (ox * 2)%R (oy * 2)%R b]> h)
    else if negb (pinned a) && pinned b then
      Some (<[p1 s := @moveBack RealNumber (ox * 2)%R (oy * 2)%R a]> h)
    else
      Some (<[p2 s := @moveBy RealNumber ox oy b]>
              (<[p1 s := @moveBack RealNumber ox oy a]> h))).
  { unfold resolveStick. rewrite Ha, Hb. cbn.
    change (sqrt ((x b - x a) * (x b - x a) + (y b - y a) * (y b - y a)))
      with (distance a b).
    assert (Hd' : Reqb (distance a b) (Q2R 0) = false) by exact Hd.
    rewrite Hd'. rewrite Q2R_2.
    destruct (pinned a), (pinned b); cbn; try done.
    rewrite list_lookup_insert_ne by done. by rewrite Hb. }
  cbn zeta in E.
  destruct (pinned a) eqn:Pa, (pinned b) eqn:Pb; cbn in E; try done.
  - eapply Hres; [exact E | | | |].
    + by rewrite list_lookup_insert_ne.
    + by rewrite list_lookup_insert_eq.
    + cbn. by field.
    + cbn. by field.
  - eapply Hres; [exact E | | | |].
    + by rewrite list_lookup_insert_eq.
    + by rewrite list_lookup_insert_ne.
    + cbn. by field.
    + cbn. by field.
  - eapply Hres; [exact E | | | |].
    + rewrite list_lookup_insert_ne by done.
      by rewrite list_lookup_insert_eq.
    + rewrite list_lookup_insert_eq; [done |].
      by rewrite length_insert.
    + cbn. by field.
    + cbn. by field.
Qed.

Lemma resolveStick_reaches_target_length_witness :
  let a := @mkPoint RealNumber 0%R 0%R 0%R 0%R true in
  let b := @mkPoint RealNumber 0%R 5%R 0%R 5%R false in
  let s := @mkStick RealNumber 0 1 10%R in
  @neq RealNumber (distance a b) (lit 0) = false ∧
  ∃ g a' b', resolveStick s [a; b] = Some g ∧
             g !! 0 = Some a' ∧ g !! 1 = Some b' ∧
             distance a' b' = 10%R.
Proof.
  intros a b s.
  assert (Hd : @neq RealNumber (distance a b) (lit 0) = false).
  { unfold distance. cbn. unfold Reqb.
    destruct (Req_dec_T _ _) as [e |]; [exfalso | done].
    rewrite Q2R_0 in e. apply sqrt_eq_0 in e; lra. }
  split; [exact Hd |].
  destruct (resolveStick_reaches_target_length s [a; b] a b
              eq_refl eq_refl) as (g & a' & b' & E & Ha' & Hb' & Hlen & _).
  - simpl. lia.
  - exact Hd.
  - simpl. lra.
  - reflexivity.
  - exists g, a', b'. repeat split; assumption.
Defined.

(** ** The winch in exact real arithmetic *)

Lemma of_nat_INR (i : nat) : @of_nat RealNumber i = INR i.
Proof.
  unfold of_nat. cbn. unfold Q2R. cbn.
  rewrite Rinv_1, Rmult_1_r. symmetry. apply INR_IZR_INZ.
Qed.

Lemma R_scale_norm (dx dy c : R) :
  (0 <= c)%R →
  sqrt ((dx * c) * (dx * c) + (dy * c) * (dy * c))
  = (sqrt (dx * dx + dy * dy) * c)%R.
Proof.
  intros Hc.
  replace ((dx * c) * (dx * c) + (dy * c) * (dy * c))%R
    with ((dx * dx + dy * dy) * (c * c))%R by ring.
  rewrite sqrt_mult by nra. by rewrite sqrt_square.
Qed.

Lemma distance_step (a' b' : @Point RealNumber) (dx dy c : R) :
  (0 <= c)%R →
  (x b' - x a' = dx * c)%R → (y b' - y a' = dy * c)%R →
  distance a' b' = (sqrt (dx * dx + dy * dy) * c)%R.
Proof.
  unfold distance. cbn. intros Hc -> ->. by apply R_scale_norm.
Qed.

Lemma winchF_step (a p q : @Point RealNumber) (dx dy : R)
    (ai n k j : nat) :
  0 < n →
  let c := (1 / INR n)%R in
  (0 <= c)%R ∧
  (x (winchF a dx dy ai n k (S j) q) - x (winchF a dx dy ai n k j p)
   = dx * c)%R ∧
  (y (winchF a dx dy ai n k (S j) q) - y (winchF a dx dy ai n k j p)
   = dy * c)%R ∧
  (x (winchF a dx dy ai n k 1 q) - x a = dx * c)%R ∧
  (y (winchF a dx dy ai n k 1 q) - y a = dy * c)%R ∧
  x (winchF a dx dy ai n k n q) = (x a + dx)%R ∧
  y (winchF a dx dy ai n k n q) = (y a + dy)%R.
Proof.
  intros Hn c.
  assert (Hpos : (0 < INR n)%R) by (apply lt_0_INR; lia).
  assert (Hne : INR n ≠ 0%R) by lra.
  unfold winchF. rewrite !of_nat_INR, S_INR. cbn -[INR].
  change (INR 1) with 1%R.
  repeat split; try (subst c; by field).
  subst c. apply Rlt_le. apply Rdiv_lt_0_compat; lra.
Qed.

(** X10. In exact real arithmetic the winch leaves no spring in the rope:
    after it every stick from the anchor on joins two points that are
    exactly the stick's new length apart, so that [resolveStick] on such
    a stick changes nothing, and the last point is at the pointer. *)
Theorem winch_leaves_active_sticks_satisfied
    (sc : @Scene RealNumber) (sys : @RopeSystem RealNumber) (k : nat) :
  rope sc = Some sys →
  isDragging (drag sc) = true → pointIndex (drag sc) = Some k →
  NoDup (points sys) → wf_points (heap sc) (points sys) → chain sys →
  2 ≤ length (points sys) →
  ∃ ai sc' sys',
    findAnchor (points sys) (heap sc) = Some ai ∧
    winch sc = Some sc' ∧ rope sc' = Some sys' ∧
    (∀ i st, ai ≤ i → sticks sys' !! i = Some st →
       ∃ a' b', heap sc' !! p1 st = Some a' ∧
                heap sc' !! p2 st = Some b' ∧
                distance a' b' = stick_length st ∧
                resolveStick st (heap sc') = Some (heap sc')) ∧
    (∃ l q, points sys !! (length (points sys) - 1) = Some l ∧
            heap sc' !! l = Some q ∧
            x q = cx (mouse sc) ∧ y q = cy (mouse sc)).
Proof.
  intros Hr Hdr Hk Hnd Hwf [Hlen Hch] Hpts.
  destruct (winch_spec sc sys k Hr Hdr Hk Hnd Hwf)
    as (ai & anchor & a & Ea & Hanc & Hanchor & Ha & _ & Hpos); [lia |].
  assert (Hai : ai + 2 ≤ length (points sys)) by (destruct Hanc; lia).
  set (n := length (points sys) - 1 - ai) in *.
  assert (Hn : 0 < n) by (subst n; lia).
  destruct (Hpos Hn) as (g & Ew & Lg & Hin & Hout). clear Hpos.
  set (dx := @nsub RealNumber (cx (mouse sc)) (x a)) in *.
  set (dy := @nsub RealNumber (cy (mouse sc)) (y a)) in *.
  eexists ai, _, _. split; [done |]. split; [exact Ew |].
  split; [done |]. cbn [heap sticks]. split.
  - intros i st Hi Hst.
    assert (Hlt : i < length (sticks sys)).
    { apply lookup_lt_Some in Hst.
      by rewrite setLengthFrom_length in Hst. }
    destruct (lookup_lt_is_Some_2 _ _ Hlt) as [st0 Hst0].
    rewrite (setLengthFrom_lookup _ _ _ _ _ Hst0) in Hst.
    destruct (Nat.leb_spec ai i); [| lia]. injection Hst as <-.
    destruct (Hch _ _ Hst0) as [H1 H2]. cbn [p1 p2 stick_length setLength].
    destruct (lookup_lt_is_Some_2 _ _ (Hwf _ _ H1)) as [pa Hpa].
    destruct (lookup_lt_is_Some_2 _ _ (Hwf _ _ H2)) as [pb Hpb].
    assert (Hb : g !! p2 st0
                 = Some (winchF a dx dy ai n k (S (i - ai)) pb)).
    { apply Hin; [subst n; lia | | done].
      by replace (ai + S (i - ai)) with (i + 1) by lia. }
    destruct (winchF_step a pa pb dx dy ai n k (i - ai) Hn)
      as (Hc & Hx & Hy & Hx0 & Hy0 & _).
    assert (Hsat : ∀ a' b',
      g !! p1 st0 = Some a' → g !! p2 st0 = Some b' →
      (x b' - x a' = dx * (1 / INR n))%R →
      (y b' - y a' = dy * (1 / INR n))%R →
      ∃ a' b', g !! p1 st0 = Some a' ∧ g !! p2 st0 = Some b' ∧
        distance a' b'
        = @ndiv RealNumber
            (@nsqrt RealNumber
               (@nadd RealNumber (@nmul RealNumber dx dx)
                                 (@nmul RealNumber dy dy)))
            (of_nat n) ∧
        resolveStick (setLength
          (@ndiv RealNumber
            (@nsqrt RealNumber
               (@nadd RealNumber (@nmul RealNumber dx dx)
                                 (@nmul RealNumber dy dy)))
            (of_nat n)) st0) g = Some g).
    { intros a' b' Ha' Hb' Ex Ey.
      assert (Hdist : distance a' b'
        = @ndiv RealNumber
            (@nsqrt RealNumber
               (@nadd RealNumber (@nmul RealNumber dx dx)
                                 (@nmul RealNumber dy dy)))
            (of_nat n)).
      { rewrite (distance_step a' b' dx dy _ Hc Ex Ey).
        rewrite of_nat_INR. cbn -[INR]. unfold Rdiv. ring. }
      exists a', b'. do 3 (split; [done |]).
      by apply (resolveStick_satisfied _ g a' b'). }
    destruct (decide (i = ai)) as [-> | Hne].
    + assert (p1 st0 = anchor) by congruence. subst anchor.
      apply (Hsat a (winchF a dx dy ai n k (S (ai - ai)) pb));
        [| done | |].
      * rewrite Hout; [done |]. intros j Hj Hl.
        pose proof (NoDup_lookup _ _ _ _ Hnd Hl H1). lia.
      * replace (ai - ai) with 0 by lia. exact Hx0.
      * replace (ai - ai) with 0 by lia. exact Hy0.
    + apply (Hsat (winchF a dx dy ai n k (i - ai) pa)
                  (winchF a dx dy ai n k (S (i - ai)) pb)); try done.
      apply Hin; [subst n; lia | | done].
      by replace (ai + (i - ai)) with i by lia.
  - assert (Hl : length (points sys) - 1 < length (points sys)) by lia.
    destruct (lookup_lt_is_Some_2 _ _ Hl) as [l El].
    destruct (lookup_lt_is_Some_2 _ _ (Hwf _ _ El)) as [p Hp].
    destruct (winchF_step a p p dx dy ai n k 0 Hn)
      as (_ & _ & _ & _ & _ & Hxn & Hyn).
    exists l, (winchF a dx dy ai n k n p). split; [done |]. split.
    + apply Hin; [lia | | done].
      by replace (ai + n) with (length (points sys) - 1) by (subst n; lia).
    + rewrite Hxn, Hyn. subst dx dy. cbn. split; ring.
Qed.

Lemma winch_leaves_active_sticks_satisfied_witness :
  let pt := fun v : R => @mkPoint RealNumber 0%R v 0%R v false in
  let sys := @mkRope RealNumber [0; 1; 2]
               [@mkStick RealNumber 0 1 1%R; @mkStick RealNumber 1 2 1%R]
               600 in
  let sc := @mkScene RealNumber [pt 0%R; pt 1%R; pt 2%R] (Some sys)
              (mkDrag true (Some 2)) (@mkCoord RealNumber 3%R 4%R) None in
  ∃ sc' q, winch sc = Some sc' ∧ heap sc' !! 2 = Some q ∧
           x q = 3%R ∧ y q = 4%R.
Proof.
  intros pt sys sc.
  assert (Hnd : NoDup (points sys)) by (apply (NoDup_seq 0 3)).
  assert (Hwf : wf_points (heap sc) (points sys)).
  { intros j l Hl. apply lookup_lt_Some in Hl as Hj.
    destruct j as [|[|[|j]]]; simpl in *; try lia;
      injection Hl as <-; simpl; lia. }
  assert (Hch : chain sys).
  { split; [reflexivity |]. intros i st Hst.
    destruct i as [|[|i]]; simpl in Hst; try done;
      injection Hst as <-; by split. }
  destruct (winch_leaves_active_sticks_satisfied sc sys 2
              eq_refl eq_refl eq_refl Hnd Hwf Hch)
    as (ai & sc' & sys' & _ & Ew & _ & _ & l & q & El & Hq & Hx & Hy).
  - simpl. lia.
  - injection El as <-. exists sc', q. repeat split; assumption.
Defined.

(** ** The tied loop on the peg *)

Lemma somePoint_true `{JSNumber} (f : Point → bool) (h : Heap) :
  ∀ (pts : list loc) (i : nat) (l : loc) (p : Point),
    wf_points h pts → pts !! i = Some l → h !! l = Some p → f p = true →
    somePoint f pts h = Some true.
Proof.
  induction pts as [|l0 rest IH]; intros i l p Hwf Hl Hp Hf; [done |].
  simpl. destruct (lookup_lt_is_Some_2 h l0) as [p0 Hp0];
    [by apply (Hwf 0) |].
  rewrite Hp0. simpl. destruct (f p0) eqn:Ef; [done |].
  destruct i as [|i]; simpl in Hl.
  - injection Hl as ->. congruence.
  - apply (IH i l p); try done. intros j l' Hj. by apply (Hwf (S j)).
Qed.

Lemma winch_mount `{JSNumber} (sc sc' : Scene) :
  winch sc = Some sc' → mount sc' = mount sc.
Proof.
  unfold winch. destruct (rope sc); [| by intros [= <-]].
  destruct (pointIndex (drag sc)); [| by intros [= <-]].
  destruct (isDragging (drag sc)); [| by intros [= <-]].
  destruct (winchRope _ _ _ _) as [[h' sys']|]; simpl; [| done].
  by intros [= <-].
Qed.

Lemma render_shows_snag `{JSNumber} (nabs : num → num) (sc : Scene)
    (sys : RopeSystem) (ax ay : num) (i : nat) (l : loc) (p : Point)
    (width height : num) :
  atPeg nabs ax ay (snagged ax ay) = true →
  reachable sc → rope sc = Some sys →
  isDragging (drag sc) = true → mount sc = Some {| cx := ax; cy := ay |} →
  points sys !! i = Some l → i + 2 ≤ length (points sys) →
  heap sc !! l = Some p → pinned p = false →
  nlt (hypot (nsub (x p) ax) (nsub (y p) ay)) SNAG_THRESHOLD = true →
  ∃ sc', render width height sc = Some sc' ∧
         heap sc' !! l = Some (snagged ax ay) ∧
         isSnagged nabs sc' = Some true.
Proof.
  intros Hpeg Hreach Hr Hdr Hm Hl Hi Hp Hpin Hnear.
  destruct (reachable_inv sc Hreach) as (base & n & Hn & Hinv).
  pose proof (SceneInv_wf_points _ _ _ Hinv) as Hwf.
  destruct (Hinv) as [(sys' & Hr' & Hpts & _) _ _].
  assert (sys' = sys) as -> by congruence.
  assert (Hnd : NoDup (points sys)) by (rewrite Hpts; apply NoDup_seq).
  assert (Hlen : length (points sys) = n) by by rewrite Hpts, length_seq.
  destruct (render_total base n Hn width height sc Hinv) as [sc' Hrender].
  exists sc'. split; [done |].
  pose proof (render_inv base n width height sc sc' Hinv Hrender) as Hinv'.
  destruct (render_steps width height sc sc' Hrender)
    as [[Hnone _] | (sc1 & sc2 & E1 & E2 & E3)]; [congruence |].
  pose proof (snag_inv base n sc sc1 Hinv E1) as Hinv1.
  pose proof (winch_inv base n sc1 sc2 Hinv1 E2) as Hinv2.
  assert (H1 : heap sc1 !! l = Some (snagged ax ay)).
  { unfold snag in E1. rewrite Hr, Hm, Hdr in E1. simpl in E1.
    unfold snagPoints in E1.
    rewrite (forUp_ext _ _ _ _ _ (snagAt_updAt _ _ _)) in E1.
    destruct (forUp_updAt (points sys) 0 (snagF ax ay)
                (length (points sys) - 1) 0 (heap sc))
      as (g & Eg & _ & Hin & _); [done | by rewrite Hpts | simpl; lia |].
    rewrite Eg in E1. simpl in E1. injection E1 as <-. simpl.
    rewrite (Hin i l p); [| lia | done | done].
    unfold snagF. by rewrite Hpin, Hnear. }
  rewrite Hpts in Hl. rewrite Hlen in Hi.
  pose proof (winch_keeps_inner_pins base n sc1 sc2 i l _ Hinv1 E2 Hi Hl H1
                eq_refl) as H2.
  destruct (physics_kept base n width height BULB_RADIUS sc2 sc' Hinv2 E3)
    as ((_ & K) & _ & Hm3 & _).
  pose proof (K _ _ H2 eq_refl) as H3. split; [exact H3 |].
  assert (Hm' : mount sc' = Some {| cx := ax; cy := ay |}).
  { rewrite Hm3, (winch_mount _ _ E2).
    destruct (snag_kept base n sc sc1 Hinv E1) as (_ & _ & -> & _). done. }
  destruct (Hinv') as [(sys3 & Hr3 & Hpts3 & _) _ _].
  unfold isSnagged. rewrite Hr3, Hm'. simpl. rewrite Hpts3.
  apply (somePoint_true _ _ _ i l (snagged ax ay));
    [by apply SceneInv_wf_points | done | done | done].
Qed.

(** X11. In every number model, whatever [Math.hypot] and [Math.abs]
    compute, provided [|ax - ax| < 1] and [|ay - ay| < 1] for the peg
    [(ax, ay)]: when a frame is rendered while the rope is dragged and
    an unpinned point other than the end point is within the snag
    distance of the peg, that point is at the peg at the end of the
    frame and the test [isSnagged], which draws the tied loop, is true.
    In binary64 arithmetic [|v - v| < 1] holds for every finite [v]. *)
Theorem snagged_rope_shows_tied_loop (N : JSNumber) (nabs : num → num)
    (sc : Scene) (sys : RopeSystem) (ax ay : num) (i : nat) (l : loc)
    (p : Point) (width height : num) :
  nlt (nabs (nsub ax ax)) (lit 1) = true →
  nlt (nabs (nsub ay ay)) (lit 1) = true →
  reachable sc → rope sc = Some sys →
  isDragging (drag sc) = true →
  mount sc = Some {| cx := ax; cy := ay |} →
  points sys !! i = Some l → i + 2 ≤ length (points sys) →
  heap sc !! l = Some p → pinned p = false →
  nlt (hypot (nsub (x p) ax) (nsub (y p) ay)) SNAG_THRESHOLD = true →
  (∃ sc', render width height sc = Some sc' ∧
          heap sc' !! l = Some (snagged ax ay) ∧
          isSnagged nabs sc' = Some true) ∧
  (∀ v : float,
     is_finite v = true →
     @nlt FloatNumber (PrimFloat.abs (@nsub FloatNumber v v)) (lit 1)
     = true).
Proof.
  intros Hx Hy Hreach Hr Hdr Hm Hl Hi Hp Hpin Hnear. split.
  - apply (render_shows_snag nabs sc sys ax ay i l p); try done.
    unfold atPeg, snagged. cbn [x y pinned]. by rewrite Hx, Hy.
  - intros v Hv. rewrite (float_sub_diag v Hv). reflexivity.
Qed.

Lemma snagged_rope_shows_tied_loop_witness :
  let sc := demoAfter demoGrab in
  reachable sc ∧ isDragging (drag sc) = true ∧
  mount sc = Some (@mkCoord FloatNumber 700%float 15%float) ∧
  heap sc !! 2
  = Some (@mkPoint FloatNumber 700%float 20%float 700%float 20%float false) ∧
  ∃ sc', render (N := FloatNumber) 1000%float 600%float sc = Some sc' ∧
         isSnagged (N := FloatNumber) PrimFloat.abs sc' = Some true.
Proof.
  intros sc.
  assert (Hreach : reachable sc).
  { apply demoAfter_reachable. vm_compute. by eexists. }
  split; [exact Hreach |]. split; [reflexivity |]. split; [reflexivity |].
  split; [reflexivity |].
  destruct (snagged_rope_shows_tied_loop FloatNumber PrimFloat.abs sc
              (createRope (N := FloatNumber) [] (lit 700) (lit 0) 5 (lit 10)).2
              700%float 15%float 2 2
              (@mkPoint FloatNumber 700%float 20%float 700%float 20%float
                        false)
              1000%float 600%float eq_refl eq_refl Hreach eq_refl eq_refl
              eq_refl eq_refl)
    as ((sc' & E & _ & Hs) & _).
  - simpl. lia.
  - reflexivity.
  - reflexivity.
  - vm_compute. reflexivity.
  - exists sc'. split; [exact E | exact Hs].
Defined.

(** ** A click on the bulb *)

Lemma setPinned_undo `{JSNumber} (p : Point) :
  pinned p = false → setPinned false (setPinned true p) = p.
Proof. destruct p. simpl. by intros ->. Qed.

(** X12. A pointer-down followed by a pointer-up and the click, with no
    frame in between, on an idle scene whose end point is unpinned and
    not within the securing distance of a peg: the store, the rope, the
    drag state and the peg are as before, only the pointer position is
    recorded; the bulb is toggled exactly when the pointer-down had
    grabbed the end point, that is, within 60 of it. *)
Theorem click_on_bulb_round_trip (N : JSNumber) (px py : num) (sc : Scene)
    (sys : RopeSystem) (l : loc) (pe : Point) (isBulbOn : bool) :
  rope sc = Some sys → drag sc = idle →
  points sys !! (length (points sys) - 1) = Some l →
  heap sc !! l = Some pe → pinned pe = false →
  (∀ m, mount sc = Some m →
        nlt (hypot (nsub (x pe) (cx m)) (nsub (y pe) (cy m)))
            SECURE_THRESHOLD = false) →
  ∃ sc1 sc2 b,
    handlePointerDown px py false sc = Some sc1 ∧
    handlePointerUp sc1 = Some sc2 ∧
    handleCanvasClick px py false sc2 isBulbOn = Some b ∧
    sc2 = handlePointerMove px py sc ∧
    isDragging (drag sc1)
    = nlt (hypot (nsub px (x pe)) (nsub py (y pe))) (lit 60) ∧
    b = xorb isBulbOn (isDragging (drag sc1)).
Proof.
  intros Hr Hd Hl Hp Hpin Hfar.
  assert (Hclick : ∀ sc2, sc2 = handlePointerMove px py sc →
    handleCanvasClick px py false sc2 isBulbOn
    = Some (xorb isBulbOn
              (nlt (hypot (nsub px (x pe)) (nsub py (y pe))) (lit 60)))).
  { intros ? ->. unfold handleCanvasClick, handlePointerMove. cbn [rope heap].
    rewrite Hr, Hl. simpl. rewrite Hp. simpl.
    destruct (nlt _ _), isBulbOn; done. }
  unfold handlePointerDown. rewrite Hr, Hl. simpl. rewrite Hp. simpl.
  change GRAB_RADIUS with (lit 60).
  destruct (nlt (hypot (nsub px (x pe)) (nsub py (y pe))) (lit 60)) eqn:Hnear.
  - eexists _, (handlePointerMove px py sc), _. split; [done |].
    split; [| split; [by apply Hclick | done]].
    unfold handlePointerUp. cbn [rope drag heap pointIndex isDragging mount
                                 mouse].
    rewrite Hl. simpl.
    assert (Hlt : l < length (heap sc)) by (by eapply lookup_lt_Some).
    rewrite list_lookup_insert_eq by done. simpl.
    rewrite list_insert_insert_eq. unfold handlePointerMove.
    rewrite Hd, Hr. do 2 f_equal.
    assert (Hrel : release (mount sc) (setPinned true pe) = pe).
    { unfold release. destruct (mount sc) as [m|] eqn:Hm;
        [| by apply setPinned_undo].
      cbn [x y setPinned]. rewrite (Hfar m eq_refl).
      by apply setPinned_undo. }
    rewrite Hrel. by apply list_insert_id.
  - eexists _, (handlePointerMove px py sc), _. split; [done |].
    cbn [drag]. rewrite Hd.
    split; [| split; [by apply Hclick | done]].
    unfold handlePointerUp. cbn [rope drag heap pointIndex isDragging mount
                                 mouse].
    simpl. unfold handlePointerMove. by rewrite Hd, Hr.
Qed.

Lemma click_on_bulb_round_trip_witness :
  let sc := demoAfter [PointerDown (N := FloatNumber) 100%float 15%float
                                   true] in
  mount sc = Some (@mkCoord FloatNumber 100%float 15%float) ∧
  heap sc !! 4
  = Some (@mkPoint FloatNumber 700%float 40%float 700%float 40%float false) ∧
  ∃ sc1 sc2 b,
    handlePointerDown (N := FloatNumber) 700%float 45%float false sc
    = Some sc1 ∧
    handlePointerUp sc1 = Some sc2 ∧
    handleCanvasClick (N := FloatNumber) 700%float 45%float false sc2 false
    = Some b ∧
    heap sc2 = heap sc ∧ isDragging (drag sc1) = true ∧ b = true.
Proof.
  intros sc. split; [reflexivity |]. split; [reflexivity |].
  destruct (click_on_bulb_round_trip FloatNumber 700%float 45%float sc
              (createRope (N := FloatNumber) [] (lit 700) (lit 0) 5 (lit 10)).2
              4
              (@mkPoint FloatNumber 700%float 40%float 700%float 40%float
                        false)
              false eq_refl eq_refl eq_refl eq_refl eq_refl)
    as (sc1 & sc2 & b & E1 & E2 & E3 & H2 & Hd & Hb).
  - intros m Hm. injection Hm as <-. vm_compute. reflexivity.
  - exists sc1, sc2, b. split; [exact E1 |]. split; [exact E2 |].
    split; [exact E3 |]. split; [by rewrite H2 |].
    assert (Hnear : isDragging (drag sc1) = true)
      by (rewrite Hd; vm_compute; reflexivity).
    split; [exact Hnear |]. by rewrite Hb, Hnear.
Defined.

(** ** The initial state *)

(** X13. The Initialize Physics effect, for any container size and any
    store: it returns; the new rope has 40 points allocated at the end
    of the store, which is otherwise kept, and 39 sticks of length
    [height * 0.6 / 40]; every point but the last is as [createRope] made
    it, at rest at [x = width * 0.7], and the last point differs only in
    [oldx = x - 50]: in exact arithmetic a velocity of 50 to the right,
    on the end point alone. *)
Theorem initPhysics_kicks_the_end_point_only (N : JSNumber)
    (width height : num) (sc0 : Scene) :
  let startX := nmul width (lit 0.7) in
  let L := ndiv (nmul height (lit 0.6)) (of_nat 40) in
  let base := length (heap sc0) in
  ∃ sc sys,
    initPhysics width height sc0 = Some sc ∧ rope sc = Some sys ∧
    points sys = seq base 40 ∧ length (sticks sys) = 39 ∧
    (∀ i st, sticks sys !! i = Some st → stick_length st = L) ∧
    length (heap sc) = base + 40 ∧
    (∀ l p, heap sc0 !! l = Some p → heap sc !! l = Some p) ∧
    (∀ i, i < 39 →
          heap sc !! (base + i) = Some (newPoint startX (lit 0) L i)) ∧
    heap sc !! (base + 39)
    = Some (setOldx (nsub startX (lit 50)) (newPoint startX (lit 0) L 39)) ∧
    (ExactArith N → nsub startX (nsub startX (lit 50)) = lit 50).
Proof.
  intros startX L base. subst base. unfold initPhysics.
  change INITIAL_SEGMENT_COUNT with 40. fold startX L.
  pose proof (createRope_points (heap sc0) startX (lit 0) L 40) as Hp.
  pose proof (createRope_heap_length (heap sc0) startX (lit 0) L 40) as Hh.
  pose proof (createRope_old (heap sc0) startX (lit 0) L 40) as Hold.
  pose proof (createRope_new (heap sc0) startX (lit 0) L 40) as Hnew.
  pose proof (createRope_sticks_length (heap sc0) startX (lit 0) L 40) as Hsl.
  pose proof (createRope_stick (heap sc0) startX (lit 0) L 40) as Hst.
  destruct (createRope (heap sc0) startX (lit 0) 40 L) as [h sys].
  cbn [fst snd] in *.
  unfold swing. rewrite Hp, length_seq. cbn [Nat.ltb Nat.leb Nat.sub].
  rewrite lookup_seq_lt by lia. simpl.
  rewrite (Hnew 39) by lia. simpl.
  assert (Hlt : length (heap sc0) + 39 < length h) by lia.
  eexists _, sys. split; [done |]. cbn [rope heap].
  split; [done |]. split; [done |]. split; [done |]. split.
  { intros i st Hi. assert (i < 40 - 1).
    { apply lookup_lt_Some in Hi. lia. }
    rewrite Hst in Hi by done. by injection Hi as <-. }
  split; [rewrite length_insert; lia |]. split.
  { intros l p Hl. pose proof (lookup_lt_Some _ _ _ Hl).
    rewrite list_lookup_insert_ne by lia.
    by rewrite Hold. }
  split.
  { intros i Hi. rewrite list_lookup_insert_ne by lia. apply Hnew. lia. }
  split; [by rewrite list_lookup_insert_eq |].
  intros Hex. apply (exact_sub_back Hex).
Qed.

(** ** The peg *)

Section Peg.
Context {N : JSNumber}.
Implicit Types (sc : Scene).

Variables base n : nat.
Hypothesis Hn : 1 ≤ n.

Lemma step_mount e sc sc' :
  SceneInv base n sc → step e sc = Some sc' →
  (placesPeg e = false → mount sc' = mount sc) ∧
  (is_Some (mount sc) → is_Some (mount sc')).
Proof.
  intros Hinv Hstep.
  assert (Hsame : mount sc' = mount sc →
    (placesPeg e = false → mount sc' = mount sc) ∧
    (is_Some (mount sc) → is_Some (mount sc'))).
  { intros ->. by split. }
  destruct e; simpl in Hstep.
  - apply Hsame.
    destruct (render_steps _ _ _ _ Hstep)
      as [[_ ->] | (sc1 & sc2 & E1 & E2 & E3)]; [done |].
    pose proof (snag_inv base n sc sc1 Hinv E1) as Hinv1.
    pose proof (winch_inv base n sc1 sc2 Hinv1 E2) as Hinv2.
    destruct (snag_kept base n sc sc1 Hinv E1) as (_ & _ & M1 & _).
    destruct (physics_kept base n _ _ _ sc2 sc' Hinv2 E3) as (_ & _ & M3 & _).
    by rewrite M3, (winch_mount _ _ E2).
  - unfold handlePointerDown in Hstep.
    destruct (rope sc) as [sys|]; [| injection Hstep as <-; by apply Hsame].
    destruct isHammerMode.
    + injection Hstep as <-. simpl. split; [done | by eexists].
    + apply Hsame.
      destruct (points sys !! _) as [l|]; simpl in Hstep; [| done].
      destruct (heap sc !! l) as [pe|]; simpl in Hstep; [| done].
      destruct (nlt _ _); by injection Hstep as <-.
  - injection Hstep as <-. by apply Hsame.
  - apply Hsame. unfold handlePointerUp in Hstep.
    match type of Hstep with (?m ≫= _) = _ => destruct m end;
      simpl in Hstep; [| done].
    by injection Hstep as <-.
  - apply Hsame. destruct (rope sc) as [sys|]; [| by injection Hstep as <-].
    destruct (swing sys (heap sc)); simpl in Hstep; [| done].
    by injection Hstep as <-.
  - apply Hsame. by destruct (snag_kept base n sc sc' Hinv Hstep) as (_ & _ & ? & _).
  - apply Hsame. by apply winch_mount.
  - apply Hsame.
    by destruct (physics_kept base n _ _ _ sc sc' Hinv Hstep) as (_ & _ & ? & _).
Qed.

Lemma run_mount es : ∀ sc sc',
  SceneInv base n sc → run es sc = Some sc' →
  (forallb (λ e, negb (placesPeg e)) es = true → mount sc' = mount sc) ∧
  (is_Some (mount sc) → is_Some (mount sc')).
Proof.
  induction es as [|e es IH]; intros sc sc' Hinv Hrun; simpl in Hrun.
  - injection Hrun as <-. by split.
  - destruct (step e sc) as [sc1|] eqn:E; simpl in Hrun; [| done].
    destruct (step_mount e sc sc1 Hinv E) as [Hs1 Hs2].
    destruct (IH sc1 sc' (step_inv base n e sc sc1 Hinv E) Hrun) as [Hr1 Hr2].
    split.
    + simpl. intros [He Hes]%andb_prop.
      rewrite (Hr1 Hes). apply Hs1. by destruct (placesPeg e).
    + intros Hm. by apply Hr2, Hs2.
Qed.

End Peg.

(** X14. From a reachable scene every sequence of events runs, and the
    peg is changed by nothing but a pointer-down in hammer mode: without
    one the peg is as before, and in any case a peg that is mounted is
    never removed. *)
Theorem peg_is_only_moved_by_the_hammer (N : JSNumber) (sc : Scene)
    (es : list Event) :
  reachable sc →
  ∃ sc', run es sc = Some sc' ∧
         (forallb (λ e, negb (placesPeg e)) es = true →
          mount sc' = mount sc) ∧
         (is_Some (mount sc) → is_Some (mount sc')).
Proof.
  intros Hreach.
  destruct (reachable_inv sc Hreach) as (base & n & Hn & Hinv).
  destruct (run_total base n Hn es sc Hinv) as (sc' & Hrun & _).
  exists sc'. split; [done |]. by apply (run_mount base n es sc sc').
Qed.

Lemma peg_is_only_moved_by_the_hammer_witness :
  let sc := demoAfter demoGrab in
  reachable sc ∧
  ∃ sc', run [@PointerMove FloatNumber 720%float 30%float;
              @Frame FloatNumber 1000%float 600%float; PointerUp] sc
         = Some sc' ∧
         mount sc' = Some (@mkCoord FloatNumber 700%float 15%float).
Proof.
  intros sc.
  assert (Hreach : reachable sc).
  { apply demoAfter_reachable. vm_compute. by eexists. }
  split; [exact Hreach |].
  destruct (peg_is_only_moved_by_the_hammer FloatNumber sc
              [@PointerMove FloatNumber 720%float 30%float;
               @Frame FloatNumber 1000%float 600%float; PointerUp] Hreach)
    as (sc' & E & Hm & _).
  exists sc'. split; [exact E |]. by rewrite Hm.
Defined.

(** X15. Seen from [App], on a reachable scene: a pointer-down always
    returns and leaves hammer mode off.  In hammer mode it places the peg
    at the pointer and touches neither the store, the rope nor the drag
    state, even on the bulb; out of hammer mode it leaves the peg where
    it is. *)
Theorem hammer_mode_is_one_shot (N : JSNumber) (px py : num)
    (isHammerMode : bool) (sc : Scene) :
  reachable sc →
  ∃ sc', appPointerDown px py (isHammerMode, sc) = Some (false, sc') ∧
         mouse sc' = {| cx := px; cy := py |} ∧
         (isHammerMode = true →
          mount sc' = Some {| cx := px; cy := py |} ∧
          heap sc' = heap sc ∧ rope sc' = rope sc ∧ drag sc' = drag sc) ∧
         (isHammerMode = false → mount sc' = mount sc).
Proof.
  intros Hreach.
  destruct (reachable_inv sc Hreach) as (base & n & Hn & Hinv).
  destruct (SceneInv_last base n Hn sc Hinv) as (sys & p & Hr & Hl & Hp).
  unfold appPointerDown, handlePointerDown. rewrite Hr.
  destruct isHammerMode; simpl.
  - eexists. by split.
  - rewrite Hl. simpl. rewrite Hp. simpl.
    destruct (nlt _ _); eexists; by split.
Qed.

Lemma hammer_mode_is_one_shot_witness :
  ∃ sc', appPointerDown (N := FloatNumber) 700%float 40%float
                        (true, demoAfter []) = Some (false, sc') ∧
         mount sc' = Some (@mkCoord FloatNumber 700%float 40%float) ∧
         drag sc' = idle.
Proof.
  assert (Hreach : reachable (demoAfter [])).
  { apply demoAfter_reachable. vm_compute. by eexists. }
  destruct (hammer_mode_is_one_shot FloatNumber 700%float 40%float true
              (demoAfter []) Hreach) as (sc' & E & _ & Hm & _).
  destruct (Hm eq_refl) as (M & _ & _ & D).
  exists sc'. split; [exact E |]. split; [exact M |]. exact D.
Defined.
